(** * Shelley: the subscription bus, the end-of-turn observer, the slug
    allocator, the port-80 guard of the browser tool and the conversation
    table, embedded in Rocq and checked against their specification.

    Go strings are modelled in two ways, each where it is exact:
    - message types, URLs and tool messages are byte strings ([string]);
    - the slug package works through [strings.ToLower], [regexp] and
      [strings.TrimSpace], which all read a string as its sequence of runes,
      so there a Go string is the list of the runes it decodes to.

    The later parts go on from these to the code around them: what the bus
    keeps over any run, what a stream sends, the slugs that reach the
    database, the console log buffer, the resize action and the downloads
    of the browser tool, the address of the server in the client, and the
    type under which a message is recorded. *)

From Stdlib Require Import String Ascii List ZArith NArith Lia Bool.
From Stdlib Require Import DecimalString Decimal.
From stdpp Require Import base option list.

Import ListNotations.
Open Scope string_scope.
Open Scope list_scope.

(* ===================================================================== *)
(** * Package server: the end-of-turn observer [agentWorking]             *)
(* ===================================================================== *)

Module Server.

(** Modelled from the spec: the constants [db.MessageTypeUser],
    [db.MessageTypeAgent], ... are declared in package [db], which is not
    among the sources; the spec lists the message types as
    user, agent, tool, error and gitinfo. *)
Definition MessageTypeUser : string := "user".
Definition MessageTypeAgent : string := "agent".
Definition MessageTypeTool : string := "tool".
Definition MessageTypeError : string := "error".
Definition MessageTypeGitInfo : string := "gitinfo".

(** [APIMessage], restricted to the two fields [agentWorking] reads.
    [EndOfTurn] is a [*bool]: [None] is the nil pointer. *)
Record APIMessage := mkAPIMessage {
  Type_ : string;
  EndOfTurn : option bool
}.

(** The first loop of [agentWorking]:
    [for lastIdx >= 0 && messages[lastIdx].Type == gitinfo { lastIdx-- }].
    The argument [n] is [lastIdx + 1]; the result is the final [lastIdx],
    [None] standing for [lastIdx < 0]. *)
Fixpoint skipGitInfo (messages : list APIMessage) (n : nat) : option nat :=
  match n with
  | O => None
  | S i =>
      match nth_error messages i with
      | Some m =>
          if String.eqb (Type_ m) MessageTypeGitInfo
          then skipGitInfo messages i
          else Some i
      | None => None
      end
  end.

(** The second loop, [for i := lastIdx; i >= 0; i--]: it looks for the
    nearest agent entry at or before [lastIdx]; [n] is [i + 1]. The result
    is [Some b] when the loop body returns [b], [None] when the loop runs
    out. *)
Fixpoint scanForAgent (messages : list APIMessage) (n : nat) : option bool :=
  match n with
  | O => None
  | S i =>
      match nth_error messages i with
      | Some msg =>
          if negb (String.eqb (Type_ msg) MessageTypeAgent)
          then scanForAgent messages i
          else match EndOfTurn msg with
               | None => Some true
               | Some e => if negb e then Some true else Some true
               end
      | None => None
      end
  end.

Definition agentWorking (messages : list APIMessage) : bool :=
  if Nat.eqb (length messages) 0 then false
  else
    match skipGitInfo messages (length messages) with
    | None => false
    | Some lastIdx =>
        match nth_error messages lastIdx with
        | None => false
        | Some last =>
            if String.eqb (Type_ last) MessageTypeError then false
            else if String.eqb (Type_ last) MessageTypeAgent then
              match EndOfTurn last with
              | None => true
              | Some e => negb e
              end
            else
              match scanForAgent messages (S lastIdx) with
              | Some b => b
              | None => true
              end
        end
    end.

(** The specification's wording, "after ignoring trailing gitinfo entries,
    the tail": the last entry that is not a gitinfo entry, if any. *)
Fixpoint tail_ignoring_gitinfo (messages : list APIMessage) : option APIMessage :=
  match messages with
  | [] => None
  | m :: rest =>
      match tail_ignoring_gitinfo rest with
      | Some t => Some t
      | None => if String.eqb (Type_ m) MessageTypeGitInfo then None else Some m
      end
  end.

(** "an agent entry with end_of_turn=true, or an error entry" *)
Definition ends_turn (m : APIMessage) : bool :=
  (String.eqb (Type_ m) MessageTypeAgent && bool_decide (EndOfTurn m = Some true))
  || String.eqb (Type_ m) MessageTypeError.

Definition is_gitinfo (m : APIMessage) : bool :=
  String.eqb (Type_ m) MessageTypeGitInfo.

Definition is_agent (m : APIMessage) : bool :=
  String.eqb (Type_ m) MessageTypeAgent.

Definition is_error (m : APIMessage) : bool :=
  String.eqb (Type_ m) MessageTypeError.

Definition gitinfo_msg : APIMessage := mkAPIMessage MessageTypeGitInfo None.
Definition agent_msg (e : option bool) : APIMessage := mkAPIMessage MessageTypeAgent e.

(** The cases of [TestAgentWorking]. *)
Example test_empty : agentWorking [] = false.
Proof. reflexivity. Qed.

Example test_agent_eot_true : agentWorking [agent_msg (Some true)] = false.
Proof. reflexivity. Qed.

Example test_agent_eot_false : agentWorking [agent_msg (Some false)] = true.
Proof. reflexivity. Qed.

Example test_agent_eot_nil : agentWorking [agent_msg None] = true.
Proof. reflexivity. Qed.

Example test_error : agentWorking [mkAPIMessage MessageTypeError None] = false.
Proof. reflexivity. Qed.

Example test_agent_then_tool :
  agentWorking [agent_msg (Some true); mkAPIMessage MessageTypeTool None] = true.
Proof. reflexivity. Qed.

Example test_gitinfo_after_eot :
  agentWorking [agent_msg (Some true); gitinfo_msg; gitinfo_msg] = false.
Proof. reflexivity. Qed.

Example test_gitinfo_after_not_eot :
  agentWorking [agent_msg (Some false); gitinfo_msg] = true.
Proof. reflexivity. Qed.

Example test_only_gitinfo : agentWorking [gitinfo_msg; gitinfo_msg] = false.
Proof. reflexivity. Qed.

(** ** Lemmas on the two loops *)

Lemma skipGitInfo_prefix (l r : list APIMessage) (n : nat) :
  n <= length l -> skipGitInfo (l ++ r) n = skipGitInfo l n.
Proof.
  induction n as [|i IH]; intros Hn; simpl; [reflexivity|].
  rewrite nth_error_app1 by lia.
  destruct (nth_error l i) as [m|]; [|reflexivity].
  destruct (String.eqb (Type_ m) MessageTypeGitInfo); [apply IH; lia|reflexivity].
Qed.

Lemma skipGitInfo_snoc (l : list APIMessage) (m : APIMessage) :
  skipGitInfo (l ++ [m]) (length (l ++ [m])) =
  if is_gitinfo m then skipGitInfo l (length l) else Some (length l).
Proof.
  rewrite length_app, Nat.add_comm. simpl.
  rewrite nth_error_app2 by lia. rewrite Nat.sub_diag. simpl.
  unfold is_gitinfo.
  destruct (String.eqb (Type_ m) MessageTypeGitInfo); [|reflexivity].
  apply skipGitInfo_prefix. lia.
Qed.

Lemma tail_ignoring_gitinfo_snoc (l : list APIMessage) (m : APIMessage) :
  tail_ignoring_gitinfo (l ++ [m]) =
  if is_gitinfo m then tail_ignoring_gitinfo l else Some m.
Proof.
  unfold is_gitinfo.
  induction l as [|a l IH]; simpl.
  - destruct (String.eqb (Type_ m) MessageTypeGitInfo); reflexivity.
  - rewrite IH.
    destruct (String.eqb (Type_ m) MessageTypeGitInfo); reflexivity.
Qed.

(** The index the first loop stops at is the position of the tail the
    specification speaks of. *)
Lemma skipGitInfo_tail (l : list APIMessage) :
  match skipGitInfo l (length l) with
  | None => tail_ignoring_gitinfo l = None
  | Some i => nth_error l i = tail_ignoring_gitinfo l /\ i < length l
  end.
Proof.
  induction l as [|m l IH] using rev_ind; [reflexivity|].
  rewrite skipGitInfo_snoc, tail_ignoring_gitinfo_snoc.
  destruct (is_gitinfo m) eqn:Hg.
  - destruct (skipGitInfo l (length l)) as [i|]; [|exact IH].
    destruct IH as [IH Hi]. rewrite length_app. simpl. split; [|lia].
    rewrite nth_error_app1 by lia. exact IH.
  - rewrite length_app. simpl. split; [|lia].
    rewrite nth_error_app2 by lia. rewrite Nat.sub_diag. reflexivity.
Qed.

Lemma tail_ignoring_gitinfo_not_gitinfo (l : list APIMessage) (t : APIMessage) :
  tail_ignoring_gitinfo l = Some t -> is_gitinfo t = false /\ In t l.
Proof.
  induction l as [|m l IH]; simpl; [discriminate|].
  destruct (tail_ignoring_gitinfo l) as [t'|].
  - intros [= <-]. destruct (IH eq_refl) as [H1 H2]. split; [exact H1|right; exact H2].
  - unfold is_gitinfo.
    destruct (String.eqb (Type_ m) MessageTypeGitInfo) eqn:Hg; [discriminate|].
    intros [= <-]. split; [exact Hg|left; reflexivity].
Qed.

Lemma tail_ignoring_gitinfo_none (l : list APIMessage) :
  tail_ignoring_gitinfo l = None <-> forallb is_gitinfo l = true.
Proof.
  induction l as [|m l IH]; simpl; [tauto|].
  unfold is_gitinfo at 1.
  destruct (tail_ignoring_gitinfo l) as [t|].
  - split; [discriminate|].
    intros H. apply andb_prop in H. destruct H as [_ H].
    apply IH in H. discriminate.
  - destruct (String.eqb (Type_ m) MessageTypeGitInfo); simpl.
    + split; intros _; [apply IH|]; reflexivity.
    + split; discriminate.
Qed.

(** Every [return] inside the second loop returns [true]. *)
Lemma scanForAgent_true (l : list APIMessage) (n : nat) (b : bool) :
  scanForAgent l n = Some b -> b = true.
Proof.
  induction n as [|i IH]; simpl; [discriminate|].
  destruct (nth_error l i) as [m|]; [|discriminate].
  destruct (negb (String.eqb (Type_ m) MessageTypeAgent)); [exact IH|].
  destruct (EndOfTurn m) as [[|]|]; simpl; intros [= <-]; reflexivity.
Qed.

(** [agentWorking] in closed form: nothing left after the trailing gitinfo
    entries gives [false]; otherwise the tail decides. *)
Lemma agentWorking_tail (l : list APIMessage) :
  agentWorking l =
  match tail_ignoring_gitinfo l with
  | None => false
  | Some t => negb (ends_turn t)
  end.
Proof.
  unfold agentWorking.
  destruct (Nat.eqb (length l) 0) eqn:He.
  - apply Nat.eqb_eq in He. destruct l; [reflexivity|discriminate].
  - pose proof (skipGitInfo_tail l) as Hs.
    destruct (skipGitInfo l (length l)) as [i|].
    + destruct Hs as [Hs _]. rewrite <- Hs.
      destruct (nth_error l i) as [t|]; [|reflexivity].
      unfold ends_turn.
      destruct (String.eqb (Type_ t) MessageTypeError) eqn:Herr.
      { rewrite orb_true_r. reflexivity. }
      rewrite orb_false_r.
      destruct (String.eqb (Type_ t) MessageTypeAgent) eqn:Hag.
      { destruct (EndOfTurn t) as [[|]|]; reflexivity. }
      cbn [andb negb].
      destruct (scanForAgent l (S i)) as [b|] eqn:Hsc; [|reflexivity].
      apply scanForAgent_true in Hsc. exact Hsc.
    + rewrite Hs. reflexivity.
Qed.

Lemma tail_ignoring_gitinfo_app_gitinfo (l gs : list APIMessage) :
  forallb is_gitinfo gs = true ->
  tail_ignoring_gitinfo (l ++ gs) = tail_ignoring_gitinfo l.
Proof.
  intros Hg. induction l as [|m l IH]; simpl.
  - apply tail_ignoring_gitinfo_none. exact Hg.
  - rewrite IH. reflexivity.
Qed.

(** ** The end-of-turn rule *)

(** C4, as the specification words it, fails on the empty list (and on a
    list of gitinfo entries only): [agentWorking] answers [false] although no
    entry is left to be the tail, so no agent or error entry is the tail. *)
Lemma agentWorking_false_without_tail :
  agentWorking [] = false /\ tail_ignoring_gitinfo [] = None /\
  agentWorking [gitinfo_msg; gitinfo_msg] = false /\
  tail_ignoring_gitinfo [gitinfo_msg; gitinfo_msg] = None.
Proof. repeat split. Qed.

(** C4 (amended): [agentWorking messages] is [false] if and only if, after
    ignoring trailing gitinfo entries, either nothing is left or the tail is
    an agent entry with [end_of_turn = true] or an error entry; every other
    tail gives [true]. In particular a list that ends with an agent entry
    with [end_of_turn = true], followed by any number of gitinfo entries,
    gives [false]. *)
Theorem agentWorking_end_of_turn_rule :
  (forall messages : list APIMessage,
      agentWorking messages = false <->
      (tail_ignoring_gitinfo messages = None \/
       exists t, tail_ignoring_gitinfo messages = Some t /\
                 ((is_agent t = true /\ EndOfTurn t = Some true) \/
                  is_error t = true))) /\
  (forall (messages gs : list APIMessage) (t : APIMessage),
      is_agent t = true -> EndOfTurn t = Some true ->
      forallb is_gitinfo gs = true ->
      agentWorking (messages ++ [t]) = false /\
      agentWorking ((messages ++ [t]) ++ gs) = false).
Proof.
  assert (Hends : forall t, ends_turn t = true <->
            ((is_agent t = true /\ EndOfTurn t = Some true) \/ is_error t = true)).
  { intros t. unfold ends_turn, is_agent, is_error.
    rewrite orb_true_iff, andb_true_iff, bool_decide_eq_true. tauto. }
  split.
  - intros messages. rewrite agentWorking_tail.
    destruct (tail_ignoring_gitinfo messages) as [t|].
    + rewrite negb_false_iff, Hends. split.
      * intros H. right. exists t. split; [reflexivity|exact H].
      * intros [H|[t' [[= <-] H]]]; [discriminate|exact H].
    + split; [intros _; left; reflexivity|reflexivity].
  - intros messages gs t Hag Heot Hgs.
    assert (Hg : is_gitinfo t = false).
    { unfold is_agent in Hag. unfold is_gitinfo.
      apply String.eqb_eq in Hag. rewrite Hag. reflexivity. }
    assert (Ht : tail_ignoring_gitinfo (messages ++ [t]) = Some t).
    { rewrite tail_ignoring_gitinfo_snoc, Hg. reflexivity. }
    assert (He : ends_turn t = true) by (apply Hends; left; split; assumption).
    split; rewrite agentWorking_tail.
    + rewrite Ht, He. reflexivity.
    + rewrite tail_ignoring_gitinfo_app_gitinfo by exact Hgs.
      rewrite Ht, He. reflexivity.
Qed.

Lemma agentWorking_end_of_turn_rule_witness :
  agentWorking ([mkAPIMessage MessageTypeUser None] ++ [agent_msg (Some true)]) = false /\
  agentWorking (([mkAPIMessage MessageTypeUser None] ++ [agent_msg (Some true)])
                  ++ [gitinfo_msg; gitinfo_msg; gitinfo_msg]) = false.
Proof.
  exact (proj2 agentWorking_end_of_turn_rule
           [mkAPIMessage MessageTypeUser None] [gitinfo_msg; gitinfo_msg; gitinfo_msg]
           (agent_msg (Some true)) eq_refl eq_refl eq_refl).
Defined.

(** C10: on a list with no agent entry and no error entry, [agentWorking]
    is [false] when the list is empty or holds gitinfo entries only, and
    [true] as soon as it holds one entry that is not a gitinfo entry. *)
Theorem agentWorking_without_agent_or_error (messages : list APIMessage) :
  forallb (fun m => negb (is_agent m) && negb (is_error m)) messages = true ->
  (messages = [] -> agentWorking messages = false) /\
  (forallb is_gitinfo messages = true -> agentWorking messages = false) /\
  (existsb (fun m => negb (is_gitinfo m)) messages = true ->
   agentWorking messages = true).
Proof.
  intros Hno. rewrite agentWorking_tail. split; [|split].
  - intros ->. reflexivity.
  - intros Hg. apply tail_ignoring_gitinfo_none in Hg. rewrite Hg. reflexivity.
  - intros Hex.
    destruct (tail_ignoring_gitinfo messages) as [t|] eqn:Ht.
    + apply tail_ignoring_gitinfo_not_gitinfo in Ht. destruct Ht as [_ Hin].
      rewrite forallb_forall in Hno. specialize (Hno t Hin).
      apply andb_prop in Hno. destruct Hno as [Ha He].
      apply negb_true_iff in Ha, He.
      unfold ends_turn. unfold is_agent in Ha. unfold is_error in He.
      rewrite Ha, He. reflexivity.
    + apply tail_ignoring_gitinfo_none in Ht.
      apply existsb_exists in Hex. destruct Hex as [m [Hin Hm]].
      rewrite forallb_forall in Ht. rewrite (Ht m Hin) in Hm. discriminate.
Qed.

Lemma agentWorking_without_agent_or_error_witness :
  agentWorking [mkAPIMessage MessageTypeUser None] = true /\
  agentWorking [gitinfo_msg; mkAPIMessage MessageTypeTool None; gitinfo_msg] = true /\
  agentWorking [gitinfo_msg; gitinfo_msg] = false.
Proof.
  split; [|split].
  - exact (proj2 (proj2 (agentWorking_without_agent_or_error
                           [mkAPIMessage MessageTypeUser None] eq_refl)) eq_refl).
  - exact (proj2 (proj2 (agentWorking_without_agent_or_error
                           [gitinfo_msg; mkAPIMessage MessageTypeTool None; gitinfo_msg]
                           eq_refl)) eq_refl).
  - exact (proj1 (proj2 (agentWorking_without_agent_or_error
                           [gitinfo_msg; gitinfo_msg] eq_refl)) eq_refl).
Defined.

End Server.

(* ===================================================================== *)
(** * Package subpub: the index-keyed subscription bus                    *)
(* ===================================================================== *)

Module SubPub.

Section Bus.

Context {K : Type}.

(** ** Channels *)

(** A buffered Go channel: the values it holds, oldest first, and whether
    [close] was called on it. *)
Record chan := mkChan {
  buf : list K;
  closed : bool
}.

(** [make(chan K, 10)] in [Subscribe]. *)
Definition chanCap : nat := 10.

(** [close(c)]; closing a closed channel panics ([None]). *)
Definition chan_close (c : chan) : option chan :=
  if closed c then None else Some (mkChan (buf c) true).

(** The outcome of [select { case c <- v: ... default: ... }]. *)
Inductive send_result :=
| SendPanics                 (* send on a closed channel *)
| Sent (c' : chan)           (* the case ran: the value is in the buffer *)
| SendWouldBlock.            (* buffer full: the default case ran *)

Definition chan_try_send (c : chan) (v : K) : send_result :=
  if closed c then SendPanics
  else if Nat.ltb (length (buf c)) chanCap then Sent (mkChan (buf c ++ [v]) false)
  else SendWouldBlock.

(** What a receive [v, ok := <-c] finds. A closed channel still hands out
    the values left in its buffer, with [ok = true]. *)
Inductive recv_result :=
| RecvNotReady                       (* open and empty: a receive blocks *)
| RecvValue (v : K) (c' : chan)      (* ok = true *)
| RecvClosed.                        (* closed and empty: ok = false *)

Definition chan_recv (c : chan) : recv_result :=
  match buf c with
  | v :: rest => RecvValue v (mkChan rest (closed c))
  | [] => if closed c then RecvClosed else RecvNotReady
  end.

(** ** Subscribers and the bus *)

(** [subscriber[K]]. The fields [ctx] and [cancel] are one cancel token:
    [ctx_done] says that [ctx.Done()] is closed, which happens when
    [cancel] is called or when the context given to [Subscribe] ends. *)
Record subscriber := mkSub {
  idx : Z;
  ch : chan;
  ctx_done : bool
}.

(** The bus holds pointers to its subscribers, and so does each [NextFn]
    closure, which outlives the removal of its subscriber from the bus.
    [heap] holds every subscriber that was ever allocated, by address;
    [subscribers] is the slice [sp.subscribers] of addresses. *)
Record state := mkState {
  heap : list subscriber;
  subscribers : list nat
}.

Definition New : state := mkState [] [].

(** [Subscribe(ctx, idx)]: [parent_done] says whether [ctx] had already
    ended. The result is the new state and the address of the subscriber,
    which stands for the returned [NextFn]. *)
Definition Subscribe (parent_done : bool) (i : Z) (s : state) : state * nat :=
  let sub := mkSub i (mkChan [] false) parent_done in
  (mkState (heap s ++ [sub]) (subscribers s ++ [length (heap s)]),
   length (heap s)).

(** The context given to [Subscribe] ends (an event of the environment). *)
Definition cancel_ctx (a : nat) (s : state) : state :=
  match heap s !! a with
  | Some sub => mkState (<[a := mkSub (idx sub) (ch sub) true]> (heap s)) (subscribers s)
  | None => s
  end.

(** One iteration of the loop of [Publish] on subscriber [sub]: the
    subscriber afterwards and whether it was appended to [remaining];
    [None] is a panic. *)
Definition publish_sub (i : Z) (message : K) (sub : subscriber)
  : option (subscriber * bool) :=
  if ctx_done sub then
    (* case <-sub.ctx.Done(): close(sub.ch); continue *)
    match chan_close (ch sub) with
    | None => None
    | Some c => Some (mkSub (idx sub) c (ctx_done sub), false)
    end
  else if (idx sub <? i)%Z then
    match chan_try_send (ch sub) message with
    | SendPanics => None
    | Sent c => Some (mkSub i c (ctx_done sub), true)
    | SendWouldBlock =>
        (* close(sub.ch); sub.cancel() *)
        match chan_close (ch sub) with
        | None => None
        | Some c => Some (mkSub (idx sub) c true, false)
        end
    end
  else Some (sub, true).

(** One iteration of the loop of [Broadcast]. *)
Definition broadcast_sub (message : K) (sub : subscriber)
  : option (subscriber * bool) :=
  if ctx_done sub then
    match chan_close (ch sub) with
    | None => None
    | Some c => Some (mkSub (idx sub) c (ctx_done sub), false)
    end
  else
    match chan_try_send (ch sub) message with
    | SendPanics => None
    | Sent c => Some (mkSub (idx sub) c (ctx_done sub), true)
    | SendWouldBlock =>
        match chan_close (ch sub) with
        | None => None
        | Some c => Some (mkSub (idx sub) c true, false)
        end
    end.

(** [for _, sub := range sp.subscribers { ... }] with the loop body [body].
    [remaining] shares its array with [sp.subscribers], but it is written
    only at positions the loop has already read, so it is a list of its
    own here. *)
Fixpoint deliver (body : subscriber -> option (subscriber * bool))
    (subs : list nat) (h : list subscriber) (remaining : list nat)
  : option (list subscriber * list nat) :=
  match subs with
  | [] => Some (h, remaining)
  | a :: rest =>
      match h !! a with
      | None => None
      | Some sub =>
          match body sub with
          | None => None
          | Some (sub', keep) =>
              deliver body rest (<[a := sub']> h)
                      (if keep then remaining ++ [a] else remaining)
          end
      end
  end.

Definition run_loop (body : subscriber -> option (subscriber * bool))
    (s : state) : option state :=
  match deliver body (subscribers s) (heap s) [] with
  | None => None
  | Some (h, remaining) => Some (mkState h remaining)
  end.

(** [Publish(idx, message)] and [Broadcast(message)]; [None] is a panic.
    The mutex makes each call atomic. *)
Definition Publish (i : Z) (message : K) (s : state) : option state :=
  run_loop (publish_sub i message) s.

Definition Broadcast (message : K) (s : state) : option state :=
  run_loop (broadcast_sub message) s.

(** ** The function returned by [Subscribe] *)

(** A call of [NextFn] blocks, or returns [(msg, true)] ([Some msg]) or
    [(zero, false)] ([None]); receiving changes the subscriber's channel. *)
Inductive next_result :=
| NextBlocks
| NextReturns (v : option K) (sub' : subscriber).

(** When both cases of the outer [select] are ready Go picks one of them at
    random: [pick_done] says that it picks [<-subCtx.Done()]. *)
Definition next_sub (pick_done : bool) (sub : subscriber) : next_result :=
  let received v c' := NextReturns (Some v) (mkSub (idx sub) c' (ctx_done sub)) in
  match chan_recv (ch sub), ctx_done sub with
  | RecvNotReady, false => NextBlocks
  | RecvValue v c', false => received v c'          (* case msg, ok := <-ch *)
  | RecvClosed, false => NextReturns None sub       (* ... with !ok *)
  | RecvNotReady, true => NextReturns None sub      (* Done, inner default *)
  | RecvValue v c', true =>
      if pick_done
      then received v c'                            (* Done, inner <-ch, ok *)
      else received v c'                            (* case msg, ok := <-ch *)
  | RecvClosed, true =>
      if pick_done
      then NextReturns None sub                     (* Done, inner <-ch, !ok *)
      else NextReturns None sub                     (* case <-ch with !ok *)
  end.

(** [NextFn] of the subscriber at address [a], on the shared heap. *)
Definition NextFn (a : nat) (pick_done : bool) (s : state)
  : option (option K * state) :=
  match heap s !! a with
  | None => None
  | Some sub =>
      match next_sub pick_done sub with
      | NextBlocks => None
      | NextReturns v sub' =>
          Some (v, mkState (<[a := sub']> (heap s)) (subscribers s))
      end
  end.

(** Calling [NextFn] [n] times in a row: the values returned before the
    first terminal signal or the first call that blocks, and how the run
    ended. *)
Inductive run_end := EndsTerminal | EndsBlocked | EndsUnfinished.

Fixpoint next_run (picks : nat -> bool) (n : nat) (sub : subscriber)
  : list K * run_end * subscriber :=
  match n with
  | O => ([], EndsUnfinished, sub)
  | S n' =>
      match next_sub (picks n') sub with
      | NextBlocks => ([], EndsBlocked, sub)
      | NextReturns None sub' => ([], EndsTerminal, sub')
      | NextReturns (Some v) sub' =>
          let '(vs, e, sub'') := next_run picks n' sub' in (v :: vs, e, sub'')
      end
  end.

(** [n] calls [Publish(start, m start)], [Publish(start+1, m (start+1))],
    ... in a row, nothing else happening in between. *)
Fixpoint publish_from (m : nat -> K) (start n : nat) (s : state) : option state :=
  match n with
  | O => Some s
  | S n' =>
      match Publish (Z.of_nat start) (m start) s with
      | None => None
      | Some s' => publish_from m (S start) n' s'
      end
  end.

(** ** Reachable states and the invariant *)

(** The states the bus and its subscribers can be in: from [New], by the
    three operations of the bus, by a subscriber's [NextFn] and by the end
    of a subscriber's context. *)
Inductive reachable : state -> Prop :=
| reach_New : reachable New
| reach_Subscribe s parent_done i :
    reachable s -> reachable (fst (Subscribe parent_done i s))
| reach_Publish s i message s' :
    reachable s -> Publish i message s = Some s' -> reachable s'
| reach_Broadcast s message s' :
    reachable s -> Broadcast message s = Some s' -> reachable s'
| reach_NextFn s a pick v s' :
    reachable s -> NextFn a pick s = Some (v, s') -> reachable s'
| reach_cancel s a :
    reachable s -> reachable (cancel_ctx a s).

(** Every subscriber of the bus is allocated, is listed once and has an
    open channel; no mailbox exceeds its capacity; a closed mailbox belongs
    to a cancelled subscriber. *)
Record bus_inv (s : state) : Prop := mkInv {
  inv_nodup : NoDup (subscribers s);
  inv_open : forall a, a ∈ subscribers s ->
             exists sub, heap s !! a = Some sub /\ closed (ch sub) = false;
  inv_cap : forall a sub, heap s !! a = Some sub ->
            length (buf (ch sub)) <= chanCap;
  inv_closed : forall a sub, heap s !! a = Some sub ->
               closed (ch sub) = true -> ctx_done sub = true
}.

(** ** The loop, one subscriber at a time *)

(** Whether the loop body keeps the subscriber at address [a]. *)
Definition kept (body : subscriber -> option (subscriber * bool))
    (h : list subscriber) (a : nat) : bool :=
  match h !! a with
  | Some sub => match body sub with Some (_, keep) => keep | None => false end
  | None => false
  end.

Lemma kept_insert_ne body (h : list subscriber) (a b : nat) (x : subscriber) :
  a <> b -> kept body (<[a := x]> h) b = kept body h b.
Proof.
  intros Hab. unfold kept. rewrite list_lookup_insert_ne by exact Hab. reflexivity.
Qed.

(** The loop never fails when its body does not, and then it acts on each
    listed subscriber by the body, on no other subscriber, and keeps the
    addresses the body keeps, in their order. *)
Lemma deliver_spec body (subs : list nat) :
  forall (h : list subscriber) (remaining : list nat),
  NoDup subs ->
  (forall a, a ∈ subs -> exists sub r, h !! a = Some sub /\ body sub = Some r) ->
  exists h',
    deliver body subs h remaining
      = Some (h', remaining ++ List.filter (kept body h) subs) /\
    length h' = length h /\
    (forall b, b ∉ subs -> h' !! b = h !! b) /\
    (forall a sub, a ∈ subs -> h !! a = Some sub ->
       exists sub' keep, body sub = Some (sub', keep) /\ h' !! a = Some sub').
Proof.
  induction subs as [|a rest IH]; intros h remaining Hnd Hok.
  - exists h. simpl. rewrite app_nil_r. repeat split; try reflexivity.
    intros a sub Ha. inversion Ha.
  - apply NoDup_cons in Hnd. destruct Hnd as [Ha Hnd].
    destruct (Hok a) as (sub & [sub' keep] & Hsub & Hbody); [left|].
    assert (Hlt : a < length h) by (eapply lookup_lt_Some; exact Hsub).
    set (h1 := <[a := sub']> h).
    assert (Hrest : forall b, b ∈ rest -> h1 !! b = h !! b).
    { intros b Hb. unfold h1. apply list_lookup_insert_ne. intros ->. exact (Ha Hb). }
    destruct (IH h1 (if keep then remaining ++ [a] else remaining) Hnd)
      as (h' & Hd & Hlen & Hout & Hin).
    { intros b Hb. rewrite (Hrest b Hb). apply Hok. right. exact Hb. }
    exists h'. split; [|split; [|split]].
    + simpl. rewrite Hsub, Hbody. fold h1. rewrite Hd. f_equal. f_equal.
      assert (Hk : kept body h a = keep).
      { unfold kept. rewrite Hsub, Hbody. reflexivity. }
      rewrite Hk.
      assert (Hf : List.filter (kept body h1) rest = List.filter (kept body h) rest).
      { apply List.filter_ext_in. intros b Hb. apply kept_insert_ne.
        intros ->. apply Ha. apply list_elem_of_In. exact Hb. }
      rewrite Hf. destruct keep; [rewrite <- app_assoc|]; reflexivity.
    + rewrite Hlen. unfold h1. apply length_insert.
    + intros b Hb. rewrite Hout.
      * unfold h1. apply list_lookup_insert_ne. intros ->. apply Hb. left.
      * intros Hb'. apply Hb. right. exact Hb'.
    + intros a0 sub0 Ha0 Hsub0. apply elem_of_cons in Ha0.
      destruct Ha0 as [->|Ha0].
      * rewrite Hsub in Hsub0. injection Hsub0 as <-.
        exists sub', keep. split; [exact Hbody|].
        rewrite Hout by exact Ha. unfold h1.
        apply list_lookup_insert_eq. exact Hlt.
      * apply Hin; [exact Ha0|]. rewrite (Hrest a0 Ha0). exact Hsub0.
Qed.

(** A loop body is sound when, on a subscriber with an open channel within
    capacity, it does not panic, stays within capacity, keeps only
    subscribers with an open channel, and closes only channels of cancelled
    subscribers. *)
Definition sound_body (body : subscriber -> option (subscriber * bool)) : Prop :=
  forall sub, closed (ch sub) = false -> length (buf (ch sub)) <= chanCap ->
    exists sub' keep, body sub = Some (sub', keep) /\
      length (buf (ch sub')) <= chanCap /\
      (keep = true -> closed (ch sub') = false) /\
      (closed (ch sub') = true -> ctx_done sub' = true).

Lemma publish_sub_sound (i : Z) (message : K) : sound_body (publish_sub i message).
Proof.
  intros [si [b c] d] Hc Hcap. simpl in Hc, Hcap. subst c.
  unfold publish_sub, chan_try_send, chan_close. simpl.
  destruct d.
  - eexists _, _. split; [reflexivity|]. simpl. repeat split; auto; discriminate.
  - destruct (si <? i)%Z.
    + destruct (Nat.ltb (length b) chanCap) eqn:Hlt.
      * apply Nat.ltb_lt in Hlt.
        eexists _, _. split; [reflexivity|]. simpl. rewrite length_app. simpl.
        repeat split; try discriminate; auto; unfold chanCap in *; lia.
      * eexists _, _. split; [reflexivity|]. simpl. repeat split; auto; discriminate.
    + eexists _, _. split; [reflexivity|]. simpl. repeat split; auto; discriminate.
Qed.

Lemma broadcast_sub_sound (message : K) : sound_body (broadcast_sub message).
Proof.
  intros [si [b c] d] Hc Hcap. simpl in Hc, Hcap. subst c.
  unfold broadcast_sub, chan_try_send, chan_close. simpl.
  destruct d.
  - eexists _, _. split; [reflexivity|]. simpl. repeat split; auto; discriminate.
  - destruct (Nat.ltb (length b) chanCap) eqn:Hlt.
    + apply Nat.ltb_lt in Hlt.
      eexists _, _. split; [reflexivity|]. simpl. rewrite length_app. simpl.
      repeat split; try discriminate; auto; unfold chanCap in *; lia.
    + eexists _, _. split; [reflexivity|]. simpl. repeat split; auto; discriminate.
Qed.

(** What a run of the loop does to a state that satisfies the invariant. *)
Lemma run_loop_spec body (s : state) :
  bus_inv s -> sound_body body ->
  exists s', run_loop body s = Some s' /\
    subscribers s' = List.filter (kept body (heap s)) (subscribers s) /\
    (forall b, b ∉ subscribers s -> heap s' !! b = heap s !! b) /\
    (forall a sub, a ∈ subscribers s -> heap s !! a = Some sub ->
       exists sub' keep, body sub = Some (sub', keep) /\ heap s' !! a = Some sub').
Proof.
  intros Hinv Hbody.
  destruct (deliver_spec body (subscribers s) (heap s) [] (inv_nodup s Hinv))
    as (h' & Hd & _ & Hout & Hin).
  { intros a Ha. destruct (inv_open s Hinv a Ha) as (sub & Hsub & Hc).
    destruct (Hbody sub Hc (inv_cap s Hinv a sub Hsub)) as (sub' & keep & Hb & _).
    exists sub, (sub', keep). split; assumption. }
  exists (mkState h' (List.filter (kept body (heap s)) (subscribers s))).
  unfold run_loop. rewrite Hd. simpl. repeat split; assumption.
Qed.

(** Where a subscriber found after a run of the loop comes from. *)
Lemma run_loop_heap body (s s' : state) (a : nat) (x : subscriber) :
  bus_inv s -> sound_body body -> run_loop body s = Some s' ->
  heap s' !! a = Some x ->
  ((a ∉ subscribers s) /\ heap s !! a = Some x) \/
  ((a ∈ subscribers s) /\
   exists sub keep, heap s !! a = Some sub /\ closed (ch sub) = false /\
     length (buf (ch sub)) <= chanCap /\ body sub = Some (x, keep) /\
     kept body (heap s) a = keep).
Proof.
  intros Hinv Hbody Hrun Hx.
  destruct (run_loop_spec body s Hinv Hbody) as (s'' & Hrun' & _ & Hout & Hin).
  rewrite Hrun in Hrun'. injection Hrun' as <-.
  destruct (decide (a ∈ subscribers s)) as [Ha|Ha].
  - right. split; [exact Ha|].
    destruct (inv_open s Hinv a Ha) as (sub & Hsub & Hc).
    destruct (Hin a sub Ha Hsub) as (sub' & keep & Hb & Hs').
    rewrite Hx in Hs'. injection Hs' as <-.
    exists sub, keep. repeat split; try assumption.
    + exact (inv_cap s Hinv a sub Hsub).
    + unfold kept. rewrite Hsub, Hb. reflexivity.
  - left. split; [exact Ha|]. rewrite <- (Hout a Ha). exact Hx.
Qed.

Lemma run_loop_preserves body (s s' : state) :
  bus_inv s -> sound_body body -> run_loop body s = Some s' -> bus_inv s'.
Proof.
  intros Hinv Hbody Hrun.
  destruct (run_loop_spec body s Hinv Hbody) as (s'' & Hrun' & Hsubs & Hout & Hin).
  pose proof Hrun as Hrun0.
  rewrite Hrun' in Hrun. injection Hrun as ->.
  constructor.
  - rewrite Hsubs. apply NoDup_ListNoDup, List.NoDup_filter, NoDup_ListNoDup.
    exact (inv_nodup s Hinv).
  - intros a Ha. rewrite Hsubs in Ha. apply list_elem_of_In in Ha.
    apply List.filter_In in Ha. destruct Ha as [Ha Hk].
    apply list_elem_of_In in Ha.
    destruct (inv_open s Hinv a Ha) as (sub & Hsub & Hc).
    destruct (Hbody sub Hc (inv_cap s Hinv a sub Hsub))
      as (sub' & keep & Hb & _ & Hopen & _).
    destruct (Hin a sub Ha Hsub) as (sub2 & keep2 & Hb2 & Hs').
    rewrite Hb in Hb2. injection Hb2 as <- <-.
    exists sub'. split; [exact Hs'|]. apply Hopen.
    unfold kept in Hk. rewrite Hsub, Hb in Hk. exact Hk.
  - intros a x Hx.
    destruct (run_loop_heap body s s' a x Hinv Hbody Hrun0 Hx)
      as [[_ Hold]|[_ (sub & keep & Hsub & Hc & Hcap & Hb & _)]].
    + exact (inv_cap s Hinv a x Hold).
    + destruct (Hbody sub Hc Hcap) as (sub' & keep' & Hb' & Hcap' & _).
      rewrite Hb in Hb'. injection Hb' as <- <-. exact Hcap'.
  - intros a x Hx Hcl.
    destruct (run_loop_heap body s s' a x Hinv Hbody Hrun0 Hx)
      as [[_ Hold]|[_ (sub & keep & Hsub & Hc & Hcap & Hb & _)]].
    + exact (inv_closed s Hinv a x Hold Hcl).
    + destruct (Hbody sub Hc Hcap) as (sub' & keep' & Hb' & _ & _ & Hdone).
      rewrite Hb in Hb'. injection Hb' as <- <-. exact (Hdone Hcl).
Qed.

Lemma New_inv : bus_inv New.
Proof.
  constructor; simpl.
  - constructor.
  - intros a Ha. inversion Ha.
  - intros a sub Ha. rewrite lookup_nil in Ha. discriminate.
  - intros a sub Ha. rewrite lookup_nil in Ha. discriminate.
Qed.

Lemma Subscribe_preserves (parent_done : bool) (i : Z) (s : state) :
  bus_inv s -> bus_inv (fst (Subscribe parent_done i s)).
Proof.
  intros Hinv. unfold Subscribe. simpl.
  set (sub := mkSub i (mkChan [] false) parent_done).
  assert (Hnew : forall a x, (heap s ++ [sub]) !! a = Some x ->
                             heap s !! a = Some x \/ x = sub).
  { intros a x Hx. apply lookup_app_Some in Hx. destruct Hx as [Hx|[_ Hx]].
    - left. exact Hx.
    - right. apply list_elem_of_lookup_2 in Hx. apply list_elem_of_singleton in Hx.
      exact Hx. }
  constructor; simpl.
  - apply NoDup_app. split; [exact (inv_nodup s Hinv)|]. split.
    + intros a Ha Hin. apply list_elem_of_singleton in Hin. subst a.
      destruct (inv_open s Hinv _ Ha) as (x & Hx & _).
      apply lookup_lt_Some in Hx. lia.
    + apply NoDup_singleton.
  - intros a Ha. apply elem_of_app in Ha. destruct Ha as [Ha|Ha].
    + destruct (inv_open s Hinv a Ha) as (x & Hx & Hc).
      exists x. split; [|exact Hc]. apply lookup_app_l_Some. exact Hx.
    + apply list_elem_of_singleton in Ha. subst a.
      exists sub. split; [|reflexivity]. apply list_lookup_middle. reflexivity.
  - intros a x Hx. destruct (Hnew a x Hx) as [Hold| ->].
    + exact (inv_cap s Hinv a x Hold).
    + simpl. unfold chanCap. lia.
  - intros a x Hx Hc. destruct (Hnew a x Hx) as [Hold| ->].
    + exact (inv_closed s Hinv a x Hold Hc).
    + discriminate.
Qed.

(** Replacing a subscriber by one with the same channel state, or with
    fewer buffered values, and no less cancelled, keeps the invariant. *)
Lemma update_preserves (s : state) (a : nat) (sub sub' : subscriber) :
  bus_inv s -> heap s !! a = Some sub ->
  closed (ch sub') = closed (ch sub) ->
  length (buf (ch sub')) <= length (buf (ch sub)) ->
  (ctx_done sub = true -> ctx_done sub' = true) ->
  bus_inv (mkState (<[a := sub']> (heap s)) (subscribers s)).
Proof.
  intros Hinv Hsub Hc Hlen Hd.
  assert (Hlook : forall b x, <[a := sub']> (heap s) !! b = Some x ->
            (b = a /\ x = sub') \/ (heap s !! b = Some x)).
  { intros b x Hx. apply list_lookup_insert_Some in Hx.
    destruct Hx as [(-> & -> & _)|[_ Hx]]; [left; split; reflexivity|right; exact Hx]. }
  constructor; simpl.
  - exact (inv_nodup s Hinv).
  - intros b Hb. destruct (inv_open s Hinv b Hb) as (x & Hx & Hxc).
    destruct (decide (a = b)) as [->|Hab].
    + rewrite Hsub in Hx. injection Hx as <-.
      exists sub'. split; [|congruence].
      apply list_lookup_insert_eq. eapply lookup_lt_Some. exact Hsub.
    + exists x. split; [|exact Hxc]. rewrite list_lookup_insert_ne by exact Hab. exact Hx.
  - intros b x Hx. destruct (Hlook b x Hx) as [[-> ->]|Hold].
    + pose proof (inv_cap s Hinv a sub Hsub). lia.
    + exact (inv_cap s Hinv b x Hold).
  - intros b x Hx Hxc. destruct (Hlook b x Hx) as [[-> ->]|Hold].
    + apply Hd. apply (inv_closed s Hinv a sub Hsub). congruence.
    + exact (inv_closed s Hinv b x Hold Hxc).
Qed.

(** [NextFn] changes nothing of a subscriber but the buffer of its
    channel, which it shortens by the value it returns. *)
Lemma next_sub_returns (pick : bool) (sub sub' : subscriber) (v : option K) :
  next_sub pick sub = NextReturns v sub' ->
  idx sub' = idx sub /\ ctx_done sub' = ctx_done sub /\
  closed (ch sub') = closed (ch sub) /\
  match v with
  | Some m => buf (ch sub) = m :: buf (ch sub')
  | None => buf (ch sub) = [] /\ sub' = sub
  end.
Proof.
  destruct sub as [si [b c] d]. unfold next_sub, chan_recv. simpl.
  destruct b as [|m rest]; destruct c, d, pick; simpl;
    intros H; try discriminate; injection H as <- <-; simpl; repeat split.
Qed.

Lemma NextFn_preserves (s s' : state) (a : nat) (pick : bool) (v : option K) :
  bus_inv s -> NextFn a pick s = Some (v, s') -> bus_inv s'.
Proof.
  intros Hinv. unfold NextFn.
  destruct (heap s !! a) as [sub|] eqn:Hsub; [|discriminate].
  destruct (next_sub pick sub) as [|v' sub'] eqn:Hn; [discriminate|].
  intros H. injection H as <- <-.
  apply next_sub_returns in Hn. destruct Hn as (_ & Hd & Hc & Hb).
  apply (update_preserves s a sub sub' Hinv Hsub Hc).
  - destruct v' as [m|]; [rewrite Hb; simpl; lia|destruct Hb as [_ ->]; lia].
  - congruence.
Qed.

Lemma cancel_ctx_preserves (s : state) (a : nat) : bus_inv s -> bus_inv (cancel_ctx a s).
Proof.
  intros Hinv. unfold cancel_ctx.
  destruct (heap s !! a) as [sub|] eqn:Hsub; [|exact Hinv].
  apply (update_preserves s a sub _ Hinv Hsub); simpl; auto.
Qed.

(** Every reachable state satisfies the invariant. *)
Lemma reachable_inv (s : state) : reachable s -> bus_inv s.
Proof.
  induction 1 as [|s pd i _ IH|s i m s' _ IH Hp|s m s' _ IH Hb|s a pick v s' _ IH Hn|s a _ IH].
  - exact New_inv.
  - apply Subscribe_preserves. exact IH.
  - exact (run_loop_preserves _ s s' IH (publish_sub_sound i m) Hp).
  - exact (run_loop_preserves _ s s' IH (broadcast_sub_sound m) Hb).
  - exact (NextFn_preserves s s' a pick v IH Hn).
  - apply cancel_ctx_preserves. exact IH.
Qed.

(** ** What one iteration does, case by case *)

Lemma publish_sub_delivers (i : Z) (message : K) (sub : subscriber) :
  ctx_done sub = false -> closed (ch sub) = false ->
  (idx sub < i)%Z -> length (buf (ch sub)) < chanCap ->
  publish_sub i message sub
    = Some (mkSub i (mkChan (buf (ch sub) ++ [message]) false) false, true).
Proof.
  intros Hd Hc Hi Hlen. unfold publish_sub, chan_try_send.
  rewrite Hd, Hc. apply Z.ltb_lt in Hi. rewrite Hi.
  apply Nat.ltb_lt in Hlen. rewrite Hlen. reflexivity.
Qed.

Lemma publish_sub_retains (i : Z) (message : K) (sub : subscriber) :
  ctx_done sub = false -> (i <= idx sub)%Z ->
  publish_sub i message sub = Some (sub, true).
Proof.
  intros Hd Hi. unfold publish_sub. rewrite Hd.
  apply Z.ltb_ge in Hi. rewrite Hi. reflexivity.
Qed.

Lemma publish_sub_drops (i : Z) (message : K) (sub : subscriber) :
  closed (ch sub) = false ->
  (idx sub < i)%Z -> chanCap <= length (buf (ch sub)) ->
  publish_sub i message sub
    = Some (mkSub (idx sub) (mkChan (buf (ch sub)) true) true, false).
Proof.
  intros Hc Hi Hlen. unfold publish_sub, chan_try_send, chan_close.
  rewrite Hc. apply Z.ltb_lt in Hi. rewrite Hi.
  apply Nat.ltb_ge in Hlen. rewrite Hlen.
  destruct (ctx_done sub) eqn:Hd; reflexivity.
Qed.

(** A subscriber at or past the published index gets nothing, cancelled or
    not. *)
Lemma publish_sub_past_index (i : Z) (message : K) (sub sub' : subscriber) (keep : bool) :
  (i <= idx sub)%Z -> publish_sub i message sub = Some (sub', keep) ->
  buf (ch sub') = buf (ch sub) /\ idx sub' = idx sub.
Proof.
  intros Hi. unfold publish_sub, chan_close.
  apply Z.ltb_ge in Hi. rewrite Hi.
  destruct (ctx_done sub); [destruct (closed (ch sub)); [discriminate|]|];
    intros H; injection H as <- <-; split; reflexivity.
Qed.

Lemma broadcast_sub_delivers (message : K) (sub : subscriber) :
  ctx_done sub = false -> closed (ch sub) = false ->
  length (buf (ch sub)) < chanCap ->
  broadcast_sub message sub
    = Some (mkSub (idx sub) (mkChan (buf (ch sub) ++ [message]) false) false, true).
Proof.
  intros Hd Hc Hlen. unfold broadcast_sub, chan_try_send.
  rewrite Hd, Hc. apply Nat.ltb_lt in Hlen. rewrite Hlen. reflexivity.
Qed.

Lemma broadcast_sub_drops (message : K) (sub : subscriber) :
  closed (ch sub) = false ->
  chanCap <= length (buf (ch sub)) ->
  broadcast_sub message sub
    = Some (mkSub (idx sub) (mkChan (buf (ch sub)) true) true, false).
Proof.
  intros Hc Hlen. unfold broadcast_sub, chan_try_send, chan_close.
  rewrite Hc. apply Nat.ltb_ge in Hlen. rewrite Hlen.
  destruct (ctx_done sub) eqn:Hd; reflexivity.
Qed.

(** The fate of a listed subscriber on which the body's result is known. *)
Lemma run_loop_at body (s s' : state) (a : nat) (sub sub' : subscriber) (keep : bool) :
  bus_inv s -> sound_body body -> run_loop body s = Some s' ->
  a ∈ subscribers s -> heap s !! a = Some sub -> body sub = Some (sub', keep) ->
  heap s' !! a = Some sub' /\ (a ∈ subscribers s' <-> keep = true).
Proof.
  intros Hinv Hbody Hrun Ha Hsub Hb.
  destruct (run_loop_spec body s Hinv Hbody) as (s'' & Hrun' & Hsubs & _ & Hin).
  rewrite Hrun in Hrun'. injection Hrun' as <-.
  destruct (Hin a sub Ha Hsub) as (sub2 & keep2 & Hb2 & Hs').
  rewrite Hb in Hb2. injection Hb2 as <- <-.
  split; [exact Hs'|].
  rewrite Hsubs, list_elem_of_In, List.filter_In, <- list_elem_of_In.
  unfold kept. rewrite Hsub, Hb. tauto.
Qed.

Lemma Publish_total (s : state) (i : Z) (message : K) :
  bus_inv s -> exists s', Publish i message s = Some s' /\ bus_inv s'.
Proof.
  intros Hinv.
  destruct (run_loop_spec _ s Hinv (publish_sub_sound i message)) as (s' & Hrun & _).
  exists s'. split; [exact Hrun|].
  exact (run_loop_preserves _ s s' Hinv (publish_sub_sound i message) Hrun).
Qed.

Lemma Broadcast_total (s : state) (message : K) :
  bus_inv s -> exists s', Broadcast message s = Some s' /\ bus_inv s'.
Proof.
  intros Hinv.
  destruct (run_loop_spec _ s Hinv (broadcast_sub_sound message)) as (s' & Hrun & _).
  exists s'. split; [exact Hrun|].
  exact (run_loop_preserves _ s s' Hinv (broadcast_sub_sound message) Hrun).
Qed.

(** A listed subscriber has an open channel. *)
Lemma listed_open (s : state) (a : nat) (sub : subscriber) :
  bus_inv s -> a ∈ subscribers s -> heap s !! a = Some sub -> closed (ch sub) = false.
Proof.
  intros Hinv Ha Hsub. destruct (inv_open s Hinv a Ha) as (x & Hx & Hc).
  rewrite Hsub in Hx. injection Hx as <-. exact Hc.
Qed.

(** [Publish] on a state that satisfies the invariant. *)
Lemma Publish_inv_spec (s : state) (i : Z) (message : K) :
  bus_inv s ->
  exists s', Publish i message s = Some s' /\ bus_inv s' /\
    (forall a sub, a ∈ subscribers s -> heap s !! a = Some sub ->
       ctx_done sub = false -> (idx sub < i)%Z -> length (buf (ch sub)) < chanCap ->
       (a ∈ subscribers s') /\
       heap s' !! a = Some (mkSub i (mkChan (buf (ch sub) ++ [message]) false) false)) /\
    (forall a sub, a ∈ subscribers s -> heap s !! a = Some sub ->
       ctx_done sub = false -> (i <= idx sub)%Z ->
       (a ∈ subscribers s') /\ heap s' !! a = Some sub) /\
    (forall a sub, a ∈ subscribers s -> heap s !! a = Some sub ->
       (idx sub < i)%Z -> chanCap <= length (buf (ch sub)) ->
       (a ∉ subscribers s') /\
       heap s' !! a = Some (mkSub (idx sub) (mkChan (buf (ch sub)) true) true)) /\
    (forall a sub, heap s !! a = Some sub -> (i <= idx sub)%Z ->
       exists sub', heap s' !! a = Some sub' /\
         buf (ch sub') = buf (ch sub) /\ idx sub' = idx sub).
Proof.
  intros Hinv. destruct (Publish_total s i message Hinv) as (s' & Hrun & Hinv').
  exists s'. split; [exact Hrun|]. split; [exact Hinv'|].
  pose proof (fun a sub sub' keep =>
    run_loop_at (publish_sub i message) s s' a sub sub' keep
      Hinv (publish_sub_sound i message) Hrun) as Hat.
  split; [|split; [|split]].
  - intros a sub Ha Hsub Hd Hi Hlen.
    destruct (Hat a sub _ _ Ha Hsub
                (publish_sub_delivers i message sub Hd (listed_open s a sub Hinv Ha Hsub) Hi Hlen))
      as [Hs' Hk].
    split; [apply Hk; reflexivity|exact Hs'].
  - intros a sub Ha Hsub Hd Hi.
    destruct (Hat a sub _ _ Ha Hsub (publish_sub_retains i message sub Hd Hi)) as [Hs' Hk].
    split; [apply Hk; reflexivity|exact Hs'].
  - intros a sub Ha Hsub Hi Hlen.
    destruct (Hat a sub _ _ Ha Hsub
                (publish_sub_drops i message sub (listed_open s a sub Hinv Ha Hsub) Hi Hlen))
      as [Hs' Hk].
    split; [intros Hin; apply Hk in Hin; discriminate|exact Hs'].
  - intros a sub Hsub Hi.
    destruct (run_loop_spec _ s Hinv (publish_sub_sound i message))
      as (s'' & Hrun' & _ & Hout & Hin).
    unfold Publish in Hrun. rewrite Hrun in Hrun'. injection Hrun' as <-.
    destruct (decide (a ∈ subscribers s)) as [Ha|Ha].
    + destruct (Hin a sub Ha Hsub) as (sub' & keep & Hb & Hs').
      exists sub'. split; [exact Hs'|].
      exact (publish_sub_past_index i message sub sub' keep Hi Hb).
    + exists sub. rewrite (Hout a Ha). repeat split. exact Hsub.
Qed.

(** [Broadcast] on a state that satisfies the invariant. *)
Lemma Broadcast_inv_spec (s : state) (message : K) :
  bus_inv s ->
  exists s', Broadcast message s = Some s' /\ bus_inv s' /\
    (forall a sub, a ∈ subscribers s -> heap s !! a = Some sub ->
       ctx_done sub = false -> length (buf (ch sub)) < chanCap ->
       (a ∈ subscribers s') /\
       heap s' !! a
         = Some (mkSub (idx sub) (mkChan (buf (ch sub) ++ [message]) false) false)) /\
    (forall a sub, a ∈ subscribers s -> heap s !! a = Some sub ->
       chanCap <= length (buf (ch sub)) ->
       (a ∉ subscribers s') /\
       heap s' !! a = Some (mkSub (idx sub) (mkChan (buf (ch sub)) true) true)).
Proof.
  intros Hinv. destruct (Broadcast_total s message Hinv) as (s' & Hrun & Hinv').
  exists s'. split; [exact Hrun|]. split; [exact Hinv'|].
  pose proof (fun a sub sub' keep =>
    run_loop_at (broadcast_sub message) s s' a sub sub' keep
      Hinv (broadcast_sub_sound message) Hrun) as Hat.
  split.
  - intros a sub Ha Hsub Hd Hlen.
    destruct (Hat a sub _ _ Ha Hsub
                (broadcast_sub_delivers message sub Hd (listed_open s a sub Hinv Ha Hsub) Hlen))
      as [Hs' Hk].
    split; [apply Hk; reflexivity|exact Hs'].
  - intros a sub Ha Hsub Hlen.
    destruct (Hat a sub _ _ Ha Hsub
                (broadcast_sub_drops message sub (listed_open s a sub Hinv Ha Hsub) Hlen))
      as [Hs' Hk].
    split; [intros Hin; apply Hk in Hin; discriminate|exact Hs'].
Qed.

(** A live subscriber that consumes nothing collects the published values
    while its mailbox has room. *)
Lemma publish_from_fills (m : nat -> K) (n : nat) :
  forall (start : nat) (s : state) (a : nat) (held : list K),
  bus_inv s -> a ∈ subscribers s ->
  heap s !! a = Some (mkSub (Z.of_nat start - 1) (mkChan held false) false) ->
  length held + n <= chanCap ->
  exists s', publish_from m start n s = Some s' /\ bus_inv s' /\
    (a ∈ subscribers s') /\
    heap s' !! a
      = Some (mkSub (Z.of_nat (start + n) - 1)
                    (mkChan (held ++ List.map m (seq start n)) false) false).
Proof.
  induction n as [|n IH]; intros start s a held Hinv Ha Hsub Hlen.
  - exists s. simpl. rewrite Nat.add_0_r, app_nil_r.
    split; [reflexivity|]. split; [exact Hinv|]. split; [exact Ha|exact Hsub].
  - destruct (Publish_inv_spec s (Z.of_nat start) (m start) Hinv)
      as (s1 & Hp & Hinv1 & Hdel & _).
    destruct (Hdel a _ Ha Hsub eq_refl) as [Ha1 Hs1]; simpl; [lia|lia|].
    simpl in Hs1.
    destruct (IH (S start) s1 a (held ++ [m start]) Hinv1 Ha1) as (s' & Hrun & Hinv' & Ha' & Hs').
    + rewrite Hs1. do 2 f_equal. lia.
    + rewrite length_app. simpl. lia.
    + exists s'. simpl. rewrite Hp. split; [exact Hrun|]. split; [exact Hinv'|].
      split; [exact Ha'|]. rewrite Hs'. rewrite <- app_assoc. simpl.
      do 2 f_equal. lia.
Qed.

(** ** [NextFn] after cancellation *)

Lemma next_sub_cancelled (pick : bool) (sub : subscriber) :
  ctx_done sub = true ->
  next_sub pick sub =
  match buf (ch sub) with
  | v :: rest => NextReturns (Some v) (mkSub (idx sub) (mkChan rest (closed (ch sub))) true)
  | [] => NextReturns None sub
  end.
Proof.
  destruct sub as [si [b c] d]. simpl. intros ->.
  unfold next_sub, chan_recv. simpl.
  destruct b, c, pick; reflexivity.
Qed.

Lemma next_run_cancelled (picks : nat -> bool) (n : nat) :
  forall sub : subscriber,
  ctx_done sub = true -> length (buf (ch sub)) < n ->
  next_run picks n sub
    = (buf (ch sub), EndsTerminal, mkSub (idx sub) (mkChan [] (closed (ch sub))) true).
Proof.
  induction n as [|n IH]; intros sub Hd Hlen; [lia|].
  simpl. rewrite (next_sub_cancelled _ sub Hd).
  destruct sub as [si [b c] d]. simpl in *. subst d.
  destruct b as [|v rest]; [reflexivity|].
  rewrite IH; simpl in *; [reflexivity|reflexivity|lia].
Qed.

(** ** The contract of the bus *)


(** C2: in every reachable state no mailbox holds more than 10 values;
    [Publish] and [Broadcast] complete (they neither block nor panic); a
    subscriber on whose full mailbox the call would block is removed, its
    channel closed and its cancel token fired, while every other live
    subscriber the call delivers to, with room in its mailbox, gets the
    value; and a subscriber that joins at index -1 and consumes nothing is
    still subscribed after the publishes of indices 0..9 and is dropped by
    the eleventh publish, of index 10. *)
Theorem slow_subscriber_is_dropped (s : state) (m : nat -> K) :
  reachable s ->
  (forall a sub, heap s !! a = Some sub -> length (buf (ch sub)) <= 10) /\
  (forall i message, exists s', Publish i message s = Some s' /\ reachable s' /\
     (forall a sub, a ∈ subscribers s -> heap s !! a = Some sub ->
        (idx sub < i)%Z -> length (buf (ch sub)) = 10 ->
        (a ∉ subscribers s') /\
        heap s' !! a = Some (mkSub (idx sub) (mkChan (buf (ch sub)) true) true)) /\
     (forall b sub, b ∈ subscribers s -> heap s !! b = Some sub ->
        ctx_done sub = false -> (idx sub < i)%Z -> length (buf (ch sub)) < 10 ->
        (b ∈ subscribers s') /\
        heap s' !! b = Some (mkSub i (mkChan (buf (ch sub) ++ [message]) false) false))) /\
  (forall message, exists s', Broadcast message s = Some s' /\ reachable s' /\
     (forall a sub, a ∈ subscribers s -> heap s !! a = Some sub ->
        length (buf (ch sub)) = 10 ->
        (a ∉ subscribers s') /\
        heap s' !! a = Some (mkSub (idx sub) (mkChan (buf (ch sub)) true) true)) /\
     (forall b sub, b ∈ subscribers s -> heap s !! b = Some sub ->
        ctx_done sub = false -> length (buf (ch sub)) < 10 ->
        (b ∈ subscribers s') /\
        heap s' !! b
          = Some (mkSub (idx sub) (mkChan (buf (ch sub) ++ [message]) false) false))) /\
  (exists s10 s11,
     publish_from m 0 10 (fst (Subscribe false (-1) s)) = Some s10 /\
     (snd (Subscribe false (-1) s) ∈ subscribers s10) /\
     Publish 10 (m 10) s10 = Some s11 /\
     (snd (Subscribe false (-1) s) ∉ subscribers s11) /\
     heap s11 !! snd (Subscribe false (-1) s)
       = Some (mkSub 9 (mkChan (List.map m (seq 0 10)) true) true)).
Proof.
  intros Hreach. pose proof (reachable_inv s Hreach) as Hinv.
  split; [|split; [|split]].
  - intros a sub Hsub. exact (inv_cap s Hinv a sub Hsub).
  - intros i message.
    destruct (Publish_inv_spec s i message Hinv) as (s' & Hp & _ & Hdel & _ & Hdrop & _).
    exists s'. split; [exact Hp|]. split; [exact (reach_Publish s i message s' Hreach Hp)|].
    split.
    + intros a sub Ha Hsub Hi Hfull. apply (Hdrop a sub Ha Hsub Hi).
      unfold chanCap. lia.
    + intros b sub Hb Hsub Hd Hi Hroom. exact (Hdel b sub Hb Hsub Hd Hi Hroom).
  - intros message.
    destruct (Broadcast_inv_spec s message Hinv) as (s' & Hp & _ & Hdel & Hdrop).
    exists s'. split; [exact Hp|]. split; [exact (reach_Broadcast s message s' Hreach Hp)|].
    split.
    + intros a sub Ha Hsub Hfull. apply (Hdrop a sub Ha Hsub).
      unfold chanCap. lia.
    + intros b sub Hb Hsub Hd Hroom. exact (Hdel b sub Hb Hsub Hd Hroom).
  - pose proof (Subscribe_preserves false (-1) s Hinv) as Hinv0.
    set (s0 := fst (Subscribe false (-1) s)) in *.
    set (a := snd (Subscribe false (-1) s)).
    assert (Ha0 : a ∈ subscribers s0).
    { unfold s0, a, Subscribe. simpl. apply elem_of_app. right. left. }
    assert (Hs0 : heap s0 !! a = Some (mkSub (Z.of_nat 0 - 1) (mkChan [] false) false)).
    { unfold s0, a, Subscribe. simpl. apply list_lookup_middle. reflexivity. }
    destruct (publish_from_fills m 10 0 s0 a [] Hinv0 Ha0 Hs0)
      as (s10 & Hrun & Hinv10 & Ha10 & Hs10).
    { simpl. unfold chanCap. lia. }
    destruct (Publish_inv_spec s10 10 (m 10) Hinv10) as (s11 & Hp & _ & _ & _ & Hdrop & _).
    destruct (Hdrop a _ Ha10 Hs10) as [Ha11 Hs11].
    { simpl. lia. }
    { simpl. unfold chanCap. lia. }
    exists s10, s11. split; [exact Hrun|]. split; [exact Ha10|].
    split; [exact Hp|]. split; [exact Ha11|]. exact Hs11.
Qed.

(** C3: once a subscriber's cancel token has fired, a call of its
    [NextFn] never blocks: it returns the oldest value still in the mailbox
    and removes only that value, whichever case the [select] picks, and it
    reports the terminal signal only when the mailbox is empty. So repeated
    calls return every value that was enqueued, in FIFO order, and then the
    terminal signal. *)
Theorem NextFn_drains_before_terminal (sub : subscriber) (picks : nat -> bool) :
  ctx_done sub = true ->
  (forall pick,
     next_sub pick sub =
     match buf (ch sub) with
     | v :: rest =>
         NextReturns (Some v) (mkSub (idx sub) (mkChan rest (closed (ch sub))) true)
     | [] => NextReturns None sub
     end) /\
  (forall n, length (buf (ch sub)) < n ->
     next_run picks n sub
       = (buf (ch sub), EndsTerminal,
          mkSub (idx sub) (mkChan [] (closed (ch sub))) true)) /\
  (forall (s : state) (a : nat) (pick : bool), heap s !! a = Some sub ->
     exists s', NextFn a pick s = Some (head (buf (ch sub)), s') /\
                subscribers s' = subscribers s).
Proof.
  intros Hd. split; [|split].
  - intros pick. exact (next_sub_cancelled pick sub Hd).
  - intros n Hn. exact (next_run_cancelled picks n sub Hd Hn).
  - intros s a pick Hsub. unfold NextFn. rewrite Hsub.
    rewrite (next_sub_cancelled pick sub Hd).
    destruct (buf (ch sub)) as [|v rest]; eexists; split; reflexivity.
Qed.

End Bus.

Arguments chan : clear implicits.
Arguments subscriber : clear implicits.
Arguments state : clear implicits.
Arguments send_result : clear implicits.
Arguments recv_result : clear implicits.
Arguments next_result : clear implicits.

(** ** Concrete runs, with numbers as messages *)



(** A lone subscriber that joined at index -1. *)
Definition joined_at_minus_1 : state nat := fst (Subscribe false (-1) New).

Lemma joined_at_minus_1_reachable : reachable joined_at_minus_1.
Proof. apply (reach_Subscribe New false (-1)). apply reach_New. Qed.


Lemma slow_subscriber_is_dropped_witness :
  exists s10 s11,
    publish_from (fun k => k) 0 10 (fst (Subscribe false (-1) joined_at_minus_1)) = Some s10 /\
    (1 ∈ subscribers s10) /\
    Publish 10 10 s10 = Some s11 /\
    (1 ∉ subscribers s11) /\
    heap s11 !! 1 = Some (mkSub 9 (mkChan [0; 1; 2; 3; 4; 5; 6; 7; 8; 9] true) true).
Proof.
  exact (proj2 (proj2 (proj2
           (slow_subscriber_is_dropped joined_at_minus_1 (fun k => k)
              joined_at_minus_1_reachable)))).
Defined.

Lemma NextFn_drains_before_terminal_witness :
  next_run (fun _ => true) 3 (mkSub 9 (mkChan [4; 5] true) true)
    = ([4; 5], EndsTerminal, mkSub 9 (mkChan [] true) true).
Proof.
  apply (proj1 (proj2 (NextFn_drains_before_terminal
                         (mkSub 9 (mkChan [4; 5] true) true) (fun _ => true) eq_refl))).
  simpl. lia.
Defined.

(** The scenario "bus behind-drops": a slow subscriber (address 0) and a
    fast one (address 1) join at index -1; indices 0..10 are published, the
    fast subscriber taking each value as it comes. *)
Fixpoint publish_while_fast_consumes (fast start n : nat) (s : state nat)
    (got : list nat) : option (state nat * list nat) :=
  match n with
  | O => Some (s, got)
  | S n' =>
      match Publish (Z.of_nat start) start s with
      | None => None
      | Some s1 =>
          match NextFn fast false s1 with
          | Some (Some v, s2) =>
              publish_while_fast_consumes fast (S start) n' s2 (got ++ [v])
          | _ => None
          end
      end
  end.

Example behind_drops_scenario :
  publish_while_fast_consumes 1 0 11
    (fst (Subscribe false (-1) joined_at_minus_1)) []
  = Some (mkState [mkSub 9 (mkChan [0; 1; 2; 3; 4; 5; 6; 7; 8; 9] true) true;
                   mkSub 10 (mkChan [] false) false] [1],
          [0; 1; 2; 3; 4; 5; 6; 7; 8; 9; 10]).
Proof. reflexivity. Qed.

(** The dropped subscriber still reads its ten values, then the terminal
    signal. *)
Example dropped_subscriber_drains :
  next_run (fun _ => false) 11
    (mkSub 9 (mkChan [0; 1; 2; 3; 4; 5; 6; 7; 8; 9] true) true)
  = ([0; 1; 2; 3; 4; 5; 6; 7; 8; 9], EndsTerminal, mkSub 9 (mkChan [] true) true).
Proof. reflexivity. Qed.

End SubPub.

(* ===================================================================== *)
(** * Go strings as rune sequences                                        *)
(* ===================================================================== *)

Module GoStr.

(** A rune is a Unicode code point. [strings.ToLower], [strings.TrimSpace],
    [strings.Trim] and [regexp] all read a string rune by rune (a byte that
    is not valid UTF-8 reads as U+FFFD), so a Go string is modelled by the
    list of runes it decodes to. On the ASCII strings the slug package
    produces, runes and bytes coincide, and so do [len] and [length]. *)
Abbreviation rune := N (only parsing).
Abbreviation gostring := (list N) (only parsing).

(** An ASCII literal as a Go string. *)
Definition go (s : string) : gostring :=
  List.map N_of_ascii (list_ascii_of_string s).

Fixpoint eqb (s t : gostring) : bool :=
  match s, t with
  | [], [] => true
  | a :: s', b :: t' => N.eqb a b && eqb s' t'
  | _, _ => false
  end.

Fixpoint HasPrefix (s prefix : gostring) : bool :=
  match prefix, s with
  | [], _ => true
  | p :: prefix', a :: s' => N.eqb a p && HasPrefix s' prefix'
  | _ :: _, [] => false
  end.

(** [strings.Contains(s, substr)] *)
Fixpoint Contains (s substr : gostring) : bool :=
  HasPrefix s substr ||
  match s with
  | [] => false
  | _ :: s' => Contains s' substr
  end.

(** [strings.Split(s, sep)] for a separator of one rune. *)
Fixpoint Split (s : gostring) (sep : rune) : list gostring :=
  match s with
  | [] => [[]]
  | r :: rest =>
      if N.eqb r sep then [] :: Split rest sep
      else match Split rest sep with
           | cur :: more => (r :: cur) :: more
           | [] => [[r]]
           end
  end.

(** [strings.TrimLeftFunc], [strings.TrimRightFunc], [strings.TrimFunc]. *)
Fixpoint TrimLeftFunc (s : gostring) (f : rune -> bool) : gostring :=
  match s with
  | [] => []
  | r :: rest => if f r then TrimLeftFunc rest f else s
  end.

Fixpoint TrimRightFunc (s : gostring) (f : rune -> bool) : gostring :=
  match s with
  | [] => []
  | r :: rest =>
      match TrimRightFunc rest f with
      | [] => if f r then [] else [r]
      | t => r :: t
      end
  end.

Definition TrimFunc (s : gostring) (f : rune -> bool) : gostring :=
  TrimRightFunc (TrimLeftFunc s f) f.

(** [strings.Trim(s, cutset)]: the cutset is a set of runes. *)
Definition Trim (s cutset : gostring) : gostring :=
  TrimFunc s (fun r => existsb (N.eqb r) cutset).

(** [regexp.MustCompile("[class]+").ReplaceAllString(s, repl)] for a
    pattern that is one character class repeated: every maximal run of
    runes of the class is replaced by [repl]. [in_run] says that the rune
    before belonged to the class. *)
Fixpoint replaceRunsFrom (class : rune -> bool) (repl : gostring)
    (in_run : bool) (s : gostring) : gostring :=
  match s with
  | [] => []
  | r :: rest =>
      if class r
      then (if in_run then [] else repl) ++ replaceRunsFrom class repl true rest
      else r :: replaceRunsFrom class repl false rest
  end.

Definition ReplaceAllRuns (class : rune -> bool) (s repl : gostring) : gostring :=
  replaceRunsFrom class repl false s.

(** No two runes of [class] next to each other. *)
Fixpoint noAdjacent (class : rune -> bool) (s : gostring) : bool :=
  match s with
  | [] => true
  | a :: rest =>
      negb (class a && match rest with b :: _ => class b | [] => false end)
      && noAdjacent class rest
  end.

(** [fmt.Sprintf("%d", n)] for [n >= 0]. *)
Definition itoa (n : nat) : gostring :=
  go (NilEmpty.string_of_uint (Nat.to_uint n)).

Section Unicode.

(** The tables of package [unicode], which are not part of the sources:
    [unicode.ToLower] on the runes from U+0080 on and [unicode.IsSpace] on
    the runes above U+00FF. Below, Go decides by comparisons, as here. *)
Variable unicode_ToLower : rune -> rune.
Variable unicode_IsSpace : rune -> bool.

(** [unicode.ToLower(r)] *)
Definition toLowerRune (r : rune) : rune :=
  if (r <? 128)%N then
    if (65 <=? r)%N && (r <=? 90)%N then (r + 32)%N else r
  else unicode_ToLower r.

(** [strings.ToLower(s)] *)
Definition ToLower (s : gostring) : gostring := List.map toLowerRune s.

(** [unicode.IsSpace(r)]: in Latin-1 the white space is
    '\t', '\n', '\v', '\f', '\r', ' ', U+0085 (NEL) and U+00A0 (NBSP). *)
Definition IsSpace (r : rune) : bool :=
  if (r <=? 255)%N then
    ((9 <=? r)%N && (r <=? 13)%N) || N.eqb r 32 || N.eqb r 133 || N.eqb r 160
  else unicode_IsSpace r.

(** [strings.TrimSpace(s)] *)
Definition TrimSpace (s : gostring) : gostring := TrimFunc s IsSpace.

End Unicode.

(** ** Trimming *)

Lemma TrimLeftFunc_suffix (s : gostring) (f : rune -> bool) :
  exists p, s = p ++ TrimLeftFunc s f /\ forallb f p = true.
Proof.
  induction s as [|r rest IH]; simpl.
  - exists []. split; reflexivity.
  - destruct (f r) eqn:Hr.
    + destruct IH as (p & Hp & Hf). exists (r :: p). simpl. rewrite Hr, Hf.
      split; [f_equal; exact Hp|reflexivity].
    + exists []. split; reflexivity.
Qed.

Lemma TrimRightFunc_prefix (s : gostring) (f : rune -> bool) :
  exists q, s = TrimRightFunc s f ++ q /\ forallb f q = true.
Proof.
  induction s as [|r rest IH]; simpl.
  - exists []. split; reflexivity.
  - destruct IH as (q & Hq & Hf).
    destruct (TrimRightFunc rest f) as [|x t] eqn:Ht.
    + simpl in Hq. subst q. destruct (f r) eqn:Hr.
      * exists (r :: rest). simpl. rewrite Hr, Hf. split; reflexivity.
      * exists rest. split; [reflexivity|exact Hf].
    + exists q. split; [|exact Hf]. simpl. f_equal. exact Hq.
Qed.

Lemma TrimFunc_infix_trimmed (s : gostring) (f : rune -> bool) :
  exists p q, s = p ++ TrimFunc s f ++ q /\ forallb f p = true /\ forallb f q = true.
Proof.
  unfold TrimFunc.
  destruct (TrimLeftFunc_suffix s f) as (p & Hp & Hfp).
  destruct (TrimRightFunc_prefix (TrimLeftFunc s f) f) as (q & Hq & Hfq).
  exists p, q. rewrite <- Hq. repeat split; assumption.
Qed.

Lemma TrimFunc_infix (s : gostring) (f : rune -> bool) :
  exists p q, s = p ++ TrimFunc s f ++ q.
Proof.
  destruct (TrimFunc_infix_trimmed s f) as (p & q & H & _). exists p, q. exact H.
Qed.

Lemma TrimLeftFunc_head (s : gostring) (f : rune -> bool) (a : rune) (l : gostring) :
  TrimLeftFunc s f = a :: l -> f a = false.
Proof.
  induction s as [|r rest IH]; simpl; [discriminate|].
  destruct (f r) eqn:Hr; [exact IH|]. intros [= <- _]. exact Hr.
Qed.

Lemma TrimRightFunc_cons (f : rune -> bool) (a : rune) (l : gostring) :
  f a = false -> exists t, TrimRightFunc (a :: l) f = a :: t.
Proof.
  intros Ha. simpl. destruct (TrimRightFunc l f) as [|x t].
  - rewrite Ha. exists []. reflexivity.
  - exists (x :: t). reflexivity.
Qed.

Lemma TrimRightFunc_idem (s : gostring) (f : rune -> bool) :
  TrimRightFunc (TrimRightFunc s f) f = TrimRightFunc s f.
Proof.
  induction s as [|r rest IH]; simpl; [reflexivity|].
  destruct (TrimRightFunc rest f) as [|x t] eqn:Ht.
  - destruct (f r) eqn:Hr; simpl; [reflexivity|]. rewrite Hr. reflexivity.
  - change (TrimRightFunc (r :: x :: t) f) with
      (match TrimRightFunc (x :: t) f with
       | [] => if f r then [] else [r]
       | t' => r :: t'
       end).
    rewrite IH. reflexivity.
Qed.

(** The result of [TrimFunc] is empty or starts with a rune that is not
    trimmed. *)
Lemma TrimFunc_head (s : gostring) (f : rune -> bool) (a : rune) (l : gostring) :
  TrimFunc s f = a :: l -> f a = false.
Proof.
  unfold TrimFunc. destruct (TrimLeftFunc s f) as [|b u] eqn:Hu; [discriminate|].
  pose proof (TrimLeftFunc_head s f b u Hu) as Hb.
  destruct (TrimRightFunc_cons f b u Hb) as (t & Ht). rewrite Ht.
  intros [= <- _]. exact Hb.
Qed.

Lemma TrimFunc_cons (f : rune -> bool) (a : rune) (l : gostring) :
  f a = false -> exists t, TrimFunc (a :: l) f = a :: t.
Proof.
  intros Ha. unfold TrimFunc. simpl. rewrite Ha. apply TrimRightFunc_cons. exact Ha.
Qed.

Lemma TrimFunc_idem (s : gostring) (f : rune -> bool) :
  TrimFunc (TrimFunc s f) f = TrimFunc s f.
Proof.
  destruct (TrimFunc s f) as [|a l] eqn:Ht; [reflexivity|].
  pose proof (TrimFunc_head s f a l Ht) as Ha.
  unfold TrimFunc in *. simpl. rewrite Ha.
  rewrite <- Ht. apply TrimRightFunc_idem.
Qed.

Lemma TrimFunc_all (s : gostring) (f : rune -> bool) :
  forallb f s = true -> TrimFunc s f = [].
Proof.
  intros Hs. unfold TrimFunc.
  assert (H : TrimLeftFunc s f = []).
  { induction s as [|r rest IH]; simpl in *; [reflexivity|].
    apply andb_prop in Hs. destruct Hs as [Hr Hrest]. rewrite Hr. exact (IH Hrest). }
  rewrite H. reflexivity.
Qed.

Lemma TrimFunc_ext (s : gostring) (f g : rune -> bool) :
  (forall r, f r = g r) -> TrimFunc s f = TrimFunc s g.
Proof.
  intros Hfg. unfold TrimFunc.
  assert (HL : forall u, TrimLeftFunc u f = TrimLeftFunc u g).
  { induction u as [|r rest IH]; simpl; [reflexivity|]. rewrite Hfg, IH. reflexivity. }
  assert (HR : forall u, TrimRightFunc u f = TrimRightFunc u g).
  { induction u as [|r rest IH]; simpl; [reflexivity|]. rewrite Hfg, IH. reflexivity. }
  rewrite HL, HR. reflexivity.
Qed.

Lemma TrimFunc_length (s : gostring) (f : rune -> bool) :
  length (TrimFunc s f) <= length s.
Proof.
  destruct (TrimFunc_infix s f) as (p & q & H).
  rewrite H at 2. rewrite !length_app. lia.
Qed.

(** ** Properties that pass to the parts of a string *)

Lemma forallb_infix (P : rune -> bool) (p m q : gostring) :
  forallb P (p ++ m ++ q) = true -> forallb P m = true.
Proof.
  rewrite !forallb_app. intros H.
  apply andb_prop in H. destruct H as [_ H].
  apply andb_prop in H. destruct H as [H _]. exact H.
Qed.

Lemma noAdjacent_app (class : rune -> bool) (l1 l2 : gostring) :
  noAdjacent class (l1 ++ l2) = true ->
  noAdjacent class l1 = true /\ noAdjacent class l2 = true.
Proof.
  induction l1 as [|a l1 IH]; simpl; [intros H; split; [reflexivity|exact H]|].
  intros H. apply andb_prop in H. destruct H as [Ha H].
  destruct (IH H) as [H1 H2]. split; [|exact H2].
  rewrite H1, andb_true_r.
  destruct l1 as [|b l1]; simpl in *.
  - rewrite andb_false_r. reflexivity.
  - exact Ha.
Qed.

Lemma noAdjacent_infix (class : rune -> bool) (p m q : gostring) :
  noAdjacent class (p ++ m ++ q) = true -> noAdjacent class m = true.
Proof.
  intros H. apply noAdjacent_app in H. destruct H as [_ H].
  apply noAdjacent_app in H. destruct H as [H _]. exact H.
Qed.

(** ** Replacing runs *)

Lemma replaceRunsFrom_none (class : rune -> bool) (repl : gostring) (s : gostring) :
  forall in_run, forallb (fun r => negb (class r)) s = true ->
  replaceRunsFrom class repl in_run s = s.
Proof.
  induction s as [|r rest IH]; intros in_run H; simpl in *; [reflexivity|].
  apply andb_prop in H. destruct H as [Hr Hrest].
  apply negb_true_iff in Hr. rewrite Hr. f_equal. apply IH. exact Hrest.
Qed.

Lemma replaceRunsFrom_forallb (P class : rune -> bool) (repl : gostring) (s : gostring) :
  forallb P repl = true ->
  (forall r, In r s -> class r = false -> P r = true) ->
  forall in_run, forallb P (replaceRunsFrom class repl in_run s) = true.
Proof.
  intros Hrepl. induction s as [|r rest IH]; intros Hs in_run; simpl; [reflexivity|].
  assert (Hrest : forall in_run', forallb P (replaceRunsFrom class repl in_run' rest) = true).
  { apply IH. intros x Hx. apply Hs. right. exact Hx. }
  destruct (class r) eqn:Hr.
  - rewrite forallb_app, Hrest, andb_true_r. destruct in_run; [reflexivity|exact Hrepl].
  - simpl. rewrite Hrest, andb_true_r. apply Hs; [left; reflexivity|exact Hr].
Qed.

(** Replacing runs of a class keeps the runes a filter [Q] selects, when
    [Q] selects no rune of the class and none of the replacement. *)
Lemma replaceRunsFrom_filter (Q class : rune -> bool) (repl : gostring) (s : gostring) :
  List.filter Q repl = [] -> (forall r, class r = true -> Q r = false) ->
  forall in_run, List.filter Q (replaceRunsFrom class repl in_run s) = List.filter Q s.
Proof.
  intros Hrepl Hclass. induction s as [|r rest IH]; intros in_run; simpl; [reflexivity|].
  destruct (class r) eqn:Hr.
  - rewrite List.filter_app, IH, (Hclass r Hr).
    destruct in_run; [reflexivity|rewrite Hrepl; reflexivity].
  - simpl. rewrite IH. reflexivity.
Qed.

(** Replacing the runs of a class by one rune of the class leaves no two
    runes of the class next to each other. *)
Lemma replaceRunsFrom_noAdjacent (class : rune -> bool) (c : rune) (s : gostring) :
  class c = true ->
  forall in_run,
    noAdjacent class (replaceRunsFrom class [c] in_run s) = true /\
    (in_run = true ->
     match replaceRunsFrom class [c] in_run s with
     | [] => True
     | a :: _ => class a = false
     end).
Proof.
  intros Hc. induction s as [|r rest IH]; intros in_run; simpl; [split; [reflexivity|trivial]|].
  destruct (class r) eqn:Hr.
  - destruct (IH true) as [Hn Hh]. specialize (Hh eq_refl).
    destruct in_run; simpl.
    + split; [exact Hn|intros _; exact Hh].
    + split; [|discriminate]. rewrite Hn, andb_true_r, Hc. simpl.
      destruct (replaceRunsFrom class [c] true rest) as [|a t]; [reflexivity|].
      rewrite Hh. reflexivity.
  - destruct (IH false) as [Hn _]. simpl. rewrite Hr, Hn. simpl.
    split; [reflexivity|intros _; reflexivity].
Qed.

Lemma replaceRunsFrom_fixed (class : rune -> bool) (c : rune) (s : gostring) :
  class c = true ->
  forall in_run, noAdjacent class s = true ->
    (in_run = true -> match s with [] => True | a :: _ => class a = false end) ->
    (forall r, In r s -> class r = true -> r = c) ->
    replaceRunsFrom class [c] in_run s = s.
Proof.
  intros Hc. induction s as [|r rest IH]; intros in_run Hn Hh Hall; simpl; [reflexivity|].
  simpl in Hn. apply andb_prop in Hn. destruct Hn as [Hr Hn].
  apply negb_true_iff in Hr.
  assert (Hall' : forall x, In x rest -> class x = true -> x = c).
  { intros x Hx. apply Hall. right. exact Hx. }
  destruct (class r) eqn:Hcr.
  - destruct in_run; [specialize (Hh eq_refl); discriminate|].
    simpl. rewrite (Hall r (or_introl eq_refl) Hcr). f_equal.
    apply IH; [exact Hn| |exact Hall'].
    intros _. destruct rest as [|b rest']; [trivial|]. simpl in Hr. exact Hr.
  - f_equal. apply IH; [exact Hn|discriminate|exact Hall'].
Qed.

End GoStr.

(* ===================================================================== *)
(** * Package db: the conversation table                                  *)
(* ===================================================================== *)

Module DB.

Import GoStr.

(** Modelled from the spec: package [db] (the schema, the SQL queries and
    their Go wrappers) is not among the sources; only its tests and its
    callers are. A conversation has an opaque id, an optional unique slug,
    [created_at], [updated_at] and an [archived] flag (spec, section 3).
    Times are seconds. *)
Record Conversation := mkConversation {
  ConversationID : gostring;
  Slug : option gostring;
  CreatedAt : Z;
  UpdatedAt : Z;
  Archived : bool
}.

(** The table, in insertion order. *)
Definition table := list Conversation.

Definition has_id (id : gostring) (c : Conversation) : bool :=
  eqb (ConversationID c) id.

Definition has_slug (slug : gostring) (c : Conversation) : bool :=
  match Slug c with
  | Some s => eqb s slug
  | None => false
  end.

Definition GetConversationByID (d : table) (id : gostring) : option Conversation :=
  List.find (has_id id) d.

(** Apply [f] to the row of conversation [id]. *)
Definition update_row (id : gostring) (f : Conversation -> Conversation)
    (d : table) : table :=
  List.map (fun c => if has_id id c then f c else c) d.

(** The message SQLite gives for a violated uniqueness constraint; the
    tests of the table look for "UNIQUE constraint failed". *)
Definition errUnique : gostring := go "UNIQUE constraint failed: conversations.slug".
Definition errNoRows : gostring := go "sql: no rows in result set".

(** Modelled from the spec: [CreateConversation]; "slug uniqueness is
    enforced only for non-NULL values". The id, which the real code draws
    at random, and the clock are arguments. *)
Definition CreateConversation (now : Z) (id : gostring) (slug : option gostring)
    (d : table) : table * option gostring :=
  match slug with
  | Some s =>
      if existsb (has_slug s) d then (d, Some errUnique)
      else (d ++ [mkConversation id slug now now false], None)
  | None => (d ++ [mkConversation id None now now false], None)
  end.

(** Modelled from the spec: [UpdateConversationSlug] ("rename_slug"); it
    sets the slug and leaves [updated_at] alone. It fails when the
    conversation does not exist, and with a uniqueness violation when
    another conversation holds the slug. *)
Definition UpdateConversationSlug (d : table) (id slug : gostring)
  : table * option gostring :=
  match GetConversationByID d id with
  | None => (d, Some errNoRows)
  | Some _ =>
      if existsb (fun c => has_slug slug c && negb (has_id id c)) d
      then (d, Some errUnique)
      else (update_row id
              (fun c => mkConversation (ConversationID c) (Some slug)
                          (CreatedAt c) (UpdatedAt c) (Archived c)) d,
            None)
  end.

(** Modelled from the spec: [ArchiveConversation] and
    [UnarchiveConversation] toggle the flag and nothing else. *)
Definition set_archived (b : bool) (c : Conversation) : Conversation :=
  mkConversation (ConversationID c) (Slug c) (CreatedAt c) (UpdatedAt c) b.

Definition ArchiveConversation (d : table) (id : gostring) : table :=
  update_row id (set_archived true) d.

Definition UnarchiveConversation (d : table) (id : gostring) : table :=
  update_row id (set_archived false) d.

(** Modelled from the spec: appending a message "simultaneously updates the
    conversation's updated_at" ([UpdateConversationTimestamp]). *)
Definition UpdateConversationTimestamp (now : Z) (d : table) (id : gostring) : table :=
  update_row id
    (fun c => mkConversation (ConversationID c) (Slug c) (CreatedAt c) now (Archived c)) d.

(** [UPDATE conversations SET updated_at = t WHERE conversation_id = id],
    which the tests use to fix activity times. *)
Definition set_updated_at (t : Z) (d : table) (id : gostring) : table :=
  UpdateConversationTimestamp t d id.

(** [ORDER BY updated_at DESC]: an insertion sort; rows with equal times
    keep their order. *)
Fixpoint insert_by_updated_at (c : Conversation) (l : table) : table :=
  match l with
  | [] => [c]
  | x :: rest =>
      if (UpdatedAt x <=? UpdatedAt c)%Z then c :: l
      else x :: insert_by_updated_at c rest
  end.

Fixpoint order_by_updated_at_desc (l : table) : table :=
  match l with
  | [] => []
  | c :: rest => insert_by_updated_at c (order_by_updated_at_desc rest)
  end.

(** Modelled from the spec: the two listings, ordered by activity. *)
Definition ListConversations (d : table) : table :=
  order_by_updated_at_desc (List.filter (fun c => negb (Archived c)) d).

Definition ListArchivedConversations (d : table) : table :=
  order_by_updated_at_desc (List.filter Archived d).

(** The activity ordering over the whole table. *)
Definition activity_order (d : table) : list gostring :=
  List.map ConversationID (order_by_updated_at_desc d).

(** The operations that are not new activity. *)
Inductive op :=
| archive (id : gostring)
| unarchive (id : gostring)
| rename_slug (id slug : gostring).

Definition apply_op (d : table) (o : op) : table :=
  match o with
  | archive id => ArchiveConversation d id
  | unarchive id => UnarchiveConversation d id
  | rename_slug id slug => fst (UpdateConversationSlug d id slug)
  end.

Definition updated_at_of (d : table) (id : gostring) : option Z :=
  option_map UpdatedAt (GetConversationByID d id).

(** ** Archive, unarchive and rename are not activity *)

(** A row function that keeps the id and [updated_at]. *)
Definition keeps_activity (g : Conversation -> Conversation) : Prop :=
  forall c, ConversationID (g c) = ConversationID c /\ UpdatedAt (g c) = UpdatedAt c.

Lemma insert_by_updated_at_map (g : Conversation -> Conversation) (c : Conversation) (l : table) :
  keeps_activity g ->
  insert_by_updated_at (g c) (List.map g l) = List.map g (insert_by_updated_at c l).
Proof.
  intros Hg. induction l as [|x rest IH]; simpl; [reflexivity|].
  rewrite (proj2 (Hg x)), (proj2 (Hg c)).
  destruct (UpdatedAt x <=? UpdatedAt c)%Z; simpl; [reflexivity|].
  rewrite IH. reflexivity.
Qed.

Lemma order_by_updated_at_desc_map (g : Conversation -> Conversation) (l : table) :
  keeps_activity g ->
  order_by_updated_at_desc (List.map g l) = List.map g (order_by_updated_at_desc l).
Proof.
  intros Hg. induction l as [|c rest IH]; simpl; [reflexivity|].
  rewrite IH. apply insert_by_updated_at_map. exact Hg.
Qed.

Lemma find_has_id_map (g : Conversation -> Conversation) (id : gostring) (l : table) :
  keeps_activity g ->
  List.find (has_id id) (List.map g l) = option_map g (List.find (has_id id) l).
Proof.
  intros Hg. induction l as [|c rest IH]; simpl; [reflexivity|].
  unfold has_id at 1. rewrite (proj1 (Hg c)). fold (has_id id c).
  destruct (has_id id c); [reflexivity|exact IH].
Qed.

Lemma update_row_keeps (id : gostring) (f : Conversation -> Conversation) :
  keeps_activity f -> keeps_activity (fun c => if has_id id c then f c else c).
Proof.
  intros Hf c. destruct (has_id id c); [apply Hf|split; reflexivity].
Qed.

(** Each of the three operations maps the rows by a function that keeps
    ids and [updated_at]. *)
Lemma apply_op_is_map (d : table) (o : op) :
  exists g, keeps_activity g /\ apply_op d o = List.map g d.
Proof.
  destruct o as [id|id|id slug]; simpl.
  - eexists. split; [|reflexivity]. apply update_row_keeps. intros c. split; reflexivity.
  - eexists. split; [|reflexivity]. apply update_row_keeps. intros c. split; reflexivity.
  - unfold UpdateConversationSlug.
    destruct (GetConversationByID d id) as [found|];
      [destruct (existsb (fun c => has_slug slug c && negb (has_id id c)) d)|]; simpl.
    + exists (fun x => x). split; [intros x; split; reflexivity|]. symmetry. apply List.map_id.
    + eexists. split; [|reflexivity]. apply update_row_keeps. intros x. split; reflexivity.
    + exists (fun x => x). split; [intros x; split; reflexivity|]. symmetry. apply List.map_id.
Qed.

Lemma map_keeps_activity (g : Conversation -> Conversation) (d : table) :
  keeps_activity g ->
  (forall id, updated_at_of (List.map g d) id = updated_at_of d id) /\
  List.map UpdatedAt (List.map g d) = List.map UpdatedAt d /\
  activity_order (List.map g d) = activity_order d.
Proof.
  intros Hg. split; [|split].
  - intros id. unfold updated_at_of, GetConversationByID.
    rewrite (find_has_id_map g id d Hg).
    destruct (List.find (has_id id) d) as [c|]; simpl; [|reflexivity].
    rewrite (proj2 (Hg c)). reflexivity.
  - rewrite List.map_map. apply List.map_ext. intros c. apply Hg.
  - unfold activity_order. rewrite (order_by_updated_at_desc_map g d Hg).
    rewrite List.map_map. apply List.map_ext. intros c. apply Hg.
Qed.

(** C9: [archive], [unarchive] and [rename_slug], applied in any number
    and order, leave the [updated_at] of every conversation unchanged, and
    with it the ordering of the conversations by activity; recording a new
    message is what advances [updated_at]. *)
Theorem archive_unarchive_rename_keep_updated_at (d : table) (ops : list op) :
  (forall id, updated_at_of (fold_left apply_op ops d) id = updated_at_of d id) /\
  List.map UpdatedAt (fold_left apply_op ops d) = List.map UpdatedAt d /\
  activity_order (fold_left apply_op ops d) = activity_order d /\
  (forall now id c, GetConversationByID d id = Some c ->
     updated_at_of (UpdateConversationTimestamp now d id) id = Some now).
Proof.
  split; [|split; [|split]].
  - revert d. induction ops as [|o ops IH]; intros d id; simpl; [reflexivity|].
    rewrite IH. destruct (apply_op_is_map d o) as (g & Hg & ->).
    apply (map_keeps_activity g d Hg).
  - revert d. induction ops as [|o ops IH]; intros d; simpl; [reflexivity|].
    rewrite IH. destruct (apply_op_is_map d o) as (g & Hg & ->).
    apply (map_keeps_activity g d Hg).
  - revert d. induction ops as [|o ops IH]; intros d; simpl; [reflexivity|].
    rewrite IH. destruct (apply_op_is_map d o) as (g & Hg & ->).
    apply (map_keeps_activity g d Hg).
  - intros now id c. unfold updated_at_of, GetConversationByID,
      UpdateConversationTimestamp, update_row.
    induction d as [|x rest IH]; simpl; [discriminate|].
    destruct (has_id id x) eqn:Hx.
    + intros _. simpl. unfold has_id in *. simpl. rewrite Hx. reflexivity.
    + rewrite Hx. exact IH.
Qed.

(** The scenarios of [TestArchivedConversations_SortedByUpdatedAt_NotArchiveTime]
    and [TestArchiveDoesNotChangeUpdatedAt]. Times are seconds of the day. *)
Definition three_conversations : table :=
  let d := fst (CreateConversation 0 (go "A") (Some (go "conv-oldest-activity")) []) in
  let d := fst (CreateConversation 0 (go "B") (Some (go "conv-newest-activity")) d) in
  let d := fst (CreateConversation 0 (go "C") (Some (go "conv-middle-activity")) d) in
  let d := set_updated_at 36000 d (go "A") in
  let d := set_updated_at 43200 d (go "C") in
  set_updated_at 50400 d (go "B").

Example archive_does_not_reorder :
  List.map ConversationID
    (ListArchivedConversations
       (fold_left apply_op [archive (go "C"); archive (go "B"); archive (go "A")]
          three_conversations))
  = [go "B"; go "C"; go "A"].
Proof. reflexivity. Qed.

Example archive_does_not_change_updated_at :
  updated_at_of
    (fold_left apply_op [archive (go "C"); unarchive (go "C")] three_conversations)
    (go "C")
  = Some 43200%Z.
Proof. reflexivity. Qed.

Lemma archive_unarchive_rename_keep_updated_at_witness :
  updated_at_of
    (UpdateConversationTimestamp 60000
       (fold_left apply_op
          [archive (go "C"); rename_slug (go "C") (go "renamed"); unarchive (go "C")]
          three_conversations)
       (go "C"))
    (go "C")
  = Some 60000%Z.
Proof.
  exact (proj2 (proj2 (proj2
           (archive_unarchive_rename_keep_updated_at
              (fold_left apply_op
                 [archive (go "C"); rename_slug (go "C") (go "renamed"); unarchive (go "C")]
                 three_conversations)
              [])))
           60000%Z (go "C")
           (mkConversation (go "C") (Some (go "renamed")) 0 43200 false) eq_refl).
Defined.

End DB.

(* ===================================================================== *)
(** * Package slug: the slug allocator                                    *)
(* ===================================================================== *)

Module Slug.

Import GoStr.

(** A Go [(T, error)] result; an error is its message. *)
Inductive result (A : Type) :=
| Ok (a : A)
| Err (msg : gostring).
Arguments Ok {A} a.
Arguments Err {A} msg.

(** Modelled from the spec: package [llm] is not among the sources. A
    response is a list of content blocks; a block has a type (text,
    thinking, or another one) and a text. *)
Inductive ContentType := ContentTypeText | ContentTypeThinking | ContentTypeOther.

Record Content := mkContent {
  Type_ : ContentType;
  Text : gostring
}.

Record Response := mkResponse { ResponseContent : list Content }.

(** [llm.Service]: [Do] answers the prompt of the one user message of the
    request, or fails (also when the 10 s timeout expires). *)
Record Service := mkService { Do : gostring -> result Response }.

(** [models.ModelInfo], of which only [Tags] is read. *)
Record ModelInfo := mkModelInfo { Tags : gostring }.

(** [LLMServiceProvider] *)
Record LLMServiceProvider := mkProvider {
  GetService : gostring -> result Service;
  GetAvailableModels : list gostring;
  GetModelInfo : gostring -> option ModelInfo
}.

(** The character classes of the three regular expressions of [Sanitize]. *)

(** [[\s_]]: in Go's regexp [\s] is [[\t\n\f\r ]]. *)
Definition isSpaceOrUnderscore (r : rune) : bool :=
  N.eqb r 9 || N.eqb r 10 || N.eqb r 12 || N.eqb r 13 || N.eqb r 32 || N.eqb r 95.

Definition isLowerAlnum (r : rune) : bool :=
  ((97 <=? r)%N && (r <=? 122)%N) || ((48 <=? r)%N && (r <=? 57)%N).

Definition isHyphen (r : rune) : bool := N.eqb r 45.

(** [[^a-z0-9-]] *)
Definition notSlugRune (r : rune) : bool := negb (isLowerAlnum r || isHyphen r).

Section Unicode.

Variable unicode_ToLower : rune -> rune.
Variable unicode_IsSpace : rune -> bool.

(** [Sanitize], up to the length limit. *)
Definition sanitizeUnbounded (input : gostring) : gostring :=
  let slug := ToLower unicode_ToLower input in
  let slug := ReplaceAllRuns isSpaceOrUnderscore slug (go "-") in
  let slug := ReplaceAllRuns notSlugRune slug [] in
  let slug := ReplaceAllRuns isHyphen slug (go "-") in
  Trim slug (go "-").

Definition Sanitize (input : gostring) : gostring :=
  let slug := sanitizeUnbounded input in
  if Nat.ltb 60 (length slug) then Trim (firstn 60 slug) (go "-")
  else slug.

(** [hasTag] *)
Definition hasTag (tags tag : gostring) : bool :=
  existsb (fun t => eqb (TrimSpace unicode_IsSpace t) tag) (Split tags 44%N).

Definition slugPrompt (userMessage : gostring) : gostring :=
  go "Generate a short, descriptive slug (2-6 words, lowercase, hyphen-separated) for a conversation that starts with this user message:

" ++ userMessage ++ go "

The slug should:
- Be concise and descriptive
- Use only lowercase letters, numbers, and hyphens
- Capture the main topic or intent
- Be suitable as a filename or URL path

Respond with only the slug, nothing else.".

(** The loop of [callSlugLLM] over [response.Content]: the text of the
    first text block that is not empty, or the empty string. *)
Fixpoint firstText (content : list Content) : gostring :=
  match content with
  | [] => []
  | c :: rest =>
      match Type_ c, Text c with
      | ContentTypeText, _ :: _ => Text c
      | _, _ => firstText rest
      end
  end.

Definition errNoText : gostring := go "no text content in LLM response".
Definition errEmptySlug : gostring := go "generated slug is empty after sanitization".
Definition errNoModel : gostring := go "no suitable model available for slug generation".
Definition errGiveUp : gostring := go "failed to generate unique slug after 100 attempts".

Definition callSlugLLM (llmService : Service) (userMessage : gostring)
  : result gostring :=
  match Do llmService (slugPrompt userMessage) with
  | Err e => Err (go "failed to generate slug: " ++ e)
  | Ok response =>
      let rawSlug := firstText (ResponseContent response) in
      match rawSlug with
      | [] => Err errNoText
      | _ :: _ =>
          let slug := TrimSpace unicode_IsSpace rawSlug in
          let slug := Sanitize slug in
          match slug with
          | [] => Err errEmptySlug
          | _ :: _ => Ok slug
          end
      end
  end.

(** The inner loop of [generateSlugText] over the available models, for
    one tag: the first slug a model with that tag yields. *)
Fixpoint tryModels (p : LLMServiceProvider) (userMessage tag : gostring)
    (modelIDs : list gostring) : option gostring :=
  match modelIDs with
  | [] => None
  | modelID :: rest =>
      match GetModelInfo p modelID with
      | None => tryModels p userMessage tag rest
      | Some info =>
          if negb (hasTag (Tags info) tag) then tryModels p userMessage tag rest
          else
            match GetService p modelID with
            | Err _ => tryModels p userMessage tag rest
            | Ok llmService =>
                match callSlugLLM llmService userMessage with
                | Ok slug => Some slug
                | Err _ => tryModels p userMessage tag rest
                end
            end
      end
  end.

(** The outer loop, over the tags "slug" and "slug-backup". *)
Fixpoint tryTags (p : LLMServiceProvider) (userMessage : gostring)
    (tags : list gostring) : option gostring :=
  match tags with
  | [] => None
  | tag :: rest =>
      match tryModels p userMessage tag (GetAvailableModels p) with
      | Some slug => Some slug
      | None => tryTags p userMessage rest
      end
  end.

Definition generateSlugText (p : LLMServiceProvider)
    (userMessage conversationModelID : gostring) : result gostring :=
  let fallback :=
    match tryTags p userMessage [go "slug"; go "slug-backup"] with
    | Some slug => Ok slug
    | None =>
        let none := Err errNoModel in
        if negb (eqb conversationModelID []) &&
           negb (eqb conversationModelID (go "predictable"))
        then match GetService p conversationModelID with
             | Ok llmService => callSlugLLM llmService userMessage
             | Err _ => none
             end
        else none
    end in
  if eqb conversationModelID (go "predictable") then
    match GetService p (go "predictable") with
    | Ok llmService => callSlugLLM llmService userMessage
    | Err _ => fallback
    end
  else fallback.

(** The test of [GenerateSlug] for a unique-constraint violation. *)
Definition isUniqueViolation (err : gostring) : bool :=
  Contains (ToLower unicode_ToLower err) (go "unique constraint failed") ||
  Contains (ToLower unicode_ToLower err) (go "unique constraint") ||
  Contains (ToLower unicode_ToLower err) (go "duplicate").

Section Database.

(** The database as [GenerateSlug] sees it: a state and
    [UpdateConversationSlug], which returns the state afterwards and the
    error, if any. *)
Variable D : Type.
Variable UpdateConversationSlug : D -> gostring -> gostring -> D * option gostring.

(** The loop [for attempt := 0; attempt < 100; attempt++] of
    [GenerateSlug]; [n] is [100 - attempt]. Besides the result it gives the
    database afterwards and the slugs it passed to
    [UpdateConversationSlug], in order. *)
Fixpoint updateLoop (n attempt : nat) (conversationID baseSlug slug : gostring)
    (d : D) (tried : list gostring) : D * result gostring * list gostring :=
  match n with
  | O => (d, Err errGiveUp, tried)
  | S n' =>
      match UpdateConversationSlug d conversationID slug with
      | (d', None) => (d', Ok slug, tried ++ [slug])
      | (d', Some err) =>
          if isUniqueViolation err then
            updateLoop n' (attempt + 1) conversationID baseSlug
              (baseSlug ++ go "-" ++ itoa (attempt + 1)) d' (tried ++ [slug])
          else
            (d', Err (go "failed to update conversation slug: " ++ err),
             tried ++ [slug])
      end
  end.

Definition GenerateSlug (p : LLMServiceProvider) (d : D)
    (conversationID userMessage conversationModelID : gostring)
  : D * result gostring * list gostring :=
  match generateSlugText p userMessage conversationModelID with
  | Err e => (d, Err e, [])
  | Ok baseSlug => updateLoop 100 0 conversationID baseSlug baseSlug d []
  end.

(** The slug of the [k]-th attempt. *)
Definition candidate (baseSlug : gostring) (k : nat) : gostring :=
  match k with
  | O => baseSlug
  | S _ => baseSlug ++ go "-" ++ itoa k
  end.

(** The database before the [k]-th attempt, the earlier ones having been
    made. *)
Fixpoint db_before (d : D) (conversationID baseSlug : gostring) (k : nat) : D :=
  match k with
  | O => d
  | S j =>
      fst (UpdateConversationSlug (db_before d conversationID baseSlug j)
             conversationID (candidate baseSlug j))
  end.

(** What attempt [k] meets. *)
Definition attempt_error (d : D) (conversationID baseSlug : gostring) (k : nat)
  : option gostring :=
  snd (UpdateConversationSlug (db_before d conversationID baseSlug k)
         conversationID (candidate baseSlug k)).

(** The attempts before the [k]-th all met a unique-constraint violation. *)
Definition conflicts_before (d : D) (conversationID baseSlug : gostring) (k : nat)
  : Prop :=
  forall j, j < k ->
    exists err, attempt_error d conversationID baseSlug j = Some err /\
                isUniqueViolation err = true.

(** ** The retry loop *)

(** While the attempts meet unique-constraint violations, the loop goes
    on with the next candidate. *)
Lemma updateLoop_conflicts (conversationID baseSlug : gostring) (d : D) (k : nat) :
  forall n, conflicts_before d conversationID baseSlug k ->
  updateLoop (k + n) 0 conversationID baseSlug baseSlug d []
  = updateLoop n k conversationID baseSlug (candidate baseSlug k)
      (db_before d conversationID baseSlug k)
      (List.map (candidate baseSlug) (seq 0 k)).
Proof.
  induction k as [|k IH]; intros n Hc; [reflexivity|].
  replace (S k + n) with (k + S n) by lia.
  rewrite IH by (intros j Hj; apply Hc; lia).
  destruct (Hc k) as (err & Herr & Hu); [lia|].
  unfold attempt_error in Herr.
  rewrite seq_S, List.map_app. cbn [updateLoop db_before List.map Nat.add].
  destruct (UpdateConversationSlug (db_before d conversationID baseSlug k)
              conversationID (candidate baseSlug k)) as [d' oe] eqn:Hupd.
  cbn [fst snd] in *. subst oe. rewrite Hu, Nat.add_1_r. reflexivity.
Qed.

(** The three ways the loop ends: attempt [k] succeeds; attempt [k] meets
    another error; or all 100 attempts, of the base slug and of the
    suffixes 1 to 99, meet a unique-constraint violation. *)
Lemma updateLoop_outcomes (conversationID baseSlug : gostring) (d : D) :
  (forall k, k < 100 ->
     conflicts_before d conversationID baseSlug k ->
     attempt_error d conversationID baseSlug k = None ->
     updateLoop 100 0 conversationID baseSlug baseSlug d []
     = (db_before d conversationID baseSlug (S k), Ok (candidate baseSlug k),
        List.map (candidate baseSlug) (seq 0 (S k)))) /\
  (forall k err, k < 100 ->
     conflicts_before d conversationID baseSlug k ->
     attempt_error d conversationID baseSlug k = Some err ->
     isUniqueViolation err = false ->
     updateLoop 100 0 conversationID baseSlug baseSlug d []
     = (db_before d conversationID baseSlug (S k),
        Err (go "failed to update conversation slug: " ++ err),
        List.map (candidate baseSlug) (seq 0 (S k)))) /\
  (conflicts_before d conversationID baseSlug 100 ->
     updateLoop 100 0 conversationID baseSlug baseSlug d []
     = (db_before d conversationID baseSlug 100, Err errGiveUp,
        List.map (candidate baseSlug) (seq 0 100))).
Proof.
  split; [|split].
  - intros k Hk Hc He.
    replace 100 with (k + S (99 - k)) at 1 by lia.
    rewrite (updateLoop_conflicts _ _ _ k _ Hc).
    unfold attempt_error in He.
    rewrite seq_S, List.map_app. cbn [updateLoop db_before List.map Nat.add].
    destruct (UpdateConversationSlug (db_before d conversationID baseSlug k)
                conversationID (candidate baseSlug k)) as [d' oe] eqn:Hupd.
    cbn [fst snd] in *. subst oe. reflexivity.
  - intros k err Hk Hc He Hu.
    replace 100 with (k + S (99 - k)) at 1 by lia.
    rewrite (updateLoop_conflicts _ _ _ k _ Hc).
    unfold attempt_error in He.
    rewrite seq_S, List.map_app. cbn [updateLoop db_before List.map Nat.add].
    destruct (UpdateConversationSlug (db_before d conversationID baseSlug k)
                conversationID (candidate baseSlug k)) as [d' oe] eqn:Hupd.
    cbn [fst snd] in *. subst oe. rewrite Hu. reflexivity.
  - intros Hc.
    replace 100 with (100 + 0) at 1 by lia.
    rewrite (updateLoop_conflicts _ _ _ 100 _ Hc). reflexivity.
Qed.


End Database.

(** ** The shape of a sanitized slug *)

(** [[a-z0-9-]] *)
Definition isSlugRune (r : rune) : bool := isLowerAlnum r || isHyphen r.

(** A clean slug: runes of [[a-z0-9-]] only, no two hyphens in a row, no
    hyphen at either end, at most 60 runes. *)
Definition clean (s : gostring) : Prop :=
  forallb isSlugRune s = true /\
  noAdjacent isHyphen s = true /\
  TrimFunc s isHyphen = s /\
  length s <= 60.

(** The lower-case letters and digits of a string, in order. *)
Definition alnums (s : gostring) : gostring := List.filter isLowerAlnum s.

Lemma Trim_hyphen (s : gostring) : Trim s (go "-") = TrimFunc s isHyphen.
Proof.
  unfold Trim. apply TrimFunc_ext. intros r. simpl. apply orb_false_r.
Qed.

Lemma isHyphen_eq (r : rune) : isHyphen r = true -> r = 45%N.
Proof. unfold isHyphen. apply N.eqb_eq. Qed.

Lemma isHyphen_not_alnum (r : rune) : isHyphen r = true -> isLowerAlnum r = false.
Proof. intros H. apply isHyphen_eq in H. subst r. reflexivity. Qed.

Lemma isSpaceOrUnderscore_not_alnum (r : rune) :
  isSpaceOrUnderscore r = true -> isLowerAlnum r = false.
Proof.
  unfold isSpaceOrUnderscore. rewrite !orb_true_iff, !N.eqb_eq.
  intros [[[[[-> | ->] | ->] | ->] | ->] | ->]; reflexivity.
Qed.

Lemma notSlugRune_not_alnum (r : rune) : notSlugRune r = true -> isLowerAlnum r = false.
Proof.
  unfold notSlugRune. rewrite negb_true_iff, orb_false_iff. intros [H _]. exact H.
Qed.

Lemma isSlugRune_lt_128 (r : rune) :
  isSlugRune r = true -> (r <? 128)%N = true /\ ((65 <=? r)%N && (r <=? 90)%N) = false.
Proof.
  unfold isSlugRune, isLowerAlnum, isHyphen.
  rewrite !orb_true_iff, !andb_true_iff, !N.leb_le, N.eqb_eq, N.ltb_lt,
    andb_false_iff, !N.leb_gt. lia.
Qed.

Lemma isSlugRune_not_space (r : rune) : isSlugRune r = true -> isSpaceOrUnderscore r = false.
Proof.
  unfold isSlugRune, isLowerAlnum, isHyphen, isSpaceOrUnderscore.
  rewrite !orb_true_iff, !andb_true_iff, !N.leb_le, !orb_false_iff, !N.eqb_eq, !N.eqb_neq.
  lia.
Qed.

Lemma toLowerRune_slug (r : rune) :
  isSlugRune r = true -> toLowerRune unicode_ToLower r = r.
Proof.
  intros H. apply isSlugRune_lt_128 in H. destruct H as [H1 H2].
  unfold toLowerRune. rewrite H1, H2. reflexivity.
Qed.

Lemma ToLower_slug (s : gostring) :
  forallb isSlugRune s = true -> ToLower unicode_ToLower s = s.
Proof.
  induction s as [|r rest IH]; simpl; [reflexivity|].
  intros H. apply andb_prop in H. destruct H as [Hr Hrest].
  rewrite (toLowerRune_slug r Hr), (IH Hrest). reflexivity.
Qed.

Lemma forallb_firstn (P : rune -> bool) (n : nat) (s : gostring) :
  forallb P s = true -> forallb P (firstn n s) = true.
Proof.
  intros H. rewrite <- (List.firstn_skipn n s), forallb_app in H.
  apply andb_prop in H. exact (proj1 H).
Qed.

Lemma noAdjacent_firstn (class : rune -> bool) (n : nat) (s : gostring) :
  noAdjacent class s = true -> noAdjacent class (firstn n s) = true.
Proof.
  intros H. rewrite <- (List.firstn_skipn n s) in H.
  apply noAdjacent_app in H. exact (proj1 H).
Qed.

Lemma forallb_TrimFunc (P f : rune -> bool) (s : gostring) :
  forallb P s = true -> forallb P (TrimFunc s f) = true.
Proof.
  intros H. destruct (TrimFunc_infix s f) as (p & q & Hs). rewrite Hs in H.
  exact (forallb_infix P p _ q H).
Qed.

Lemma noAdjacent_TrimFunc (class f : rune -> bool) (s : gostring) :
  noAdjacent class s = true -> noAdjacent class (TrimFunc s f) = true.
Proof.
  intros H. destruct (TrimFunc_infix s f) as (p & q & Hs). rewrite Hs in H.
  exact (noAdjacent_infix class p _ q H).
Qed.

(** What the five steps before the length limit establish. *)
Lemma sanitizeUnbounded_shape (input : gostring) :
  forallb isSlugRune (sanitizeUnbounded input) = true /\
  noAdjacent isHyphen (sanitizeUnbounded input) = true /\
  TrimFunc (sanitizeUnbounded input) isHyphen = sanitizeUnbounded input.
Proof.
  unfold sanitizeUnbounded. cbv zeta. rewrite Trim_hyphen.
  set (w := ReplaceAllRuns isSpaceOrUnderscore (ToLower unicode_ToLower input) (go "-")).
  set (f := ReplaceAllRuns notSlugRune w []).
  assert (Hf : forallb isSlugRune f = true).
  { apply replaceRunsFrom_forallb; [reflexivity|].
    intros r _ Hr. unfold notSlugRune in Hr. apply negb_false_iff in Hr. exact Hr. }
  set (c := ReplaceAllRuns isHyphen f (go "-")).
  assert (Hc : forallb isSlugRune c = true).
  { apply replaceRunsFrom_forallb; [reflexivity|].
    intros r Hr _. rewrite forallb_forall in Hf. exact (Hf r Hr). }
  assert (Hn : noAdjacent isHyphen c = true).
  { exact (proj1 (replaceRunsFrom_noAdjacent isHyphen 45%N f eq_refl false)). }
  split; [|split].
  - apply forallb_TrimFunc. exact Hc.
  - apply noAdjacent_TrimFunc. exact Hn.
  - apply TrimFunc_idem.
Qed.

Lemma Sanitize_clean (input : gostring) : clean (Sanitize input).
Proof.
  destruct (sanitizeUnbounded_shape input) as (Hs & Hn & Ht).
  unfold Sanitize. cbv zeta.
  destruct (Nat.ltb 60 (length (sanitizeUnbounded input))) eqn:Hlen.
  - rewrite Trim_hyphen. repeat split.
    + apply forallb_TrimFunc, forallb_firstn. exact Hs.
    + apply noAdjacent_TrimFunc, noAdjacent_firstn. exact Hn.
    + apply TrimFunc_idem.
    + etransitivity; [apply TrimFunc_length|].
      rewrite List.length_firstn. lia.
  - apply Nat.ltb_ge in Hlen. repeat split; assumption.
Qed.

Lemma Sanitize_fixed (s : gostring) : clean s -> Sanitize s = s.
Proof.
  intros (Hs & Hn & Ht & Hlen).
  assert (Hu : sanitizeUnbounded s = s).
  { unfold sanitizeUnbounded. cbv zeta.
    rewrite (ToLower_slug s Hs). unfold ReplaceAllRuns.
    rewrite (replaceRunsFrom_none isSpaceOrUnderscore).
    2:{ rewrite forallb_forall in Hs. apply forallb_forall. intros r Hr.
        rewrite (isSlugRune_not_space r (Hs r Hr)). reflexivity. }
    rewrite (replaceRunsFrom_none notSlugRune).
    2:{ rewrite forallb_forall in Hs. apply forallb_forall. intros r Hr.
        unfold notSlugRune. rewrite negb_involutive. exact (Hs r Hr). }
    change (go "-") with [45%N].
    rewrite (replaceRunsFrom_fixed isHyphen 45%N s eq_refl false Hn).
    - change [45%N] with (go "-"). rewrite Trim_hyphen. exact Ht.
    - discriminate.
    - intros r _. apply isHyphen_eq. }
  unfold Sanitize. cbv zeta. rewrite Hu.
  apply Nat.ltb_ge in Hlen. rewrite Hlen. reflexivity.
Qed.

(** ** When the sanitized slug is empty *)

Lemma alnums_TrimFunc_hyphen (s : gostring) :
  alnums (TrimFunc s isHyphen) = alnums s.
Proof.
  assert (Hnone : forall p, forallb isHyphen p = true -> alnums p = []).
  { induction p as [|r rest IH]; simpl; [reflexivity|].
    intros H. apply andb_prop in H. destruct H as [Hr Hrest].
    rewrite (isHyphen_not_alnum r Hr). exact (IH Hrest). }
  destruct (TrimFunc_infix_trimmed s isHyphen) as (p & q & Hs & Hp & Hq).
  rewrite Hs at 2. unfold alnums in *. rewrite !List.filter_app.
  rewrite (Hnone p Hp), (Hnone q Hq), app_nil_r. reflexivity.
Qed.

(** The steps of [Sanitize] before the length limit neither add nor remove
    a lower-case letter or digit. *)
Lemma sanitizeUnbounded_alnums (input : gostring) :
  alnums (sanitizeUnbounded input) = alnums (ToLower unicode_ToLower input).
Proof.
  unfold sanitizeUnbounded. cbv zeta. rewrite Trim_hyphen, alnums_TrimFunc_hyphen.
  unfold alnums, ReplaceAllRuns.
  rewrite (replaceRunsFrom_filter isLowerAlnum isHyphen);
    [|reflexivity|exact isHyphen_not_alnum].
  rewrite (replaceRunsFrom_filter isLowerAlnum notSlugRune);
    [|reflexivity|exact notSlugRune_not_alnum].
  rewrite (replaceRunsFrom_filter isLowerAlnum isSpaceOrUnderscore);
    [|reflexivity|exact isSpaceOrUnderscore_not_alnum].
  reflexivity.
Qed.

(** [Sanitize] gives the empty string exactly on the inputs that have no
    letter or digit of [[a-z0-9]] once lower-cased. *)
Lemma Sanitize_empty_iff (input : gostring) :
  Sanitize input = [] <-> alnums (ToLower unicode_ToLower input) = [].
Proof.
  destruct (sanitizeUnbounded_shape input) as (Hs & Hn & Ht).
  rewrite <- sanitizeUnbounded_alnums. unfold Sanitize. cbv zeta.
  destruct (Nat.ltb 60 (length (sanitizeUnbounded input))) eqn:Hlen.
  - apply Nat.ltb_lt in Hlen.
    destruct (sanitizeUnbounded input) as [|a l] eqn:Hu; [simpl in Hlen; lia|].
    pose proof (TrimFunc_head _ _ _ _ Ht) as Ha.
    rewrite Trim_hyphen. simpl firstn.
    destruct (TrimFunc_cons isHyphen a (firstn 59 l) Ha) as (t & Ht').
    rewrite Ht'. split; [discriminate|].
    intros Hal. unfold alnums in Hal. simpl in Hal.
    simpl in Hs. apply andb_prop in Hs. destruct Hs as [Hsa _].
    unfold isSlugRune in Hsa. rewrite Ha, orb_false_r in Hsa.
    rewrite Hsa in Hal. discriminate.
  - split; [intros ->; reflexivity|].
    intros Hal. rewrite <- Ht. apply TrimFunc_all.
    clear Ht Hn Hlen. induction (sanitizeUnbounded input) as [|r rest IH]; [reflexivity|].
    simpl in *. apply andb_prop in Hs. destruct Hs as [Hr Hrest].
    unfold alnums in Hal. simpl in Hal. unfold isSlugRune in Hr.
    destruct (isLowerAlnum r); [discriminate|].
    simpl in Hr. rewrite Hr. exact (IH Hrest Hal).
Qed.






(** C6: [Sanitize] is idempotent; what it returns is a clean slug, which
    each of its steps (lower-casing, replacing runs of white space and
    underscores by a hyphen, removing what is outside [[a-z0-9-]],
    collapsing runs of hyphens, trimming hyphens, limiting to 60 with a
    second trim) leaves as it is. *)
Theorem Sanitize_idempotent (x : gostring) :
  Sanitize (Sanitize x) = Sanitize x.
Proof. apply Sanitize_fixed. apply Sanitize_clean. Qed.

End Unicode.

(** ** The allocator on the mocks of the tests *)

(** [MockLLMService] with its [ResponseText], and [MockLLMProvider]. *)
Definition MockLLMService (ResponseText : gostring) : Service :=
  mkService (fun _ => Ok (mkResponse [mkContent ContentTypeText ResponseText])).

Definition MockLLMProvider (service : Service) : LLMServiceProvider :=
  mkProvider (fun _ => Ok service) [go "mock"] (fun _ => None).

(** [GenerateSlug] as [TestGenerateSlug_DatabaseIntegration] calls it, on
    the table of package [db]. *)
Definition slug_for (lower : rune -> rune) (space : rune -> bool)
    (responseText : gostring) (d : DB.table) (conversationID : gostring)
  : DB.table * result gostring * list gostring :=
  GenerateSlug lower space DB.table DB.UpdateConversationSlug
    (MockLLMProvider (MockLLMService responseText))
    d conversationID (go "Test message") (go "test-model").

(** Three conversations, each created and then given a slug, the model
    answering "test-slug" every time: the three results and the slugs in
    the table at the end. *)
Definition three_slugs (lower : rune -> rune) (space : rune -> bool)
  : list (result gostring) * list (option gostring) :=
  let d := fst (DB.CreateConversation 0 (go "conv1") None []) in
  let '(d, r1, _) := slug_for lower space (go "test-slug") d (go "conv1") in
  let d := fst (DB.CreateConversation 0 (go "conv2") None d) in
  let '(d, r2, _) := slug_for lower space (go "test-slug") d (go "conv2") in
  let d := fst (DB.CreateConversation 0 (go "conv3") None d) in
  let '(d, r3, _) := slug_for lower space (go "test-slug") d (go "conv3") in
  ([r1; r2; r3], List.map DB.Slug d).

(** A table where "test-slug" and "test-slug-1" to "test-slug-99" are
    taken, and a new conversation without a slug. *)
Definition taken_table : DB.table :=
  List.map (fun k => DB.mkConversation (go "c" ++ itoa k)
                       (Some (candidate (go "test-slug") k)) 0 0 false)
           (seq 0 100)
  ++ [DB.mkConversation (go "new") None 0 0 false].

Definition ascii_lower : rune -> rune := fun r => r.
Definition ascii_space : rune -> bool := fun _ => false.

(** C5, as the specification words it, fails on [taken_table]: the
    allocator makes 100 attempts, the last with the suffix 99, and gives up;
    it never tries the hundredth suffix, "test-slug-100", which is free. *)
Lemma GenerateSlug_gives_up_after_suffix_99 :
  slug_for ascii_lower ascii_space (go "test-slug") taken_table (go "new")
  = (taken_table, Err errGiveUp, List.map (candidate (go "test-slug")) (seq 0 100)) /\
  last (List.map (candidate (go "test-slug")) (seq 0 100)) = Some (go "test-slug-99") /\
  length (List.map (candidate (go "test-slug")) (seq 0 100)) = 100 /\
  snd (DB.UpdateConversationSlug taken_table (go "new") (go "test-slug-100")) = None.
Proof. vm_compute. repeat split. Qed.

(** C5 (amended): when persisting the candidate fails with a
    unique-constraint violation, [GenerateSlug] retries with candidate-1,
    candidate-2, ... up to candidate-99, that is 100 attempts with the
    candidate itself, and then gives up with "failed to generate unique slug
    after 100 attempts"; on an error that is not a uniqueness violation it
    stops at once and returns that error, wrapped; the first attempt that
    succeeds gives the slug. Three conversations whose model answers
    "test-slug" get "test-slug", "test-slug-1" and "test-slug-2" in creation
    order. *)
Theorem GenerateSlug_retries_on_conflict (lower : rune -> rune) (space : rune -> bool) :
  (forall (D : Type) (Update : D -> gostring -> gostring -> D * option gostring)
          (p : LLMServiceProvider) (d : D) (conv msg model base : gostring),
     generateSlugText lower space p msg model = Ok base ->
     (forall k, k < 100 ->
        conflicts_before lower D Update d conv base k ->
        attempt_error D Update d conv base k = None ->
        GenerateSlug lower space D Update p d conv msg model
        = (db_before D Update d conv base (S k), Ok (candidate base k),
           List.map (candidate base) (seq 0 (S k)))) /\
     (forall k err, k < 100 ->
        conflicts_before lower D Update d conv base k ->
        attempt_error D Update d conv base k = Some err ->
        isUniqueViolation lower err = false ->
        GenerateSlug lower space D Update p d conv msg model
        = (db_before D Update d conv base (S k),
           Err (go "failed to update conversation slug: " ++ err),
           List.map (candidate base) (seq 0 (S k)))) /\
     (conflicts_before lower D Update d conv base 100 ->
        GenerateSlug lower space D Update p d conv msg model
        = (db_before D Update d conv base 100, Err errGiveUp,
           List.map (candidate base) (seq 0 100)))) /\
  three_slugs lower space
  = ([Ok (go "test-slug"); Ok (go "test-slug-1"); Ok (go "test-slug-2")],
     [Some (go "test-slug"); Some (go "test-slug-1"); Some (go "test-slug-2")]).
Proof.
  split; [|reflexivity].
  intros D Update p d conv msg model base Hbase.
  unfold GenerateSlug. rewrite Hbase.
  apply updateLoop_outcomes.
Qed.

(** The second conversation of the scenario: one conflict, then success. *)
Lemma GenerateSlug_retries_on_conflict_witness :
  slug_for ascii_lower ascii_space (go "test-slug")
    [DB.mkConversation (go "conv1") (Some (go "test-slug")) 0 0 false;
     DB.mkConversation (go "conv2") None 0 0 false]
    (go "conv2")
  = ([DB.mkConversation (go "conv1") (Some (go "test-slug")) 0 0 false;
      DB.mkConversation (go "conv2") (Some (go "test-slug-1")) 0 0 false],
     Ok (go "test-slug-1"),
     [go "test-slug"; go "test-slug-1"]).
Proof.
  refine (proj1 (proj1 (GenerateSlug_retries_on_conflict ascii_lower ascii_space)
                   DB.table DB.UpdateConversationSlug
                   (MockLLMProvider (MockLLMService (go "test-slug")))
                   [DB.mkConversation (go "conv1") (Some (go "test-slug")) 0 0 false;
                    DB.mkConversation (go "conv2") None 0 0 false]
                   (go "conv2") (go "Test message") (go "test-model") (go "test-slug")
                   eq_refl) 1 _ _ _).
  - lia.
  - intros j Hj. assert (j = 0) as -> by lia.
    exists DB.errUnique. split; reflexivity.
  - reflexivity.
Defined.




(** The cases of [TestSanitize] and [TestHasTag]. *)
Example test_Sanitize (lower : rune -> rune) :
  List.map (Sanitize lower)
    [go "Simple Test"; go "Create a Python Script"; go "Multiple   Spaces";
     go "Special@#$%Characters"; go "Under_Score_Test"; go "--multiple-hyphens--";
     go "CamelCase Example"; go "123 Numbers Test 456"; go "   leading and trailing   "; [];
     go "Very Long Slug That Might Need To Be Truncated Because It Is Too Long For Normal Use"]
  = [go "simple-test"; go "create-a-python-script"; go "multiple-spaces";
     go "specialcharacters"; go "under-score-test"; go "multiple-hyphens";
     go "camelcase-example"; go "123-numbers-test-456"; go "leading-and-trailing"; [];
     go "very-long-slug-that-might-need-to-be-truncated-because-it-is"].
Proof. reflexivity. Qed.

Example test_hasTag (space : rune -> bool) :
  List.map (fun '(tags, tag) => hasTag space tags tag)
    [(go "slug", go "slug"); (go "slug-backup", go "slug");
     (go "slug,slug-backup", go "slug"); (go "slug,slug-backup", go "slug-backup");
     (go "foo, slug , bar", go "slug"); ([], go "slug"); (go "slug", [])]
  = [true; false; true; true; true; false; false].
Proof. reflexivity. Qed.

End Slug.

(* ===================================================================== *)
(** * Package browse: the port-80 guard of the navigate action            *)
(* ===================================================================== *)

Module Browse.

(** URLs and tool messages are byte strings. *)

Definition byte_in (lo hi : N) (c : ascii) : bool :=
  (lo <=? N_of_ascii c)%N && (N_of_ascii c <=? hi)%N.

Definition is_byte (n : N) (c : ascii) : bool := N.eqb (N_of_ascii c) n.

Fixpoint HasPrefix (s prefix : string) : bool :=
  match prefix, s with
  | EmptyString, _ => true
  | String p prefix', String a s' => Ascii.eqb a p && HasPrefix s' prefix'
  | String _ _, EmptyString => false
  end.

Fixpoint Contains (s substr : string) : bool :=
  HasPrefix s substr ||
  match s with
  | EmptyString => false
  | String _ s' => Contains s' substr
  end.

(** [strings.Cut(s, sep)] for a separator of one byte: the text before the
    first separator and the text after it, or [s] and nothing. *)
Fixpoint Cut (s : string) (sep : ascii) : string * string :=
  match s with
  | EmptyString => (EmptyString, EmptyString)
  | String a s' =>
      if Ascii.eqb a sep then (EmptyString, s')
      else let '(before, after) := Cut s' sep in (String a before, after)
  end.

(** Split at the last occurrence of [sep], which stays at the head of the
    second part: [(s[:i], s[i:])] for [i = strings.LastIndexByte(s, sep)],
    or [None] when there is none. *)
Fixpoint cutLast (s : string) (sep : ascii) : option (string * string) :=
  match s with
  | EmptyString => None
  | String a s' =>
      match cutLast s' sep with
      | Some (before, after) => Some (String a before, after)
      | None => if Ascii.eqb a sep then Some (EmptyString, s) else None
      end
  end.

Fixpoint all_bytes (f : ascii -> bool) (s : string) : bool :=
  match s with
  | EmptyString => true
  | String a s' => f a && all_bytes f s'
  end.

Definition lower_byte (c : ascii) : ascii :=
  if byte_in 65 90 c then ascii_of_N (N_of_ascii c + 32) else c.

Fixpoint lower_ascii (s : string) : string :=
  match s with
  | EmptyString => EmptyString
  | String a s' => String (lower_byte a) (lower_ascii s')
  end.

(** [url.URL], of which [isPort80] reads [Scheme] and, through [Port()],
    [Host]. *)
Record URL := mkURL {
  Scheme : string;
  Host : string
}.

(** Package [net/url] of Go's library, [validOptionalPort]: empty, or a
    colon followed by digits. *)
Definition validOptionalPort (port : string) : bool :=
  match port with
  | EmptyString => true
  | String c digits => is_byte 58 c && all_bytes (byte_in 48 57) digits
  end.

(** [splitHostPort] and the method [Port] of [URL]: the digits after the last colon of
    the host, when only digits follow it. *)
Definition splitHostPort (hostPort : string) : string * string :=
  match cutLast hostPort ":" with
  | Some (host, String _ port as colonPort) =>
      if validOptionalPort colonPort then (host, port) else (hostPort, EmptyString)
  | _ => (hostPort, EmptyString)
  end.

Definition Port (u : URL) : string := snd (splitHostPort (Host u)).

(** ** A model of [url.Parse] *)

(** [getScheme]: the scheme and the rest, [None] for the error
    "missing protocol scheme". [seen] is [rawURL[:i]], the text before the
    position [i] of the loop, and [rest] is [rawURL[i:]]. *)
Fixpoint getScheme_from (rawURL : string) (seen : string) (rest : string)
  : option (string * string) :=
  match rest with
  | EmptyString => Some (EmptyString, rawURL)
  | String c rest' =>
      if byte_in 97 122 c || byte_in 65 90 c then
        getScheme_from rawURL (seen ++ String c EmptyString) rest'
      else if byte_in 48 57 c || is_byte 43 c || is_byte 45 c || is_byte 46 c then
        match seen with
        | EmptyString => Some (EmptyString, rawURL)
        | _ => getScheme_from rawURL (seen ++ String c EmptyString) rest'
        end
      else if is_byte 58 c then
        match seen with
        | EmptyString => None
        | _ => Some (seen, rest')
        end
      else Some (EmptyString, rawURL)
  end.

Definition getScheme (rawURL : string) : option (string * string) :=
  getScheme_from rawURL EmptyString rawURL.

(** [parseHost], as far as the port goes: an IP literal in brackets may be
    followed by an optional port; otherwise what follows the last colon
    must be digits. *)
Definition parseHost (host : string) : option string :=
  if HasPrefix host "[" then
    match cutLast host "]" with
    | None => None
    | Some (_, String _ colonPort) =>
        if validOptionalPort colonPort then Some host else None
    | Some (_, EmptyString) => None
    end
  else
    match cutLast host ":" with
    | Some (_, colonPort) => if validOptionalPort colonPort then Some host else None
    | None => Some host
    end.

(** [parseAuthority]: the host is what follows the last "@". *)
Definition parseAuthority (authority : string) : option string :=
  match cutLast authority "@" with
  | Some (_, String _ host) => parseHost host
  | _ => parseHost authority
  end.

(** Modelled on the documented behaviour of [url.Parse] (Go's library, not
    part of the sources): the fragment is cut off, control bytes are
    refused, the scheme is split off and lower-cased, the query is cut
    off, and an authority after "//" gives the host. Percent-escapes, user
    information and the bytes of the host and of the path are taken as
    valid. [None] is a parse error. *)
Definition url_Parse (rawURL : string) : option URL :=
  let u := fst (Cut rawURL "#") in
  if negb (all_bytes (fun c => negb (byte_in 0 31 c || is_byte 127 c)) u) then None
  else if String.eqb u "*" then Some (mkURL EmptyString EmptyString)
  else
    match getScheme u with
    | None => None
    | Some (scheme, rest) =>
        let scheme := lower_ascii scheme in
        let rest := fst (Cut rest "?") in
        if negb (HasPrefix rest "/") then
          match scheme with
          | String _ _ => Some (mkURL scheme EmptyString)
          | EmptyString =>
              if Contains (fst (Cut rest "/")) ":" then None
              else Some (mkURL scheme EmptyString)
          end
        else if HasPrefix rest "//" &&
                (negb (String.eqb scheme EmptyString) || negb (HasPrefix rest "///")) then
          match rest with
          | String _ (String _ after) =>
              match parseAuthority (fst (Cut after "/")) with
              | None => None
              | Some host => Some (mkURL scheme host)
              end
          | _ => None
          end
        else Some (mkURL scheme EmptyString)
    end.

(** ** The navigate action *)

Record navigateInput := mkNavigateInput {
  InputURL : string;
  InputTimeout : string
}.

(** [llm.ToolOut]: an error, or text content for the model. *)
Inductive ToolOut :=
| ErrorToolOut (err : string)
| TextToolOut (text : string).

Record DownloadInfo := mkDownloadInfo {
  SuggestedFilename : string;
  DownloadURL : string;
  FinalPath : string;
  DownloadError : string
}.

(** What the action does to the browser, in order. *)
Inductive event :=
| EvGetBrowserContext
| EvNavigate (url timeout : string)
| EvSleep500ms
| EvGetRecentDownloads.

(** How the browser answers one run of the action: the error of
    [GetBrowserContext] and of [chromedp.Run], if any, and the completed
    downloads. *)
Record browser := mkBrowser {
  GetBrowserContext : option string;
  Run : string -> string -> option string;
  GetRecentDownloads : list DownloadInfo
}.

Definition port80_message : string :=
  "port 80 is not the port you're looking for--port 80 is the main sketch server".

Definition newline : string := String (ascii_of_N 10) EmptyString.

Definition download_line (d : DownloadInfo) : string :=
  match DownloadError d with
  | EmptyString =>
      newline ++ "  - " ++ SuggestedFilename d ++ " (from " ++ DownloadURL d
        ++ ") saved to: " ++ FinalPath d
  | _ =>
      newline ++ "  - " ++ SuggestedFilename d ++ " (from " ++ DownloadURL d
        ++ "): ERROR: " ++ DownloadError d
  end.

Definition toolOutWithDownloads (b : browser) (message : string) : ToolOut :=
  match GetRecentDownloads b with
  | [] => TextToolOut message
  | downloads =>
      TextToolOut (message ++ newline ++ newline ++ "Downloads completed:"
                     ++ String.concat EmptyString (List.map download_line downloads))
  end.

Section Parser.

(** [url.Parse], whatever it does: [None] is an error. *)
Variable parse : string -> option URL.

Definition isPort80 (urlStr : string) : bool :=
  match parse urlStr with
  | None => false
  | Some parsedURL =>
      let port := Port parsedURL in
      String.eqb port "80" ||
      (String.eqb port EmptyString && String.eqb (Scheme parsedURL) "http")
  end.

(** [navigateRun]: [m] is the outcome of [json.Unmarshal], an error or
    the input. The result is the tool output and what was done to the
    browser. *)
Definition navigateRun (b : browser) (m : string + navigateInput)
  : ToolOut * list event :=
  match m with
  | inl err => (ErrorToolOut ("invalid input: " ++ err), [])
  | inr input =>
      if isPort80 (InputURL input) then (ErrorToolOut port80_message, [])
      else
        match GetBrowserContext b with
        | Some err => (ErrorToolOut err, [EvGetBrowserContext])
        | None =>
            let ran := [EvGetBrowserContext;
                        EvNavigate (InputURL input) (InputTimeout input)] in
            match Run b (InputURL input) (InputTimeout input) with
            | Some err =>
                if Contains err "net::ERR_ABORTED" then
                  match GetRecentDownloads b with
                  | [] => (ErrorToolOut err, ran ++ [EvSleep500ms; EvGetRecentDownloads])
                  | downloads =>
                      (TextToolOut ("Navigation triggered download(s):"
                                      ++ String.concat EmptyString
                                           (List.map download_line downloads)),
                       ran ++ [EvSleep500ms; EvGetRecentDownloads])
                  end
                else (ErrorToolOut err, ran)
            | None => (toolOutWithDownloads b "done", ran ++ [EvGetRecentDownloads])
            end
        end
  end.

End Parser.

(** ** The guard *)

Lemma isPort80_iff (parse : string -> option URL) (urlStr : string) :
  isPort80 parse urlStr = true <->
  exists u, parse urlStr = Some u /\
    (Port u = "80" \/ (Port u = EmptyString /\ Scheme u = "http")).
Proof.
  unfold isPort80. destruct (parse urlStr) as [u|].
  - cbv zeta. rewrite orb_true_iff, andb_true_iff, !String.eqb_eq. split.
    + intros H. exists u. split; [reflexivity|exact H].
    + intros (u' & [= <-] & H). exact H.
  - split; [discriminate|]. intros (u & Hu & _). discriminate.
Qed.

(** The cases of [TestIsPort80], on the model of [url.Parse]. *)
Example test_isPort80 :
  List.map (isPort80 url_Parse)
    ["http://example.com:80"; "http://example.com"; "https://example.com:80";
     "http://example.com:8080"; "https://example.com"; "https://example.com:443";
     "invalid-url"; "ftp://example.com:80"]
  = [true; true; true; false; false; false; false; true].
Proof. reflexivity. Qed.

(** C8: [isPort80(url)] holds exactly when the URL parses and either has
    the explicit port "80" or has no explicit port and the scheme "http";
    on such a URL [navigateRun] returns the port-80 error before it does
    anything to the browser. A URL that does not parse is not rejected by
    the guard: the action goes on to the browser. On the model of
    [url.Parse], "https://example.com:443" is not port 80 and
    "ftp://example.com:80" is. *)
Theorem navigate_rejects_port_80 :
  (forall (parse : string -> option URL) (urlStr : string),
     isPort80 parse urlStr = true <->
     exists u, parse urlStr = Some u /\
       (Port u = "80" \/ (Port u = EmptyString /\ Scheme u = "http"))) /\
  (forall (parse : string -> option URL) (b : browser) (input : navigateInput),
     isPort80 parse (InputURL input) = true ->
     navigateRun parse b (inr input) = (ErrorToolOut port80_message, [])) /\
  (forall (parse : string -> option URL) (b : browser) (input : navigateInput),
     parse (InputURL input) = None ->
     isPort80 parse (InputURL input) = false /\
     exists out rest, navigateRun parse b (inr input) = (out, EvGetBrowserContext :: rest)) /\
  isPort80 url_Parse "https://example.com:443" = false /\
  isPort80 url_Parse "ftp://example.com:80" = true /\
  (forall b timeout,
     navigateRun url_Parse b (inr (mkNavigateInput "http://example.com" timeout))
     = (ErrorToolOut port80_message, [])).
Proof.
  split; [exact isPort80_iff|]. split; [|split; [|repeat split]].
  - intros parse b input H. unfold navigateRun. rewrite H. reflexivity.
  - intros parse b input H.
    assert (Hp : isPort80 parse (InputURL input) = false).
    { unfold isPort80. rewrite H. reflexivity. }
    split; [exact Hp|]. unfold navigateRun. rewrite Hp.
    destruct (GetBrowserContext b) as [err|]; [eexists _, _; reflexivity|].
    destruct (Run b (InputURL input) (InputTimeout input)) as [err|].
    + destruct (Contains err "net::ERR_ABORTED");
        [destruct (GetRecentDownloads b)|]; eexists _, _; reflexivity.
    + eexists _, _. reflexivity.
Qed.

Lemma navigate_rejects_port_80_witness :
  navigateRun url_Parse (mkBrowser None (fun _ _ => None) [])
    (inr (mkNavigateInput "https://example.com:80/index.html?q=1#top" "5s"))
  = (ErrorToolOut port80_message, []).
Proof.
  exact (proj1 (proj2 navigate_rejects_port_80) url_Parse
           (mkBrowser None (fun _ _ => None) [])
           (mkNavigateInput "https://example.com:80/index.html?q=1#top" "5s")
           eq_refl).
Defined.

End Browse.

(* ===================================================================== *)
(** * Package subpub: what the bus keeps and what it never does           *)
(* ===================================================================== *)

Module BusProps.

Import SubPub.

Section Bus.

Context {K : Type}.

(** One step of the bus or of its surroundings. *)
Inductive step : state K -> state K -> Prop :=
| step_Subscribe s parent_done i : step s (fst (Subscribe parent_done i s))
| step_Publish s i message s' : Publish i message s = Some s' -> step s s'
| step_Broadcast s message s' : Broadcast message s = Some s' -> step s s'
| step_NextFn s a pick v s' : NextFn a pick s = Some (v, s') -> step s s'
| step_cancel s a : step s (cancel_ctx a s).

(** Any number of steps. *)
Inductive steps : state K -> state K -> Prop :=
| steps_refl s : steps s s
| steps_step s1 s2 s3 : step s1 s2 -> steps s2 s3 -> steps s1 s3.

(** How a subscriber record may change: its index does not go down, a
    closed channel stays closed, a fired cancel token stays fired. *)
Definition evolves (sub sub' : subscriber K) : Prop :=
  (idx sub <= idx sub')%Z /\
  (closed (ch sub) = true -> closed (ch sub') = true) /\
  (ctx_done sub = true -> ctx_done sub' = true).

Lemma evolves_refl (sub : subscriber K) : evolves sub sub.
Proof. repeat split; auto. lia. Qed.

Lemma evolves_trans (x y z : subscriber K) : evolves x y -> evolves y z -> evolves x z.
Proof. intros (H1 & H2 & H3) (H4 & H5 & H6). repeat split; auto. lia. Qed.

Lemma filter_sublist (f : nat -> bool) (l : list nat) : sublist (List.filter f l) l.
Proof.
  induction l as [|x l IH]; simpl; [constructor|].
  destruct (f x); [apply sublist_skip|apply sublist_cons]; exact IH.
Qed.

(** What a run of the loop does to any allocated subscriber. *)
Lemma run_loop_every body (s s' : state K) (a : nat) (sub : subscriber K) :
  bus_inv s -> sound_body body -> run_loop body s = Some s' ->
  heap s !! a = Some sub ->
  exists sub', heap s' !! a = Some sub' /\
    (((a ∉ subscribers s) /\ (a ∉ subscribers s') /\ sub' = sub) \/
     ((a ∈ subscribers s) /\ exists keep, body sub = Some (sub', keep) /\
        (a ∈ subscribers s' <-> keep = true))).
Proof.
  intros Hinv Hbody Hrun Hsub.
  destruct (run_loop_spec body s Hinv Hbody) as (s'' & Hrun' & Hsubs & Hout & Hin).
  rewrite Hrun in Hrun'. injection Hrun' as <-.
  destruct (decide (a ∈ subscribers s)) as [Ha|Ha].
  - destruct (Hin a sub Ha Hsub) as (sub' & keep & Hb & Hs').
    exists sub'. split; [exact Hs'|]. right. split; [exact Ha|].
    exists keep. split; [exact Hb|].
    exact (proj2 (run_loop_at body s s' a sub sub' keep Hinv Hbody Hrun Ha Hsub Hb)).
  - exists sub. split; [rewrite (Hout a Ha); exact Hsub|]. left.
    split; [exact Ha|]. split; [|reflexivity].
    rewrite Hsubs. intros Hin'. apply Ha.
    apply list_elem_of_In in Hin'. apply List.filter_In in Hin'.
    apply list_elem_of_In. exact (proj1 Hin').
Qed.

Lemma publish_sub_cases (i : Z) (message : K) (sub sub' : subscriber K) (keep : bool) :
  closed (ch sub) = false ->
  publish_sub i message sub = Some (sub', keep) ->
  evolves sub sub' /\
  (buf (ch sub') = buf (ch sub) \/
   ((idx sub < i)%Z /\ idx sub' = i /\ buf (ch sub') = buf (ch sub) ++ [message])) /\
  (keep = false ->
   ctx_done sub = true \/ ((idx sub < i)%Z /\ chanCap <= length (buf (ch sub)))).
Proof.
  intros Hc. unfold publish_sub, chan_try_send, chan_close, evolves. rewrite Hc.
  destruct (ctx_done sub) eqn:Hd.
  - intros [= <- <-]. simpl. repeat split; auto; try lia; try congruence.
  - destruct (idx sub <? i)%Z eqn:Hi.
    + apply Z.ltb_lt in Hi.
      destruct (Nat.ltb (length (buf (ch sub))) chanCap) eqn:Hl.
      * intros [= <- <-]. simpl. repeat split; auto; try lia; try discriminate.
      * apply Nat.ltb_ge in Hl. intros [= <- <-]. simpl.
        repeat split; auto; try lia; try discriminate;
        try (intros _; right; auto).
    + intros [= <- <-]. repeat split; auto; try lia; try discriminate.
Qed.

Lemma broadcast_sub_cases (message : K) (sub sub' : subscriber K) (keep : bool) :
  closed (ch sub) = false ->
  broadcast_sub message sub = Some (sub', keep) ->
  evolves sub sub' /\ idx sub' = idx sub /\
  (keep = false -> ctx_done sub = true \/ chanCap <= length (buf (ch sub))).
Proof.
  intros Hc. unfold broadcast_sub, chan_try_send, chan_close, evolves. rewrite Hc.
  destruct (ctx_done sub) eqn:Hd.
  - intros [= <- <-]. simpl. repeat split; auto; try lia; try congruence.
  - destruct (Nat.ltb (length (buf (ch sub))) chanCap) eqn:Hl.
    + intros [= <- <-]. simpl. repeat split; auto; try lia; try discriminate.
    + apply Nat.ltb_ge in Hl. intros [= <- <-]. simpl.
      repeat split; auto; try lia; try discriminate;
        try (intros _; right; auto).
Qed.

Lemma full_mailbox (s : state K) (a : nat) (sub : subscriber K) :
  bus_inv s -> heap s !! a = Some sub ->
  chanCap <= length (buf (ch sub)) -> length (buf (ch sub)) = 10.
Proof.
  intros Hinv Hsub Hfull. pose proof (inv_cap s Hinv a sub Hsub) as Hcap.
  unfold chanCap in *. lia.
Qed.

(** X1: A subscriber leaves the bus only when its cancel token has fired or
    when its mailbox is full at a delivery; [Publish] never adds a
    subscriber and keeps the others in their order. *)
Theorem Publish_drops_only_cancelled_or_full (s : state K) (i : Z) (message : K) :
  reachable s ->
  exists s', Publish i message s = Some s' /\
    sublist (subscribers s') (subscribers s) /\
    (forall a sub, a ∈ subscribers s -> heap s !! a = Some sub ->
       a ∉ subscribers s' ->
       ctx_done sub = true \/
       ((idx sub < i)%Z /\ length (buf (ch sub)) = 10)).
Proof.
  intros Hreach. pose proof (reachable_inv s Hreach) as Hinv.
  pose proof (publish_sub_sound i message) as Hsound.
  destruct (run_loop_spec _ s Hinv Hsound) as (s' & Hrun & Hsubs & _).
  exists s'. split; [exact Hrun|]. split.
  - rewrite Hsubs. apply filter_sublist.
  - intros a sub Ha Hsub Hout.
    destruct (run_loop_every _ s s' a sub Hinv Hsound Hrun Hsub)
      as (sub' & _ & [[Hno _]|[_ (keep & Hb & Hk)]]); [contradiction|].
    destruct keep; [exfalso; apply Hout, Hk; reflexivity|].
    destruct (publish_sub_cases i message sub sub' false
                (listed_open s a sub Hinv Ha Hsub) Hb) as (_ & _ & Hwhy).
    destruct (Hwhy eq_refl) as [Hd|[Hi Hfull]]; [left; exact Hd|right].
    split; [exact Hi|]. exact (full_mailbox s a sub Hinv Hsub Hfull).
Qed.

(** X2: [Broadcast] changes no subscriber's index, whether it delivers to it,
    drops it or does not know it any more; it drops a subscriber only when
    its cancel token has fired or its mailbox is full. *)
Theorem Broadcast_keeps_since_index (s : state K) (message : K) :
  reachable s ->
  exists s', Broadcast message s = Some s' /\
    sublist (subscribers s') (subscribers s) /\
    (forall a sub, heap s !! a = Some sub ->
       exists sub', heap s' !! a = Some sub' /\ idx sub' = idx sub) /\
    (forall a sub, a ∈ subscribers s -> heap s !! a = Some sub ->
       a ∉ subscribers s' ->
       ctx_done sub = true \/ length (buf (ch sub)) = 10).
Proof.
  intros Hreach. pose proof (reachable_inv s Hreach) as Hinv.
  pose proof (broadcast_sub_sound message) as Hsound.
  destruct (run_loop_spec _ s Hinv Hsound) as (s' & Hrun & Hsubs & _).
  exists s'. split; [exact Hrun|]. split; [|split].
  - rewrite Hsubs. apply filter_sublist.
  - intros a sub Hsub.
    destruct (run_loop_every _ s s' a sub Hinv Hsound Hrun Hsub)
      as (sub' & Hs' & [(_ & _ & ->)|[Ha (keep & Hb & _)]]).
    + exists sub. split; [exact Hs'|reflexivity].
    + exists sub'. split; [exact Hs'|].
      exact (proj1 (proj2 (broadcast_sub_cases message sub sub' keep
                             (listed_open s a sub Hinv Ha Hsub) Hb))).
  - intros a sub Ha Hsub Hout.
    destruct (run_loop_every _ s s' a sub Hinv Hsound Hrun Hsub)
      as (sub' & _ & [[Hno _]|[_ (keep & Hb & Hk)]]); [contradiction|].
    destruct keep; [exfalso; apply Hout, Hk; reflexivity|].
    destruct (broadcast_sub_cases message sub sub' false
                (listed_open s a sub Hinv Ha Hsub) Hb) as (_ & _ & Hwhy).
    destruct (Hwhy eq_refl) as [Hd|Hfull]; [left; exact Hd|right].
    exact (full_mailbox s a sub Hinv Hsub Hfull).
Qed.

(** X3: [Publish] adds a value to a mailbox only together with a strict
    advance of that subscriber's index to the published index; every other
    mailbox is left as it is. So the indices of the values a subscriber is
    given go strictly up. *)
Theorem Publish_enqueues_only_with_advance (s : state K) (i : Z) (message : K) :
  reachable s ->
  exists s', Publish i message s = Some s' /\
    forall a sub, heap s !! a = Some sub ->
      exists sub', heap s' !! a = Some sub' /\
        (buf (ch sub') = buf (ch sub) \/
         ((idx sub < i)%Z /\ idx sub' = i /\
          buf (ch sub') = buf (ch sub) ++ [message])).
Proof.
  intros Hreach. pose proof (reachable_inv s Hreach) as Hinv.
  pose proof (publish_sub_sound i message) as Hsound.
  destruct (run_loop_spec _ s Hinv Hsound) as (s' & Hrun & _).
  exists s'. split; [exact Hrun|].
  intros a sub Hsub.
  destruct (run_loop_every _ s s' a sub Hinv Hsound Hrun Hsub)
    as (sub' & Hs' & [(_ & _ & ->)|[Ha (keep & Hb & _)]]).
  - exists sub. split; [exact Hs'|left; reflexivity].
  - exists sub'. split; [exact Hs'|].
    exact (proj1 (proj2 (publish_sub_cases i message sub sub' keep
                           (listed_open s a sub Hinv Ha Hsub) Hb))).
Qed.

(** ** Over any number of steps *)

Lemma step_inv (s s' : state K) : step s s' -> bus_inv s -> bus_inv s'.
Proof.
  intros Hstep Hinv. destruct Hstep as [s pd i|s i m s' Hp|s m s' Hb|s a pick v s' Hn|s a].
  - apply Subscribe_preserves. exact Hinv.
  - exact (run_loop_preserves _ s s' Hinv (publish_sub_sound i m) Hp).
  - exact (run_loop_preserves _ s s' Hinv (broadcast_sub_sound m) Hb).
  - exact (NextFn_preserves s s' a pick v Hinv Hn).
  - apply cancel_ctx_preserves. exact Hinv.
Qed.

(** One step, seen from one allocated subscriber. *)
Lemma step_subscriber (s s' : state K) (a : nat) (sub : subscriber K) :
  step s s' -> bus_inv s -> heap s !! a = Some sub ->
  exists sub', heap s' !! a = Some sub' /\ evolves sub sub' /\
    ((a ∉ subscribers s) ->
     (a ∉ subscribers s') /\ buf (ch sub') `suffix_of` buf (ch sub)).
Proof.
  intros Hstep Hinv Hsub.
  destruct Hstep as [s pd i|s i m s' Hp|s m s' Hb|s a0 pick v s' Hn|s a0].
  - exists sub. split; [apply lookup_app_l_Some; exact Hsub|].
    split; [apply evolves_refl|]. intros Ha. split; [|reflexivity].
    simpl. intros Hin. apply elem_of_app in Hin. destruct Hin as [Hin|Hin]; [exact (Ha Hin)|].
    apply list_elem_of_singleton in Hin. apply lookup_lt_Some in Hsub. lia.
  - destruct (run_loop_every _ s s' a sub Hinv (publish_sub_sound i m) Hp Hsub)
      as (sub' & Hs' & [(_ & Hout & ->)|[Ha (keep & Hb & _)]]).
    + exists sub. split; [exact Hs'|]. split; [apply evolves_refl|].
      intros _. split; [exact Hout|reflexivity].
    + exists sub'. split; [exact Hs'|]. split; [|intros Hno; contradiction].
      exact (proj1 (publish_sub_cases i m sub sub' keep
                      (listed_open s a sub Hinv Ha Hsub) Hb)).
  - destruct (run_loop_every _ s s' a sub Hinv (broadcast_sub_sound m) Hb Hsub)
      as (sub' & Hs' & [(_ & Hout & ->)|[Ha (keep & Hbody & _)]]).
    + exists sub. split; [exact Hs'|]. split; [apply evolves_refl|].
      intros _. split; [exact Hout|reflexivity].
    + exists sub'. split; [exact Hs'|]. split; [|intros Hno; contradiction].
      exact (proj1 (broadcast_sub_cases m sub sub' keep
                      (listed_open s a sub Hinv Ha Hsub) Hbody)).
  - unfold NextFn in Hn.
    destruct (heap s !! a0) as [sub0|] eqn:Hsub0; [|discriminate].
    destruct (next_sub pick sub0) as [|v' sub0'] eqn:Hnext; [discriminate|].
    injection Hn as <- <-. simpl.
    destruct (decide (a0 = a)) as [->|Hne].
    + rewrite Hsub in Hsub0. injection Hsub0 as <-.
      apply next_sub_returns in Hnext. destruct Hnext as (Hi & Hd & Hc & Hb).
      exists sub0'. split; [apply list_lookup_insert_eq; eapply lookup_lt_Some; exact Hsub|].
      split; [unfold evolves; rewrite Hi, Hd, Hc; repeat split; auto; lia|].
      intros Ha. split; [exact Ha|].
      destruct v' as [m|]; [rewrite Hb; apply suffix_cons_r; reflexivity|].
      destruct Hb as [_ ->]. reflexivity.
    + exists sub. split; [rewrite list_lookup_insert_ne by exact Hne; exact Hsub|].
      split; [apply evolves_refl|]. intros Ha. split; [exact Ha|reflexivity].
  - unfold cancel_ctx.
    destruct (heap s !! a0) as [sub0|] eqn:Hsub0.
    + simpl. destruct (decide (a0 = a)) as [->|Hne].
      * rewrite Hsub in Hsub0. injection Hsub0 as <-.
        eexists. split; [apply list_lookup_insert_eq; eapply lookup_lt_Some; exact Hsub|].
        split; [unfold evolves; simpl; repeat split; auto; lia|].
        intros Ha. split; [exact Ha|reflexivity].
      * exists sub. split; [rewrite list_lookup_insert_ne by exact Hne; exact Hsub|].
        split; [apply evolves_refl|]. intros Ha. split; [exact Ha|reflexivity].
    + exists sub. split; [exact Hsub|]. split; [apply evolves_refl|].
      intros Ha. split; [exact Ha|reflexivity].
Qed.

(** X4: A subscriber record, once allocated, stays; whatever the bus, the
    readers and the contexts do afterwards, its index never goes down, a
    closed mailbox stays closed and a fired cancel token stays fired. *)
Theorem subscriber_records_evolve (s s' : state K) :
  reachable s -> steps s s' ->
  forall a sub, heap s !! a = Some sub ->
    exists sub', heap s' !! a = Some sub' /\
      (idx sub <= idx sub')%Z /\
      (closed (ch sub) = true -> closed (ch sub') = true) /\
      (ctx_done sub = true -> ctx_done sub' = true).
Proof.
  intros Hreach Hsteps. apply reachable_inv in Hreach.
  induction Hsteps as [s|s1 s2 s3 Hstep Hsteps IH]; intros a sub Hsub.
  - exists sub. split; [exact Hsub|]. apply evolves_refl.
  - destruct (step_subscriber s1 s2 a sub Hstep Hreach Hsub) as (sub2 & Hs2 & He & _).
    destruct (IH (step_inv s1 s2 Hstep Hreach) a sub2 Hs2) as (sub3 & Hs3 & He3).
    exists sub3. split; [exact Hs3|]. exact (evolves_trans sub sub2 sub3 He He3).
Qed.

(** X5: A subscriber that is no longer on the bus never comes back, and
    nothing is put into its mailbox any more: whatever happens afterwards,
    its mailbox is what is left of the one it had. *)
Theorem removed_subscriber_stays_out (s s' : state K) (a : nat) (sub : subscriber K) :
  reachable s -> steps s s' ->
  heap s !! a = Some sub -> a ∉ subscribers s ->
  (a ∉ subscribers s') /\
  exists sub', heap s' !! a = Some sub' /\ buf (ch sub') `suffix_of` buf (ch sub).
Proof.
  intros Hreach Hsteps. apply reachable_inv in Hreach. revert sub.
  induction Hsteps as [s|s1 s2 s3 Hstep Hsteps IH]; intros sub Hsub Ha.
  - split; [exact Ha|]. exists sub. split; [exact Hsub|reflexivity].
  - destruct (step_subscriber s1 s2 a sub Hstep Hreach Hsub) as (sub2 & Hs2 & _ & Hout).
    destruct (Hout Ha) as [Ha2 Hsuf2].
    destruct (IH (step_inv s1 s2 Hstep Hreach) sub2 Hs2 Ha2) as (Ha3 & sub3 & Hs3 & Hsuf3).
    split; [exact Ha3|]. exists sub3. split; [exact Hs3|].
    etransitivity; [exact Hsuf3|exact Hsuf2].
Qed.

(** ** Publishing, then reading *)

Lemma next_run_live (picks : nat -> bool) (n : nat) :
  forall sub : subscriber K,
  ctx_done sub = false -> closed (ch sub) = false -> length (buf (ch sub)) < n ->
  next_run picks n sub
    = (buf (ch sub), EndsBlocked, mkSub (idx sub) (mkChan [] false) false).
Proof.
  induction n as [|n IH]; intros [si [b c] d] Hd Hc Hlen; simpl in *; [lia|].
  subst c d. destruct b as [|v rest]; [reflexivity|].
  unfold next_sub, chan_recv. simpl.
  rewrite IH; simpl; [reflexivity|reflexivity|reflexivity|simpl in Hlen; lia].
Qed.

(** X6: A subscriber that joins at index -1 and reads after [n <= 10] values
    were published with the indices 0..n-1 gets exactly these values, in the
    order of publication, one per call; the next call blocks. *)
Theorem published_values_are_read_in_order (s : state K) (m : nat -> K) (n : nat) :
  reachable s -> n <= 10 ->
  exists s' sub,
    publish_from m 0 n (fst (Subscribe false (-1) s)) = Some s' /\
    heap s' !! snd (Subscribe false (-1) s) = Some sub /\
    forall picks,
      next_run picks (S n) sub
      = (List.map m (seq 0 n), EndsBlocked,
         mkSub (Z.of_nat n - 1) (mkChan [] false) false).
Proof.
  intros Hreach Hn. pose proof (reachable_inv s Hreach) as Hinv.
  pose proof (Subscribe_preserves false (-1) s Hinv) as Hinv0.
  set (s0 := fst (Subscribe false (-1) s)) in *.
  set (a := snd (Subscribe false (-1) s)).
  assert (Ha0 : a ∈ subscribers s0).
  { unfold s0, a, Subscribe. simpl. apply elem_of_app. right. left. }
  assert (Hs0 : heap s0 !! a = Some (mkSub (Z.of_nat 0 - 1) (mkChan [] false) false)).
  { unfold s0, a, Subscribe. simpl. apply list_lookup_middle. reflexivity. }
  destruct (publish_from_fills m n 0 s0 a [] Hinv0 Ha0 Hs0)
    as (s' & Hrun & _ & _ & Hs').
  { simpl. unfold chanCap. lia. }
  eexists s', _. split; [exact Hrun|]. split; [exact Hs'|].
  intros picks. rewrite next_run_live; simpl; try reflexivity.
  rewrite length_map, length_seq. lia.
Qed.

End Bus.

(** Concrete runs, with numbers as messages. *)

Lemma Publish_drops_only_cancelled_or_full_witness :
  exists s', Publish 0 7 joined_at_minus_1 = Some s' /\ sublist (subscribers s') [0].
Proof.
  destruct (Publish_drops_only_cancelled_or_full joined_at_minus_1 0 7
              joined_at_minus_1_reachable) as (s' & Hp & Hsub & _).
  exists s'. split; [exact Hp|exact Hsub].
Defined.

Lemma Broadcast_keeps_since_index_witness :
  exists s' sub', Broadcast 7 joined_at_minus_1 = Some s' /\
    heap s' !! 0 = Some sub' /\ idx sub' = (-1)%Z.
Proof.
  destruct (Broadcast_keeps_since_index joined_at_minus_1 7
              joined_at_minus_1_reachable) as (s' & Hb & _ & Hidx & _).
  destruct (Hidx 0 (mkSub (-1) (mkChan [] false) false) eq_refl) as (sub' & Hs' & Hi).
  exists s', sub'. split; [exact Hb|]. split; [exact Hs'|exact Hi].
Defined.

Lemma Publish_enqueues_only_with_advance_witness :
  exists s' sub', Publish 4 7 joined_at_minus_1 = Some s' /\
    heap s' !! 0 = Some sub' /\
    (buf (ch sub') = [] \/ ((-1 < 4)%Z /\ idx sub' = 4%Z /\ buf (ch sub') = [7])).
Proof.
  destruct (Publish_enqueues_only_with_advance joined_at_minus_1 4 7
              joined_at_minus_1_reachable) as (s' & Hp & Hall).
  destruct (Hall 0 (mkSub (-1) (mkChan [] false) false) eq_refl) as (sub' & Hs' & H).
  exists s', sub'. split; [exact Hp|]. split; [exact Hs'|exact H].
Defined.

Lemma subscriber_records_evolve_witness :
  exists sub', heap (cancel_ctx 0 joined_at_minus_1) !! 0 = Some sub' /\
    (-1 <= idx sub')%Z.
Proof.
  destruct (subscriber_records_evolve joined_at_minus_1 (cancel_ctx 0 joined_at_minus_1)
              joined_at_minus_1_reachable
              (steps_step _ _ _ (step_cancel joined_at_minus_1 0) (steps_refl _))
              0 (mkSub (-1) (mkChan [] false) false) eq_refl) as (sub' & Hs' & Hi & _).
  exists sub'. split; [exact Hs'|exact Hi].
Defined.

(** A subscriber that was cancelled and reaped, with one value left. *)
Definition reaped_with_one_value : state nat :=
  mkState [mkSub 0 (mkChan [7] true) true] [].

Lemma reaped_with_one_value_reachable : reachable reaped_with_one_value.
Proof.
  apply (reach_Publish (cancel_ctx 0 (mkState [mkSub 0 (mkChan [7] false) false] [0]))
           1 8 _); [|reflexivity].
  apply reach_cancel.
  apply (reach_Publish joined_at_minus_1 0 7 _ joined_at_minus_1_reachable).
  reflexivity.
Qed.

Lemma removed_subscriber_stays_out_witness :
  0 ∉ subscribers (fst (Subscribe false 3 reaped_with_one_value)).
Proof.
  exact (proj1 (removed_subscriber_stays_out reaped_with_one_value
                  (fst (Subscribe false 3 reaped_with_one_value))
                  0 (mkSub 0 (mkChan [7] true) true)
                  reaped_with_one_value_reachable
                  (steps_step _ _ _ (step_Subscribe reaped_with_one_value false 3)
                     (steps_refl _))
                  eq_refl (not_elem_of_nil 0))).
Defined.

Lemma published_values_are_read_in_order_witness :
  exists s' sub,
    publish_from (fun k => k) 0 3 (fst (Subscribe false (-1) New)) = Some s' /\
    heap s' !! 0 = Some sub /\
    next_run (fun _ => true) 4 sub
    = ([0; 1; 2], EndsBlocked, mkSub 2 (mkChan [] false) false).
Proof.
  destruct (published_values_are_read_in_order New (fun k => k) 3 reach_New)
    as (s' & sub & Hrun & Hs' & Hread); [lia|].
  exists s', sub. split; [exact Hrun|]. split; [exact Hs'|exact (Hread (fun _ => true))].
Defined.

End BusProps.

(* ===================================================================== *)
(** * Package server: what a stream sends                                 *)
(* ===================================================================== *)

Module Stream.

(** [generated.Message], the row of a message, with the fields the stream
    reads. [LlmData] and [UsageData] are [*string]. *)
Record Message := mkMessage {
  SequenceID : Z;
  Type_ : string;
  LlmData : option string;
  UsageData : option string
}.

(** [APIMessage] with the fields the stream reads; [agentWorking] reads
    [Type] and [EndOfTurn] only, which [observed] keeps. *)
Record APIMessage := mkAPIMessage {
  APISequenceID : Z;
  APIType : string;
  APILlmData : option string;
  APIUsageData : option string;
  APIEndOfTurn : option bool
}.

Definition observed (m : APIMessage) : Server.APIMessage :=
  Server.mkAPIMessage (APIType m) (APIEndOfTurn m).

Section Json.

(** [json.Unmarshal] of a payload into [llm.Message], of which
    [EndOfTurn] is read, and into [llm.Usage], of which
    [ContextWindowUsed()] is read; [None] is a decoding error. Both belong to
    packages that are not among the sources. *)
Variable unmarshalEndOfTurn : string -> option bool.
Variable unmarshalContextWindowUsed : string -> option N.

(** [extractEndOfTurn]: the flag, and whether the payload could be read. *)
Definition extractEndOfTurn (raw : string) : bool * bool :=
  match unmarshalEndOfTurn raw with
  | None => (false, false)
  | Some endOfTurn => (endOfTurn, true)
  end.

(** The body of the loop of [toAPIMessages]. *)
Definition toAPIMessage (msg : Message) : APIMessage :=
  let endOfTurnPtr :=
    match LlmData msg with
    | Some raw =>
        if String.eqb (Type_ msg) Server.MessageTypeAgent then
          match extractEndOfTurn raw with
          | (endOfTurn, true) => Some endOfTurn
          | (_, false) => None
          end
        else None
    | None => None
    end in
  mkAPIMessage (SequenceID msg) (Type_ msg) (LlmData msg) (UsageData msg) endOfTurnPtr.

Definition toAPIMessages (messages : list Message) : list APIMessage :=
  List.map toAPIMessage messages.

(** [isEndOfTurn]; [None] is the nil pointer. *)
Definition isEndOfTurn (msg : option Message) : bool :=
  match msg with
  | None => false
  | Some msg =>
      if String.eqb (Type_ msg) Server.MessageTypeError then true
      else if String.eqb (Type_ msg) Server.MessageTypeGitInfo then true
      else if negb (String.eqb (Type_ msg) Server.MessageTypeAgent) then false
      else
        match LlmData msg with
        | None => false
        | Some raw =>
            match extractEndOfTurn raw with
            | (_, false) => false
            | (endOfTurn, true) => endOfTurn
            end
        end
  end.

(** The loop of [calculateContextWindowSize],
    [for i := len(messages) - 1; i >= 0; i--]; [n] is [i + 1]. *)
Fixpoint lastContextWindowUsed (messages : list APIMessage) (n : nat) : N :=
  match n with
  | O => 0%N
  | S i =>
      match nth_error messages i with
      | None => 0%N
      | Some msg =>
          match APIUsageData msg with
          | None => lastContextWindowUsed messages i
          | Some raw =>
              match unmarshalContextWindowUsed raw with
              | None => lastContextWindowUsed messages i
              | Some ctxUsed =>
                  if N.eqb ctxUsed 0 then lastContextWindowUsed messages i
                  else ctxUsed
              end
          end
      end
  end.

Definition calculateContextWindowSize (messages : list APIMessage) : N :=
  lastContextWindowUsed messages (length messages).

Definition calculateContextWindowSizeFromMsg (msg : option Message) : N :=
  match msg with
  | None => 0%N
  | Some msg =>
      match UsageData msg with
      | None => 0%N
      | Some raw =>
          match unmarshalContextWindowUsed raw with
          | None => 0%N
          | Some ctxUsed => ctxUsed
          end
      end
  end.

(** The two flags a client sees: the one of the first event of a stream,
    computed by [handleStreamConversation] from all the messages, and the one
    of a later event, computed by [notifySubscribersNewMessage] from the new
    message alone. *)
Definition hydrated_agent_working (messages : list Message) : bool :=
  Server.agentWorking (List.map observed (toAPIMessages messages)).

Definition streamed_agent_working (newMsg : Message) : bool :=
  negb (isEndOfTurn (Some newMsg)).

(** The context window a message alone accounts for. *)
Definition usage_of (m : APIMessage) : N :=
  match APIUsageData m with
  | None => 0%N
  | Some raw =>
      match unmarshalContextWindowUsed raw with
      | None => 0%N
      | Some ctxUsed => ctxUsed
      end
  end.

Lemma lastContextWindowUsed_prefix (l r : list APIMessage) (n : nat) :
  n <= length l -> lastContextWindowUsed (l ++ r) n = lastContextWindowUsed l n.
Proof.
  induction n as [|i IH]; intros Hn; simpl; [reflexivity|].
  rewrite nth_error_app1 by lia. rewrite IH by lia. reflexivity.
Qed.

Lemma calculateContextWindowSize_snoc (l : list APIMessage) (m : APIMessage) :
  calculateContextWindowSize (l ++ [m])
  = if N.eqb (usage_of m) 0 then calculateContextWindowSize l else usage_of m.
Proof.
  unfold calculateContextWindowSize, usage_of.
  rewrite length_app, Nat.add_comm. simpl.
  rewrite nth_error_app2 by lia. rewrite Nat.sub_diag. simpl.
  rewrite lastContextWindowUsed_prefix by lia.
  destruct (APIUsageData m) as [raw|]; [|reflexivity].
  destruct (unmarshalContextWindowUsed raw) as [u|]; reflexivity.
Qed.

Lemma calculateContextWindowSize_zero (l : list APIMessage) :
  calculateContextWindowSize l = 0%N <-> forallb (fun m => N.eqb (usage_of m) 0) l = true.
Proof.
  induction l as [|m l IH] using rev_ind; [split; reflexivity|].
  rewrite calculateContextWindowSize_snoc, forallb_app. simpl.
  destruct (N.eqb (usage_of m) 0) eqn:Hm.
  - rewrite IH, !andb_true_r. reflexivity.
  - rewrite andb_false_r. apply N.eqb_neq in Hm. split; [contradiction|discriminate].
Qed.

(** X7: [calculateContextWindowSize] gives the usage of the last message that
    has one, and 0 exactly when no message has one. *)
Theorem context_window_is_last_usage (pre post : list APIMessage) (m : APIMessage) :
  (calculateContextWindowSize (pre ++ m :: post) = 0%N <->
   forallb (fun x => N.eqb (usage_of x) 0) (pre ++ m :: post) = true) /\
  (usage_of m <> 0%N ->
   forallb (fun x => N.eqb (usage_of x) 0) post = true ->
   calculateContextWindowSize (pre ++ m :: post) = usage_of m).
Proof.
  split; [apply calculateContextWindowSize_zero|].
  intros Hm Hpost. revert Hpost.
  induction post as [|x post IH] using rev_ind; intros Hpost.
  - rewrite calculateContextWindowSize_snoc.
    apply N.eqb_neq in Hm. rewrite Hm. reflexivity.
  - rewrite forallb_app in Hpost. apply andb_prop in Hpost. destruct Hpost as [Hpost Hx].
    simpl in Hx. rewrite andb_true_r in Hx.
    change (pre ++ m :: post ++ [x]) with (pre ++ (m :: post) ++ [x]).
    rewrite app_assoc, calculateContextWindowSize_snoc, Hx. exact (IH Hpost).
Qed.

(** X8: A client that starts from the size of the first event and then takes
    the size of each later event unless it is 0 always holds the size a new
    stream would start from: for the messages so far and a new message [m],
    the size over all of them is the size of [m] alone, or, when that is 0,
    the size over the messages before. *)
Theorem context_window_follows_stream (messages : list Message) (newMsg : Message) :
  calculateContextWindowSize (toAPIMessages (messages ++ [newMsg]))
  = if N.eqb (calculateContextWindowSizeFromMsg (Some newMsg)) 0
    then calculateContextWindowSize (toAPIMessages messages)
    else calculateContextWindowSizeFromMsg (Some newMsg).
Proof.
  unfold toAPIMessages. rewrite List.map_app. simpl.
  rewrite calculateContextWindowSize_snoc. reflexivity.
Qed.

(** X9: The flag of a later event agrees with the flag a new stream would
    start from, unless the new message is a gitinfo entry: then the event
    says "not working" whatever came before, while a new stream looks through
    the gitinfo entry at the messages before it. *)
Theorem streamed_flag_and_hydrated_flag (messages : list Message) (newMsg : Message) :
  (String.eqb (Type_ newMsg) Server.MessageTypeGitInfo = false ->
   hydrated_agent_working (messages ++ [newMsg]) = streamed_agent_working newMsg) /\
  (String.eqb (Type_ newMsg) Server.MessageTypeGitInfo = true ->
   streamed_agent_working newMsg = false /\
   hydrated_agent_working (messages ++ [newMsg]) = hydrated_agent_working messages).
Proof.
  unfold hydrated_agent_working, streamed_agent_working, toAPIMessages.
  rewrite !List.map_app. simpl List.map.
  rewrite !Server.agentWorking_tail, Server.tail_ignoring_gitinfo_snoc.
  unfold Server.is_gitinfo, observed at 1. simpl Server.Type_.
  split; intros Hg; rewrite Hg.
  - unfold Server.ends_turn, isEndOfTurn, toAPIMessage, observed. simpl.
    rewrite Hg.
    destruct (String.eqb (Type_ newMsg) Server.MessageTypeError) eqn:He.
    { rewrite orb_true_r. reflexivity. }
    rewrite orb_false_r.
    destruct (String.eqb (Type_ newMsg) Server.MessageTypeAgent) eqn:Ha; simpl;
      [|reflexivity].
    destruct (LlmData newMsg) as [raw|]; [|reflexivity].
    destruct (extractEndOfTurn raw) as [[|] [|]]; reflexivity.
  - split; [|reflexivity]. unfold isEndOfTurn. rewrite Hg.
    destruct (String.eqb (Type_ newMsg) Server.MessageTypeError); reflexivity.
Qed.

End Json.

(** Concrete payloads: "T" and "F" decode to an end-of-turn flag, a
    string of digits decodes to a usage. *)
Definition decode_flag (raw : string) : option bool :=
  if String.eqb raw "T" then Some true
  else if String.eqb raw "F" then Some false
  else None.

Definition decode_usage (raw : string) : option N :=
  if String.eqb raw "1200" then Some 1200%N
  else if String.eqb raw "0" then Some 0%N
  else None.

Lemma context_window_is_last_usage_witness :
  calculateContextWindowSize decode_usage
    ([mkAPIMessage 0 "user" None None None]
       ++ mkAPIMessage 1 "agent" (Some "T") (Some "1200") (Some true)
       :: [mkAPIMessage 2 "gitinfo" None (Some "0") None;
           mkAPIMessage 3 "user" None (Some "garbled") None])
  = 1200%N.
Proof.
  refine (proj2 (context_window_is_last_usage decode_usage
                   [mkAPIMessage 0 "user" None None None]
                   [mkAPIMessage 2 "gitinfo" None (Some "0") None;
                    mkAPIMessage 3 "user" None (Some "garbled") None]
                   (mkAPIMessage 1 "agent" (Some "T") (Some "1200") (Some true)))
            _ eq_refl).
  discriminate.
Defined.

Lemma streamed_flag_and_hydrated_flag_witness :
  hydrated_agent_working decode_flag
    ([mkMessage 0 "user" (Some "x") None] ++ [mkMessage 1 "agent" (Some "T") None])
  = streamed_agent_working decode_flag (mkMessage 1 "agent" (Some "T") None).
Proof.
  exact (proj1 (streamed_flag_and_hydrated_flag decode_flag
                  [mkMessage 0 "user" (Some "x") None]
                  (mkMessage 1 "agent" (Some "T") None)) eq_refl).
Defined.

(** Where the two flags part: the agent has not ended its turn and a
    gitinfo entry arrives. The event says "not working"; a stream opened
    right after says "working". *)
Example gitinfo_after_open_turn :
  streamed_agent_working decode_flag (mkMessage 1 "gitinfo" None None) = false /\
  hydrated_agent_working decode_flag
    [mkMessage 0 "agent" (Some "F") None; mkMessage 1 "gitinfo" None None] = true.
Proof. split; reflexivity. Qed.

End Stream.

(* ===================================================================== *)
(** * Package server: [agentWorking] looks at one entry                   *)
(* ===================================================================== *)

Module ServerProps.

Import Server.

(** X10: Trailing gitinfo entries change nothing, and of the rest only the
    last entry counts: the loop that scans the history for an agent entry
    never changes the answer. *)
Theorem agentWorking_depends_on_last_entry :
  (forall messages gs : list APIMessage,
     forallb is_gitinfo gs = true ->
     agentWorking (messages ++ gs) = agentWorking messages) /\
  (forall (history : list APIMessage) (m : APIMessage),
     is_gitinfo m = false ->
     agentWorking (history ++ [m]) = agentWorking [m]).
Proof.
  split.
  - intros messages gs Hgs. rewrite !agentWorking_tail.
    rewrite (tail_ignoring_gitinfo_app_gitinfo messages gs Hgs). reflexivity.
  - intros history m Hm. rewrite !agentWorking_tail.
    rewrite tail_ignoring_gitinfo_snoc, Hm.
    change [m] with ([] ++ [m]). rewrite tail_ignoring_gitinfo_snoc, Hm. reflexivity.
Qed.

Lemma agentWorking_depends_on_last_entry_witness :
  agentWorking ([agent_msg (Some true); agent_msg (Some false)]
                  ++ [mkAPIMessage MessageTypeTool None])
  = agentWorking [mkAPIMessage MessageTypeTool None].
Proof.
  exact (proj2 agentWorking_depends_on_last_entry
           [agent_msg (Some true); agent_msg (Some false)]
           (mkAPIMessage MessageTypeTool None) eq_refl).
Defined.

End ServerProps.

(* ===================================================================== *)
(** * Package slug: what a slug looks like and how often it is tried      *)
(* ===================================================================== *)

Module SlugProps.

Import GoStr Slug.

Lemma TrimRightFunc_last (s : gostring) (f : rune -> bool) (a : rune) :
  last (TrimRightFunc s f) = Some a -> f a = false.
Proof.
  induction s as [|r rest IH]; simpl; [discriminate|].
  destruct (TrimRightFunc rest f) as [|x t] eqn:Ht.
  - destruct (f r) eqn:Hr; simpl; [discriminate|]. intros [= <-]. exact Hr.
  - exact IH.
Qed.

Lemma clean_ends (s : gostring) :
  clean s -> head s <> Some 45%N /\ last s <> Some 45%N.
Proof.
  intros (_ & _ & Ht & _). split; intros H.
  - destruct s as [|a l]; [discriminate|]. injection H as ->.
    pose proof (TrimFunc_head _ _ _ _ Ht). discriminate.
  - rewrite <- Ht in H. unfold TrimFunc in H.
    apply TrimRightFunc_last in H. discriminate.
Qed.

(** X11: Whatever the input, [Sanitize] returns at most 60 runes, all of
    [[a-z0-9-]], with no two hyphens in a row and no hyphen at either end. *)
Theorem Sanitize_returns_clean_slug (lower : rune -> rune) (input : gostring) :
  length (Sanitize lower input) <= 60 /\
  forallb isSlugRune (Sanitize lower input) = true /\
  noAdjacent isHyphen (Sanitize lower input) = true /\
  head (Sanitize lower input) <> Some 45%N /\
  last (Sanitize lower input) <> Some 45%N.
Proof.
  pose proof (Sanitize_clean lower input) as Hc.
  destruct (clean_ends _ Hc) as [Hh Hl].
  destruct Hc as (Hs & Hn & _ & Hlen). repeat split; assumption.
Qed.

(** X12: [Sanitize] returns the empty string exactly for the inputs without a
    rune that lower-cases to a letter of [[a-z]] or a digit. *)
Theorem Sanitize_empty_exactly (lower : rune -> rune) (input : gostring) :
  Sanitize lower input = [] <->
  forallb (fun r => negb (isLowerAlnum (toLowerRune lower r))) input = true.
Proof.
  rewrite Sanitize_empty_iff. unfold alnums, ToLower.
  induction input as [|r rest IH]; simpl; [split; reflexivity|].
  destruct (isLowerAlnum (toLowerRune lower r)); simpl; [split; discriminate|exact IH].
Qed.

Section Unicode.

Variable lower : rune -> rune.
Variable space : rune -> bool.

Lemma callSlugLLM_ok (llmService : Service) (msg slug : gostring) :
  callSlugLLM lower space llmService msg = Ok slug -> slug <> [] /\ clean slug.
Proof.
  unfold callSlugLLM.
  destruct (Do llmService (slugPrompt msg)) as [response|e]; [|discriminate].
  destruct (firstText (ResponseContent response)) as [|r raw]; [discriminate|].
  cbv zeta.
  destruct (Sanitize lower (TrimSpace space (r :: raw))) as [|x t] eqn:Hs; [discriminate|].
  intros [= <-]. split; [discriminate|]. rewrite <- Hs. apply Sanitize_clean.
Qed.

Lemma tryModels_ok (p : LLMServiceProvider) (msg tag slug : gostring)
    (modelIDs : list gostring) :
  tryModels lower space p msg tag modelIDs = Some slug -> slug <> [] /\ clean slug.
Proof.
  induction modelIDs as [|modelID rest IH]; simpl; [discriminate|].
  destruct (GetModelInfo p modelID) as [info|]; [|exact IH].
  destruct (negb (hasTag space (Tags info) tag)); [exact IH|].
  destruct (GetService p modelID) as [llmService|e]; [|exact IH].
  destruct (callSlugLLM lower space llmService msg) as [s|e] eqn:Hcall; [|exact IH].
  intros [= <-]. exact (callSlugLLM_ok llmService msg s Hcall).
Qed.

Lemma tryTags_ok (p : LLMServiceProvider) (msg slug : gostring) (tags : list gostring) :
  tryTags lower space p msg tags = Some slug -> slug <> [] /\ clean slug.
Proof.
  induction tags as [|tag rest IH]; simpl; [discriminate|].
  destruct (tryModels lower space p msg tag (GetAvailableModels p)) as [s|] eqn:Ht;
    [|exact IH].
  intros [= <-]. exact (tryModels_ok p msg tag s _ Ht).
Qed.

Lemma generateSlugText_ok (p : LLMServiceProvider) (msg model slug : gostring) :
  generateSlugText lower space p msg model = Ok slug -> slug <> [] /\ clean slug.
Proof.
  intros H. unfold generateSlugText in H.
  assert (Hfallback :
    match tryTags lower space p msg [go "slug"; go "slug-backup"] with
    | Some s => Ok s
    | None =>
        if negb (eqb model []) && negb (eqb model (go "predictable"))
        then match GetService p model with
             | Ok llmService => callSlugLLM lower space llmService msg
             | Err _ => Err errNoModel
             end
        else Err errNoModel
    end = Ok slug -> slug <> [] /\ clean slug).
  { destruct (tryTags lower space p msg [go "slug"; go "slug-backup"]) as [s|] eqn:Ht.
    - intros [= <-]. exact (tryTags_ok p msg s _ Ht).
    - destruct (negb (eqb model []) && negb (eqb model (go "predictable")));
        [|discriminate].
      destruct (GetService p model) as [llmService|e]; [|discriminate].
      apply callSlugLLM_ok. }
  cbv zeta in H.
  destruct (eqb model (go "predictable")); [|exact (Hfallback H)].
  destruct (GetService p (go "predictable")) as [llmService|e];
    [exact (callSlugLLM_ok llmService msg slug H)|exact (Hfallback H)].
Qed.

(** X13: Whichever model answers, a slug text that [generateSlugText] returns
    is not empty and is a clean slug. *)
Theorem generateSlugText_gives_clean_slug (p : LLMServiceProvider)
    (msg model slug : gostring) :
  generateSlugText lower space p msg model = Ok slug ->
  slug <> [] /\ length slug <= 60 /\ forallb isSlugRune slug = true /\
  noAdjacent isHyphen slug = true /\
  head slug <> Some 45%N /\ last slug <> Some 45%N.
Proof.
  intros H. destruct (generateSlugText_ok p msg model slug H) as [Hne Hc].
  destruct (clean_ends _ Hc) as [Hh Hl].
  destruct Hc as (Hs & Hn & _ & Hlen). repeat split; assumption.
Qed.

Section Database.

Variable D : Type.
Variable Update : D -> gostring -> gostring -> D * option gostring.

(** The loop from attempt [k] on: it stops after some attempt [j - 1],
    having tried the candidates 0..j-1 in order. *)
Lemma updateLoop_trace (conv base : gostring) (d : D) (n : nat) :
  forall k d' r tried,
  updateLoop lower D Update n k conv base (candidate base k)
    (db_before D Update d conv base k) (List.map (candidate base) (seq 0 k))
  = (d', r, tried) ->
  exists j, k <= j <= k + n /\ (0 < n -> k < j) /\
    tried = List.map (candidate base) (seq 0 j) /\
    d' = db_before D Update d conv base j /\
    (forall slug, r = Ok slug ->
       exists i, j = S i /\ slug = candidate base i /\
                 attempt_error D Update d conv base i = None).
Proof.
  induction n as [|n IH]; intros k d' r tried; simpl.
  - intros [= <- <- <-]. exists k. split; [lia|]. split; [lia|]. repeat split. discriminate.
  - destruct (Update (db_before D Update d conv base k) conv (candidate base k))
      as [d1 oe] eqn:Hupd.
    assert (Hd1 : d1 = db_before D Update d conv base (S k)).
    { simpl. rewrite Hupd. reflexivity. }
    assert (Htried : List.map (candidate base) (seq 0 k) ++ [candidate base k]
                     = List.map (candidate base) (seq 0 (S k))).
    { rewrite seq_S, List.map_app. reflexivity. }
    rewrite Htried.
    destruct oe as [err|].
    + destruct (isUniqueViolation lower err).
      * rewrite Nat.add_1_r, Hd1.
        change (base ++ go "-" ++ itoa (S k)) with (candidate base (S k)).
        intros H. destruct (IH (S k) d' r tried H) as (j & Hj & _ & Ht & Hd & Hr).
        exists j. split; [lia|]. split; [lia|]. repeat split; assumption.
      * intros [= <- <- <-]. exists (S k). split; [lia|]. split; [lia|].
        repeat split; [exact Hd1|]. discriminate.
    + intros [= <- <- <-]. exists (S k). split; [lia|]. split; [lia|].
      repeat split; [exact Hd1|].
      intros slug [= <-]. exists k. repeat split.
      unfold attempt_error. rewrite Hupd. reflexivity.
Qed.

(** X14: Whatever the database answers, [GenerateSlug] calls
    [UpdateConversationSlug] at most 100 times, and not at all when no slug
    text was generated. It tries the base slug and then the suffixes 1, 2,
    ... in order, without a gap. When it returns a slug, that slug is the
    one of its last call, and that call succeeded. *)
Theorem GenerateSlug_tries_in_order (p : LLMServiceProvider) (d d' : D)
    (conv msg model : gostring) (r : result gostring) (tried : list gostring) :
  GenerateSlug lower space D Update p d conv msg model = (d', r, tried) ->
  length tried <= 100 /\
  (forall e, generateSlugText lower space p msg model = Err e ->
     tried = [] /\ d' = d /\ r = Err e) /\
  (forall base, generateSlugText lower space p msg model = Ok base ->
     exists j, 1 <= j <= 100 /\
       tried = List.map (candidate base) (seq 0 j) /\
       d' = db_before D Update d conv base j /\
       (forall slug, r = Ok slug ->
          slug = candidate base (j - 1) /\ last tried = Some slug /\
          attempt_error D Update d conv base (j - 1) = None)).
Proof.
  unfold GenerateSlug.
  destruct (generateSlugText lower space p msg model) as [base|e] eqn:Hgen.
  - intros H.
    destruct (updateLoop_trace conv base d 100 0 d' r tried H)
      as (j & Hj & Hpos & Ht & Hd & Hr).
    assert (Hj1 : 1 <= j <= 100) by lia.
    split; [rewrite Ht, length_map, length_seq; lia|].
    split; [intros e; discriminate|].
    intros base' [= <-]. exists j. split; [exact Hj1|]. split; [exact Ht|].
    split; [exact Hd|]. intros slug Hslug.
    destruct (Hr slug Hslug) as (i & -> & -> & Herr).
    replace (S i - 1) with i by lia. split; [reflexivity|]. split; [|exact Herr].
    rewrite Ht, seq_S, List.map_app. simpl. apply last_snoc.
  - intros [= <- <- <-]. split; [simpl; lia|]. split.
    + intros e' [= <-]. repeat split.
    + intros base. discriminate.
Qed.

(** The decimal numbers below 100 have at most two digits. *)
Lemma itoa_below_100 (k : nat) :
  k < 100 -> forallb isSlugRune (itoa k) = true /\ length (itoa k) <= 2.
Proof.
  intros Hk.
  assert (Hall : forallb (fun k => forallb isSlugRune (itoa k)
                                   && Nat.leb (length (itoa k)) 2) (seq 0 100) = true)
    by (vm_compute; reflexivity).
  rewrite forallb_forall in Hall.
  specialize (Hall k). rewrite in_seq in Hall.
  destruct (andb_prop _ _ (Hall ltac:(lia))) as [H1 H2].
  apply Nat.leb_le in H2. split; assumption.
Qed.

(** X15: Every slug [GenerateSlug] passes to the database, and so the one it
    returns, is made of runes of [[a-z0-9-]] only, is not empty, and has at
    most 63 runes: a clean slug of at most 60, and for a retry a hyphen and
    a number below 100. *)
Theorem GenerateSlug_persists_slug_runes (p : LLMServiceProvider) (d d' : D)
    (conv msg model : gostring) (r : result gostring) (tried : list gostring) :
  GenerateSlug lower space D Update p d conv msg model = (d', r, tried) ->
  (forall slug, In slug tried ->
     slug <> [] /\ forallb isSlugRune slug = true /\ length slug <= 63) /\
  (forall slug, r = Ok slug ->
     slug <> [] /\ forallb isSlugRune slug = true /\ length slug <= 63).
Proof.
  unfold GenerateSlug.
  destruct (generateSlugText lower space p msg model) as [base|e] eqn:Hgen.
  - intros H.
    destruct (generateSlugText_ok p msg model base Hgen)
      as (Hne & Hrunes & _ & _ & Hlen).
    destruct (updateLoop_trace conv base d 100 0 d' r tried H)
      as (j & Hj & _ & Ht & _ & Hr).
    assert (Hcand : forall k, k < 100 ->
              candidate base k <> [] /\ forallb isSlugRune (candidate base k) = true /\
              length (candidate base k) <= 63).
    { intros [|k] Hk; cbn [candidate].
      - repeat split; [exact Hne|exact Hrunes|lia].
      - destruct (itoa_below_100 (S k) Hk) as [Hi Hl].
        change (go "-") with [45%N].
        split; [destruct base; [contradiction|discriminate]|].
        split.
        + rewrite !forallb_app, Hrunes, Hi. reflexivity.
        + rewrite !length_app. simpl length. lia. }
    split.
    + intros slug Hin. rewrite Ht in Hin. apply in_map_iff in Hin.
      destruct Hin as (k & <- & Hk). apply in_seq in Hk. apply Hcand. lia.
    + intros slug Hslug. destruct (Hr slug Hslug) as (i & -> & -> & _).
      apply Hcand. lia.
  - intros [= <- <- <-]. split; [intros slug []|discriminate].
Qed.

End Database.

End Unicode.

(** ** Tags *)

Lemma Split_not_nil (s : gostring) (sep : rune) : Split s sep <> [].
Proof.
  destruct s as [|r rest]; simpl; [discriminate|].
  destruct (N.eqb r sep); [discriminate|].
  destruct (Split rest sep); discriminate.
Qed.

Lemma Split_app_sep (a b : gostring) (sep : rune) :
  Split (a ++ sep :: b) sep = Split a sep ++ Split b sep.
Proof.
  induction a as [|r a IH]; simpl.
  - rewrite N.eqb_refl. reflexivity.
  - destruct (N.eqb r sep); [rewrite IH; reflexivity|].
    rewrite IH. pose proof (Split_not_nil a sep) as Hne.
    destruct (Split a sep) as [|cur more]; [contradiction|reflexivity].
Qed.

(** X16: A list of tags joined from two lists with a comma has a tag exactly
    when one of the two lists has it. *)
Theorem hasTag_of_joined_lists (space : rune -> bool) (tags1 tags2 tag : gostring) :
  hasTag space (tags1 ++ go "," ++ tags2) tag
  = hasTag space tags1 tag || hasTag space tags2 tag.
Proof.
  unfold hasTag. change (go "," ++ tags2) with (44%N :: tags2).
  rewrite Split_app_sep, existsb_app. reflexivity.
Qed.

(** ** On the mocks of the tests *)

Lemma generateSlugText_gives_clean_slug_witness :
  length (go "create-a-python-script") <= 60 /\
  forallb isSlugRune (go "create-a-python-script") = true.
Proof.
  destruct (generateSlugText_gives_clean_slug ascii_lower ascii_space
              (MockLLMProvider (MockLLMService (go "  Create a Python Script ")))
              (go "Test message") (go "test-model") (go "create-a-python-script")
              eq_refl) as (_ & Hlen & Hrunes & _).
  split; [exact Hlen|exact Hrunes].
Defined.

Lemma GenerateSlug_tries_in_order_witness :
  length (List.map (candidate (go "test-slug")) (seq 0 100)) <= 100.
Proof.
  exact (proj1 (GenerateSlug_tries_in_order ascii_lower ascii_space
                  DB.table DB.UpdateConversationSlug
                  (MockLLMProvider (MockLLMService (go "test-slug")))
                  taken_table taken_table (go "new") (go "Test message") (go "test-model")
                  (Err errGiveUp) (List.map (candidate (go "test-slug")) (seq 0 100))
                  ltac:(vm_compute; reflexivity))).
Defined.

Lemma GenerateSlug_persists_slug_runes_witness :
  go "test-slug-1" <> [] /\ forallb isSlugRune (go "test-slug-1") = true /\
  length (go "test-slug-1") <= 63.
Proof.
  refine (proj2 (GenerateSlug_persists_slug_runes ascii_lower ascii_space
                   DB.table DB.UpdateConversationSlug
                   (MockLLMProvider (MockLLMService (go "test-slug")))
                   [DB.mkConversation (go "conv1") (Some (go "test-slug")) 0 0 false;
                    DB.mkConversation (go "conv2") None 0 0 false]
                   [DB.mkConversation (go "conv1") (Some (go "test-slug")) 0 0 false;
                    DB.mkConversation (go "conv2") (Some (go "test-slug-1")) 0 0 false]
                   (go "conv2") (go "Test message") (go "test-model")
                   (Ok (go "test-slug-1")) [go "test-slug"; go "test-slug-1"]
                   eq_refl) (go "test-slug-1") eq_refl).
Defined.

End SlugProps.

(* ===================================================================== *)
(** * Package browse: the console log buffer                              *)
(* ===================================================================== *)

Module Console.

(** [fmt.Sprintf("%d", n)] for [n >= 0], as bytes. *)
Definition itoa (n : nat) : string := NilEmpty.string_of_uint (Nat.to_uint n).

Section Logs.

(** [*runtime.EventConsoleAPICalled]. *)
Context {E : Type}.

(** [maxConsoleLogs], as [NewBrowseTools] sets it. *)
Definition maxConsoleLogs : nat := 100.

(** [captureConsoleLog]: the field [consoleLogs] after the event. *)
Definition captureConsoleLog (maxConsoleLogs : nat) (consoleLogs : list E) (e : E)
  : list E :=
  let consoleLogs := consoleLogs ++ [e] in
  if Nat.ltb maxConsoleLogs (length consoleLogs)
  then drop (length consoleLogs - maxConsoleLogs) consoleLogs
  else consoleLogs.

(** The field [consoleLogs] after the listener of [GetBrowserContext] has
    passed the events [es] to [captureConsoleLog], oldest first. *)
Definition captured (maxConsoleLogs : nat) (consoleLogs : list E) (es : list E)
  : list E :=
  fold_left (captureConsoleLog maxConsoleLogs) es consoleLogs.


(** [clearConsoleLogsRun]: [m] is the error of [json.Unmarshal], [ctxErr]
    the error of [GetBrowserContext], if any. The result is the tool
    output and the field [consoleLogs]. *)
Definition clearConsoleLogsRun (m ctxErr : option string) (consoleLogs : list E)
  : Browse.ToolOut * list E :=
  match m with
  | Some err => (Browse.ErrorToolOut ("invalid input: " ++ err), consoleLogs)
  | None =>
      match ctxErr with
      | Some err => (Browse.ErrorToolOut err, consoleLogs)
      | None =>
          let logCount := length consoleLogs in
          (Browse.TextToolOut ("Cleared " ++ itoa logCount ++ " console log entries."),
           [])
      end
  end.

Lemma captureConsoleLog_drop (n : nat) (consoleLogs : list E) (e : E) :
  captureConsoleLog n consoleLogs e
  = drop (length (consoleLogs ++ [e]) - n) (consoleLogs ++ [e]).
Proof.
  unfold captureConsoleLog. cbv zeta.
  destruct (Nat.ltb n (length (consoleLogs ++ [e]))) eqn:Hlt; [reflexivity|].
  apply Nat.ltb_ge in Hlt.
  replace (length (consoleLogs ++ [e]) - n) with 0 by lia. reflexivity.
Qed.

Lemma captured_drop (n : nat) (es all : list E) :
  captured n (drop (length all - n) all) es
  = drop (length (all ++ es) - n) (all ++ es).
Proof.
  unfold captured. revert all. induction es as [|e es IH]; intros all.
  - simpl. rewrite app_nil_r. reflexivity.
  - cbn [fold_left]. rewrite captureConsoleLog_drop.
    replace (drop (length all - n) all ++ [e])
      with (drop (length all - n) (all ++ [e])).
    2:{ rewrite skipn_app.
        replace (length all - n - length all) with 0 by lia. reflexivity. }
    rewrite drop_drop.
    replace (length all - n + (length (drop (length all - n) (all ++ [e])) - n))
      with (length (all ++ [e]) - n).
    2:{ rewrite length_drop, !length_app. simpl. lia. }
    rewrite IH, <- app_assoc. reflexivity.
Qed.

Lemma captured_from_new (n : nat) (es : list E) :
  captured n [] es = drop (length es - n) es.
Proof. exact (captured_drop n es []). Qed.

(** X17: From the empty buffer of [NewBrowseTools], the buffer holds the
    newest [maxConsoleLogs] of the console events that arrived, in the
    order of their arrival, and all of them while they are no more. *)
Theorem console_buffer_keeps_newest (n : nat) (es : list E) :
  captured n [] es = drop (length es - n) es /\
  length (captured n [] es) = Nat.min (length es) n /\
  (length es <= n -> captured n [] es = es).
Proof.
  rewrite captured_from_new. split; [reflexivity|]. split.
  - rewrite length_drop. lia.
  - intros H. replace (length es - n) with 0 by lia. reflexivity.
Qed.


(** X19: The action [clear_console_logs], when the browser is there, reports
    how many events the buffer held, which is the number of the events
    that arrived up to 100, and the events captured after it are all that
    the buffer then holds. *)
Theorem clear_counts_and_empties (es later : list E) :
  fst (clearConsoleLogsRun None None (captured maxConsoleLogs [] es))
  = Browse.TextToolOut
      ("Cleared " ++ itoa (Nat.min (length es) 100) ++ " console log entries.") /\
  captured maxConsoleLogs
    (snd (clearConsoleLogsRun None None (captured maxConsoleLogs [] es))) later
  = drop (length later - 100) later.
Proof.
  unfold clearConsoleLogsRun, maxConsoleLogs. cbn [fst snd].
  rewrite !captured_from_new, length_drop. split; [|reflexivity].
  replace (length es - (length es - 100)) with (Nat.min (length es) 100) by lia.
  reflexivity.
Qed.

End Logs.

End Console.

(* ===================================================================== *)
(** * Package browse: the resize action                                   *)
(* ===================================================================== *)

Module Resize.

Record resizeInput := mkResizeInput {
  Width : Z;
  Height : Z;
  Timeout : string
}.

(** What the action does to the browser, in order. *)
Inductive event :=
| EvGetBrowserContext
| EvEmulateViewport (width height : Z) (timeout : string).

(** How the browser answers one run of the action: the error of
    [GetBrowserContext] and of [chromedp.Run], if any. *)
Record browser := mkBrowser {
  GetBrowserContext : option string;
  Run : Z -> Z -> string -> option string
}.

Definition invalid_dimensions : string :=
  "invalid dimensions: width and height must be positive".

(** [resizeRun]: [m] is the outcome of [json.Unmarshal], an error or the
    input. The result is the tool output and what was done to the
    browser. *)
Definition resizeRun (b : browser) (m : string + resizeInput)
  : Browse.ToolOut * list event :=
  match m with
  | inl err => (Browse.ErrorToolOut ("invalid input: " ++ err), [])
  | inr input =>
      if (Width input <=? 0)%Z || (Height input <=? 0)%Z
      then (Browse.ErrorToolOut invalid_dimensions, [])
      else
        match GetBrowserContext b with
        | Some err => (Browse.ErrorToolOut err, [EvGetBrowserContext])
        | None =>
            let ran := [EvGetBrowserContext;
                        EvEmulateViewport (Width input) (Height input) (Timeout input)] in
            match Run b (Width input) (Height input) (Timeout input) with
            | Some err => (Browse.ErrorToolOut err, ran)
            | None => (Browse.TextToolOut "done", ran)
            end
        end
  end.

(** X20: The viewport is only ever set to the width and height of the input,
    both positive, and after the browser was asked for; the action
    answers "done" only when the viewport was set. *)
Theorem resize_sets_only_positive_viewport (b : browser) (input : resizeInput)
    (out : Browse.ToolOut) (ran : list event) :
  resizeRun b (inr input) = (out, ran) ->
  (forall w h t, In (EvEmulateViewport w h t) ran ->
     w = Width input /\ h = Height input /\ (0 < w)%Z /\ (0 < h)%Z /\
     head ran = Some EvGetBrowserContext) /\
  (out = Browse.TextToolOut "done" ->
     ran = [EvGetBrowserContext;
            EvEmulateViewport (Width input) (Height input) (Timeout input)]) /\
  ((Width input <= 0)%Z \/ (Height input <= 0)%Z ->
     out = Browse.ErrorToolOut invalid_dimensions /\ ran = []).
Proof.
  unfold resizeRun. intros H.
  destruct ((Width input <=? 0)%Z || (Height input <=? 0)%Z) eqn:Hdim.
  - injection H as <- <-. split; [intros w h t []|]. split; [discriminate|].
    auto.
  - apply orb_false_iff in Hdim. destruct Hdim as [Hw Hh].
    apply Z.leb_gt in Hw, Hh.
    assert (Hran : forall w h t,
              In (EvEmulateViewport w h t)
                 [EvGetBrowserContext;
                  EvEmulateViewport (Width input) (Height input) (Timeout input)] ->
              w = Width input /\ h = Height input /\ (0 < w)%Z /\ (0 < h)%Z).
    { intros w h t [Hin|[Hin|[]]]; [discriminate|].
      injection Hin as <- <- <-. auto. }
    destruct (GetBrowserContext b) as [err|].
    + injection H as <- <-. split; [|split; [discriminate|lia]].
      intros w h t [Hin|[]]. discriminate.
    + destruct (Run b (Width input) (Height input) (Timeout input)) as [err|];
        injection H as <- <-.
      * split; [|split; [discriminate|lia]].
        intros w h t Hin. destruct (Hran w h t Hin) as (? & ? & ? & ?). auto.
      * split; [|split; [reflexivity|lia]].
        intros w h t Hin. destruct (Hran w h t Hin) as (? & ? & ? & ?). auto.
Qed.

(** The zero width of [TestResizeRunErrorPaths]. *)
Lemma resize_sets_only_positive_viewport_witness :
  Browse.ErrorToolOut invalid_dimensions
  = fst (resizeRun (mkBrowser None (fun _ _ _ => None))
           (inr (mkResizeInput 0 100 EmptyString))) /\
  @nil event
  = snd (resizeRun (mkBrowser None (fun _ _ _ => None))
           (inr (mkResizeInput 0 100 EmptyString))).
Proof.
  exact (proj2 (proj2 (resize_sets_only_positive_viewport
                         (mkBrowser None (fun _ _ _ => None))
                         (mkResizeInput 0 100 EmptyString)
                         (Browse.ErrorToolOut invalid_dimensions) [] eq_refl))
           (or_introl (Z.le_refl 0))).
Defined.

End Resize.

(* ===================================================================== *)
(** * Package browse: the downloads                                       *)
(* ===================================================================== *)

Module Downloads.

Local Open Scope string_scope.

Definition DownloadDir : string := "/tmp/shelley-downloads".

Record DownloadInfo := mkDownloadInfo {
  GUID : string;
  URL : string;
  SuggestedFilename : string;
  FinalPath : string;
  Completed : bool;
  Error : string
}.

(** [browser.EventDownloadWillBegin], the fields that are read. *)
Record EventDownloadWillBegin := mkWillBegin {
  BeginGUID : string;
  BeginURL : string;
  BeginSuggestedFilename : string
}.

Inductive DownloadProgressState :=
| DownloadProgressStateInProgress
| DownloadProgressStateCompleted
| DownloadProgressStateCanceled.

(** [browser.EventDownloadProgress], the fields that are read. *)
Record EventDownloadProgress := mkProgress {
  ProgressGUID : string;
  State : DownloadProgressState;
  FilePath : string
}.

(** The field [downloads], a map keyed by GUID. Go leaves the order of a
    [range] over a map open; the list keeps the order of the first
    assignments. *)
Definition downloads := list (string * DownloadInfo).

(** [b.downloads[guid]] *)
Fixpoint get (ds : downloads) (guid : string) : option DownloadInfo :=
  match ds with
  | [] => None
  | (k, info) :: rest => if String.eqb k guid then Some info else get rest guid
  end.

(** [b.downloads[guid] = info] *)
Fixpoint set (ds : downloads) (guid : string) (info : DownloadInfo) : downloads :=
  match ds with
  | [] => [(guid, info)]
  | (k, old) :: rest =>
      if String.eqb k guid then (k, info) :: rest else (k, old) :: set rest guid info
  end.

(** [strings.HasSuffix] and [strings.TrimSuffix]. *)
Definition HasSuffix (s suffix : string) : bool :=
  Nat.leb (String.length suffix) (String.length s) &&
  String.eqb (substring (String.length s - String.length suffix)
                        (String.length suffix) s) suffix.

Definition TrimSuffix (s suffix : string) : string :=
  if HasSuffix s suffix
  then substring 0 (String.length s - String.length suffix) s
  else s.

(** Modelled on the documented behaviour of [filepath.Ext] (Go's library,
    not part of the sources): the suffix that begins at the last dot of
    the last element of the path, empty when there is no dot. *)
Definition filepath_Ext (path : string) : string :=
  match Browse.cutLast path "." with
  | Some (_, ext) => if Browse.Contains ext "/" then EmptyString else ext
  | None => EmptyString
  end.

(** The loop around [os.Rename]: [rename_ok i] tells whether attempt [i]
    succeeds; [n] attempts are left. *)
Fixpoint renameLoop (rename_ok : nat -> bool) (n i : nat) : bool :=
  match n with
  | 0 => false
  | S n' => if rename_ok i then true else renameLoop rename_ok n' (S i)
  end.

Definition handleDownloadWillBegin (ds : downloads) (e : EventDownloadWillBegin)
  : downloads :=
  set ds (BeginGUID e)
    (mkDownloadInfo (BeginGUID e) (BeginURL e) (BeginSuggestedFilename e)
       EmptyString false EmptyString).

Definition GetRecentDownloads (ds : downloads) : list DownloadInfo * downloads :=
  (List.map snd (List.filter (fun kv => Completed (snd kv)) ds),
   List.filter (fun kv => negb (Completed (snd kv))) ds).

Section Library.

(** [filepath.Join] of two elements and [filepath.Ext], whatever they
    do. *)
Variable Join : string -> string -> string.
Variable Ext : string -> string.

(** [generateDownloadFilename]: [randomSuffix] is [uuid.New().String()[:8]]. *)
Definition generateDownloadFilename (randomSuffix suggested : string) : string :=
  let suggested := if String.eqb suggested EmptyString then "download" else suggested in
  let ext := Ext suggested in
  let base := TrimSuffix suggested ext in
  base ++ "_" ++ randomSuffix ++ ext.

(** [handleDownloadProgress]: [randomSuffix] is the random part of the
    file name and [rename_ok] the outcomes of [os.Rename], which are read
    only when the download has completed. *)
Definition handleDownloadProgress (ds : downloads) (e : EventDownloadProgress)
    (randomSuffix : string) (rename_ok : nat -> bool) : downloads :=
  let info :=
    match get ds (ProgressGUID e) with
    | Some info => info
    | None =>
        mkDownloadInfo (ProgressGUID e) EmptyString EmptyString EmptyString false
          EmptyString
    end in
  match State e with
  | DownloadProgressStateCompleted =>
      let guidPath := Join DownloadDir (ProgressGUID e) in
      let finalName := generateDownloadFilename randomSuffix (SuggestedFilename info) in
      let finalPath := Join DownloadDir finalName in
      let path :=
        if renameLoop rename_ok 10 0 then finalPath
        else if negb (String.eqb (FilePath e) EmptyString) then FilePath e
        else guidPath in
      set ds (ProgressGUID e)
        (mkDownloadInfo (GUID info) (URL info) (SuggestedFilename info) path true
           (Error info))
  | DownloadProgressStateCanceled =>
      set ds (ProgressGUID e)
        (mkDownloadInfo (GUID info) (URL info) (SuggestedFilename info)
           (FinalPath info) true "download canceled")
  | DownloadProgressStateInProgress => set ds (ProgressGUID e) info
  end.

(** The maps that the events of the browser and the reports build from
    the empty map of [NewBrowseTools]. *)
Inductive tracked : downloads -> Prop :=
| tracked_new : tracked []
| tracked_begin ds e : tracked ds -> tracked (handleDownloadWillBegin ds e)
| tracked_progress ds e randomSuffix rename_ok :
    tracked ds -> tracked (handleDownloadProgress ds e randomSuffix rename_ok)
| tracked_report ds : tracked ds -> tracked (snd (GetRecentDownloads ds)).

(** What holds of an entry under its key. *)
Definition sound (kv : string * DownloadInfo) : Prop :=
  GUID (snd kv) = fst kv /\
  (Completed (snd kv) = false ->
     FinalPath (snd kv) = EmptyString /\ Error (snd kv) = EmptyString) /\
  (Completed (snd kv) = true ->
     Error (snd kv) = "download canceled" \/
     (Error (snd kv) = EmptyString /\ FinalPath (snd kv) <> EmptyString)).

Definition downloads_inv (ds : downloads) : Prop :=
  List.NoDup (List.map fst ds) /\ Forall sound ds.

End Library.

(** ** Strings *)

Lemma substring_0_0 (s : string) : substring 0 0 s = EmptyString.
Proof. destruct s; reflexivity. Qed.

Lemma substring_all (s : string) : substring 0 (String.length s) s = s.
Proof. induction s as [|a s IH]; simpl; [reflexivity|]. rewrite IH. reflexivity. Qed.

Lemma length_app_string (b e : string) :
  String.length (b ++ e) = String.length b + String.length e.
Proof. induction b as [|a b IH]; simpl; [reflexivity|]. rewrite IH. reflexivity. Qed.

Lemma substring_app_l (b e : string) : substring 0 (String.length b) (b ++ e) = b.
Proof.
  induction b as [|a b IH]; simpl; [apply substring_0_0|]. rewrite IH. reflexivity.
Qed.

Lemma substring_app_r (b e : string) :
  substring (String.length b) (String.length e) (b ++ e) = e.
Proof. induction b as [|a b IH]; simpl; [apply substring_all|exact IH]. Qed.

Lemma HasSuffix_app (b e : string) : HasSuffix (b ++ e) e = true.
Proof.
  unfold HasSuffix. rewrite length_app_string.
  replace (String.length b + String.length e - String.length e)
    with (String.length b) by lia.
  rewrite substring_app_r, String.eqb_refl, andb_true_r.
  apply Nat.leb_le. lia.
Qed.

Lemma TrimSuffix_app (b e : string) : TrimSuffix (b ++ e) e = b.
Proof.
  unfold TrimSuffix. rewrite HasSuffix_app, length_app_string.
  replace (String.length b + String.length e - String.length e)
    with (String.length b) by lia.
  apply substring_app_l.
Qed.

Lemma cutLast_app (s : string) (sep : ascii) (before after : string) :
  Browse.cutLast s sep = Some (before, after) -> s = before ++ after.
Proof.
  revert before after. induction s as [|a s IH]; intros before after; simpl;
    [discriminate|].
  destruct (Browse.cutLast s sep) as [[b' a']|].
  - intros [= <- <-]. simpl. rewrite (IH b' a' eq_refl) at 1. reflexivity.
  - destruct (Ascii.eqb a sep); [|discriminate]. intros [= <- <-]. reflexivity.
Qed.

Lemma app_empty_r (s : string) : s ++ EmptyString = s.
Proof. induction s as [|a s IH]; simpl; [reflexivity|]. rewrite IH. reflexivity. Qed.

Lemma filepath_Ext_suffix (path : string) :
  exists base, path = base ++ filepath_Ext path.
Proof.
  unfold filepath_Ext.
  destruct (Browse.cutLast path ".") as [[before ext]|] eqn:Hcut.
  - destruct (Browse.Contains ext "/").
    + exists path. symmetry. apply app_empty_r.
    + exists before. exact (cutLast_app _ _ _ _ Hcut).
  - exists path. symmetry. apply app_empty_r.
Qed.

(** ** The map *)

Lemma get_In (ds : downloads) (guid : string) (info : DownloadInfo) :
  get ds guid = Some info -> In (guid, info) ds.
Proof.
  induction ds as [|[k old] rest IH]; simpl; [discriminate|].
  destruct (String.eqb k guid) eqn:Hk.
  - apply String.eqb_eq in Hk. intros [= <-]. left. congruence.
  - intros H. right. exact (IH H).
Qed.

Lemma set_In (ds : downloads) (guid : string) (info : DownloadInfo)
    (kv : string * DownloadInfo) :
  In kv (set ds guid info) -> kv = (guid, info) \/ In kv ds.
Proof.
  induction ds as [|[k old] rest IH]; simpl.
  - intros [H|[]]. left. congruence.
  - destruct (String.eqb k guid) eqn:Hk.
    + apply String.eqb_eq in Hk. subst k. intros [H|H]; [left; congruence|auto].
    + intros [H|H]; [auto|]. destruct (IH H); auto.
Qed.

Lemma set_keys (ds : downloads) (guid : string) (info : DownloadInfo) :
  List.NoDup (List.map fst ds) -> List.NoDup (List.map fst (set ds guid info)).
Proof.
  induction ds as [|[k old] rest IH]; simpl; intros Hnd.
  - constructor; [intros []|constructor].
  - destruct (String.eqb k guid) eqn:Hk; [exact Hnd|].
    apply String.eqb_neq in Hk. inversion Hnd as [|? ? Hnotin Hrest]; subst.
    simpl. constructor; [|exact (IH Hrest)].
    intros Hin. apply in_map_iff in Hin. destruct Hin as ([k' v'] & Hfst & Hin).
    simpl in Hfst. subst k'.
    destruct (set_In rest guid info (k, v') Hin) as [Heq|Hold].
    + congruence.
    + apply Hnotin. apply in_map_iff. exists (k, v'). auto.
Qed.

Lemma set_inv (ds : downloads) (guid : string) (info : DownloadInfo) :
  downloads_inv ds -> sound (guid, info) -> downloads_inv (set ds guid info).
Proof.
  intros [Hnd Hall] Hnew. split; [exact (set_keys ds guid info Hnd)|].
  apply List.Forall_forall. intros kv Hin.
  destruct (set_In ds guid info kv Hin) as [->|Hold]; [exact Hnew|].
  exact (proj1 (List.Forall_forall _ _) Hall kv Hold).
Qed.

Lemma filter_keys (f : string * DownloadInfo -> bool) (ds : downloads) :
  List.NoDup (List.map fst ds) -> List.NoDup (List.map fst (List.filter f ds)).
Proof.
  induction ds as [|kv rest IH]; simpl; intros Hnd; [constructor|].
  inversion Hnd as [|? ? Hnotin Hrest]; subst.
  destruct (f kv); [|exact (IH Hrest)].
  simpl. constructor; [|exact (IH Hrest)].
  intros Hin. apply Hnotin. apply in_map_iff in Hin.
  destruct Hin as (kv' & Hfst & Hin). apply List.filter_In in Hin.
  apply in_map_iff. exists kv'. tauto.
Qed.

Lemma get_sound (ds : downloads) (guid : string) (info : DownloadInfo) :
  Forall sound ds -> get ds guid = Some info -> sound (guid, info).
Proof.
  intros Hall Hget.
  exact (proj1 (List.Forall_forall _ _) Hall _ (get_In ds guid info Hget)).
Qed.

Lemma renameLoop_path_not_empty (Join : string -> string -> string)
    (ok : bool) (filePath guid name : string) :
  (forall elem, Join DownloadDir elem <> EmptyString) ->
  (if ok then Join DownloadDir name
   else if negb (String.eqb filePath EmptyString) then filePath
        else Join DownloadDir guid) <> EmptyString.
Proof.
  intros HJoin. destruct ok; [apply HJoin|].
  destruct (String.eqb filePath EmptyString) eqn:Hf; simpl; [apply HJoin|].
  apply String.eqb_neq. exact Hf.
Qed.

Lemma tracked_inv (Join : string -> string -> string) (Ext : string -> string)
    (ds : downloads) :
  (forall elem, Join DownloadDir elem <> EmptyString) ->
  tracked Join Ext ds -> downloads_inv ds.
Proof.
  intros HJoin Ht. induction Ht as [|ds e Ht IH|ds e randomSuffix rename_ok Ht IH|ds Ht IH].
  - split; constructor.
  - apply set_inv; [exact IH|]. unfold sound. simpl.
    split; [reflexivity|]. split; [auto|discriminate].
  - unfold handleDownloadProgress. cbv zeta.
    assert (Hinfo : sound (ProgressGUID e,
              match get ds (ProgressGUID e) with
              | Some info => info
              | None => mkDownloadInfo (ProgressGUID e) EmptyString EmptyString
                          EmptyString false EmptyString
              end)).
    { destruct (get ds (ProgressGUID e)) as [info|] eqn:Hget.
      - exact (get_sound ds _ info (proj2 IH) Hget).
      - unfold sound. simpl. split; [reflexivity|]. split; [auto|discriminate]. }
    destruct Hinfo as (Hguid & Hopen & Hdone). cbn [fst snd] in Hguid, Hopen, Hdone.
    set (info := match get ds (ProgressGUID e) with
                 | Some info => info
                 | None => mkDownloadInfo (ProgressGUID e) EmptyString EmptyString
                             EmptyString false EmptyString
                 end) in *.
    destruct (State e).
    + apply set_inv; [exact IH|]. unfold sound. cbn [fst snd]. auto.
    + apply set_inv; [exact IH|]. unfold sound. cbn [fst snd GUID Completed Error FinalPath].
      split; [exact Hguid|]. split; [discriminate|]. intros _.
      destruct (Completed info) eqn:Hc.
      * destruct (Hdone eq_refl) as [He|[He _]]; [left; exact He|].
        right. split; [exact He|]. apply renameLoop_path_not_empty. exact HJoin.
      * destruct (Hopen eq_refl) as [_ He].
        right. split; [exact He|]. apply renameLoop_path_not_empty. exact HJoin.
    + apply set_inv; [exact IH|]. unfold sound. cbn [fst snd GUID Completed Error FinalPath].
      split; [exact Hguid|]. split; [discriminate|]. intros _. left. reflexivity.
  - destruct IH as [Hnd Hall]. split; [exact (filter_keys _ ds Hnd)|].
    apply List.Forall_forall. intros kv Hin. apply List.filter_In in Hin.
    exact (proj1 (List.Forall_forall _ _) Hall kv (proj1 Hin)).
Qed.

(** ** What is reported *)

(** X21: The name of a downloaded file is the suggested name, or "download"
    when none is suggested, with an underscore and the random part put in
    before its extension. *)
Theorem generateDownloadFilename_inserts_suffix (Ext : string -> string)
    (randomSuffix suggested : string) :
  (forall path, exists base, path = base ++ Ext path) ->
  exists base,
    (if String.eqb suggested EmptyString then "download" else suggested)
    = base ++ Ext (if String.eqb suggested EmptyString then "download" else suggested) /\
    generateDownloadFilename Ext randomSuffix suggested
    = base ++ "_" ++ randomSuffix
        ++ Ext (if String.eqb suggested EmptyString then "download" else suggested).
Proof.
  intros HExt. unfold generateDownloadFilename. cbv zeta.
  set (name := if String.eqb suggested EmptyString then "download" else suggested).
  destruct (HExt name) as [base Hbase]. exists base. split; [exact Hbase|].
  assert (Htrim : TrimSuffix name (Ext name) = base).
  { generalize (Ext name) Hbase. intros ext ->. apply TrimSuffix_app. }
  rewrite Htrim. reflexivity.
Qed.

(** X22: A report takes the completed downloads out of the map and leaves the
    others: what it returns is completed, a second report right after it
    returns nothing, and an entry stays exactly when it is not
    completed. *)
Theorem completed_downloads_are_reported_once (ds : downloads) :
  Forall (fun info => Completed info = true) (fst (GetRecentDownloads ds)) /\
  GetRecentDownloads (snd (GetRecentDownloads ds)) = ([], snd (GetRecentDownloads ds)) /\
  (forall kv, In kv (snd (GetRecentDownloads ds)) <->
              In kv ds /\ Completed (snd kv) = false) /\
  (forall info, In info (fst (GetRecentDownloads ds)) <->
                exists guid, In (guid, info) ds /\ Completed info = true).
Proof.
  unfold GetRecentDownloads. cbn [fst snd]. split; [|split; [|split]].
  - apply List.Forall_forall. intros info Hin. apply in_map_iff in Hin.
    destruct Hin as (kv & <- & Hin). apply List.filter_In in Hin. tauto.
  - induction ds as [|kv rest IH]; [reflexivity|]. cbn [List.filter].
    destruct (Completed (snd kv)) eqn:Hc; cbn [negb]; [exact IH|].
    cbn [List.filter]. rewrite Hc. cbn [negb List.map].
    injection IH as IH1 IH2. rewrite IH1, IH2. reflexivity.
  - intros kv. rewrite List.filter_In, negb_true_iff. tauto.
  - intros info. rewrite in_map_iff. split.
    + intros ([k i] & <- & Hin). apply List.filter_In in Hin. exists k. exact Hin.
    + intros (guid & Hin & Hc). exists (guid, info). split; [reflexivity|].
      apply List.filter_In. auto.
Qed.

(** X23: Whatever events arrive and whenever reports are taken, a report
    names no download twice, and each download that it names has either
    been cancelled, with the error "download canceled", or carries no
    error and a path of its file that is not empty. *)
Theorem reported_downloads_have_path_or_error (Join : string -> string -> string)
    (Ext : string -> string) (ds : downloads) :
  (forall elem, Join DownloadDir elem <> EmptyString) ->
  tracked Join Ext ds ->
  List.NoDup (List.map GUID (fst (GetRecentDownloads ds))) /\
  forall info, In info (fst (GetRecentDownloads ds)) ->
    Completed info = true /\
    (Error info = "download canceled" \/
     (Error info = EmptyString /\ FinalPath info <> EmptyString)).
Proof.
  intros HJoin Ht. destruct (tracked_inv Join Ext ds HJoin Ht) as [Hnd Hall].
  unfold GetRecentDownloads. cbn [fst]. split.
  - pose proof (filter_keys (fun kv => Completed (snd kv)) ds Hnd) as Hk.
    replace (List.map GUID (List.map snd (List.filter (fun kv => Completed (snd kv)) ds)))
      with (List.map fst (List.filter (fun kv => Completed (snd kv)) ds)); [exact Hk|].
    rewrite List.map_map. apply List.map_ext_in. intros kv Hin.
    apply List.filter_In in Hin.
    symmetry. exact (proj1 (proj1 (List.Forall_forall _ _) Hall kv (proj1 Hin))).
  - intros info Hin. apply in_map_iff in Hin. destruct Hin as (kv & <- & Hin).
    apply List.filter_In in Hin. destruct Hin as [Hin Hc].
    destruct (proj1 (List.Forall_forall _ _) Hall kv Hin) as (_ & _ & Hdone).
    split; [exact Hc|]. exact (Hdone Hc).
Qed.

(** ** On the cases of the tests *)

Definition join2 (dir elem : string) : string := dir ++ "/" ++ elem.

Example test_generateDownloadFilename :
  List.map (generateDownloadFilename filepath_Ext "1a2b3c4d")
    ["test.txt"; "document.pdf"; "noextension"; EmptyString; "file.tar.gz"]
  = ["test_1a2b3c4d.txt"; "document_1a2b3c4d.pdf"; "noextension_1a2b3c4d";
     "download_1a2b3c4d"; "file.tar_1a2b3c4d.gz"].
Proof. reflexivity. Qed.

Lemma generateDownloadFilename_inserts_suffix_witness :
  exists base,
    "file.tar.gz" = base ++ ".gz" /\
    generateDownloadFilename filepath_Ext "1a2b3c4d" "file.tar.gz"
    = base ++ "_" ++ "1a2b3c4d" ++ ".gz".
Proof.
  exact (generateDownloadFilename_inserts_suffix filepath_Ext "1a2b3c4d" "file.tar.gz"
           filepath_Ext_suffix).
Defined.

(** The download of [TestDownloadTracking], begun and then cancelled. *)
Definition cancelled_download : downloads :=
  handleDownloadProgress join2 filepath_Ext
    (handleDownloadWillBegin []
       (mkWillBegin "test-guid-123" "http://example.com/file.txt" "file.txt"))
    (mkProgress "test-guid-123" DownloadProgressStateCanceled EmptyString)
    "1a2b3c4d" (fun _ => false).

Lemma cancelled_download_tracked : tracked join2 filepath_Ext cancelled_download.
Proof. apply tracked_progress, tracked_begin, tracked_new. Qed.

Lemma join2_not_empty (elem : string) : join2 DownloadDir elem <> EmptyString.
Proof. discriminate. Qed.

Lemma reported_downloads_have_path_or_error_witness :
  Completed (mkDownloadInfo "test-guid-123" "http://example.com/file.txt" "file.txt"
               EmptyString true "download canceled") = true.
Proof.
  exact (proj1 (proj2 (reported_downloads_have_path_or_error join2 filepath_Ext
                         cancelled_download join2_not_empty cancelled_download_tracked)
                  (mkDownloadInfo "test-guid-123" "http://example.com/file.txt" "file.txt"
                     EmptyString true "download canceled")
                  (or_introl eq_refl))).
Defined.

End Downloads.

(* ===================================================================== *)
(** * Package client: the address of the server                           *)
(* ===================================================================== *)

Module Client.

Local Open Scope string_scope.

(** [strings.TrimPrefix] *)
Definition TrimPrefix (s prefix : string) : string :=
  if Browse.HasPrefix s prefix
  then substring (String.length prefix) (String.length s - String.length prefix) s
  else s.

(** [strings.SplitN(s, sep, 2)[0]] for a separator that is not empty: the
    text before the first [sep], or [s] when there is none. *)
Fixpoint SplitN2_first (s sep : string) : string :=
  if Browse.HasPrefix s sep then EmptyString
  else match s with
       | EmptyString => EmptyString
       | String a s' => String a (SplitN2_first s' sep)
       end.

(** [parseClientURL]: the scheme and the address, or the error. *)
Definition parseClientURL (rawURL : string) : string * string + string :=
  if Browse.HasPrefix rawURL "unix://" then
    let sockPath := TrimPrefix rawURL "unix://" in
    if String.eqb sockPath EmptyString
    then inr "unix:// URL must include a socket path"
    else inl ("unix", sockPath)
  else if Browse.HasPrefix rawURL "http://" || Browse.HasPrefix rawURL "https://" then
    inl (SplitN2_first rawURL "://", rawURL)
  else
    inr ("unsupported URL scheme: " ++ rawURL ++ " (use unix://, http://, or https://)").

(** The transport of the [http.Client] that [newHTTPClient] builds. *)
Inductive transport :=
| DialUnix (address : string)
| DefaultTransport.

(** [newHTTPClient]: the client and the base URL of the requests, or the
    error. *)
Definition newHTTPClient (serverURL : string) : transport * string + string :=
  match parseClientURL serverURL with
  | inr err => inr err
  | inl (scheme, address) =>
      if String.eqb scheme "unix" then inl (DialUnix address, "http://localhost")
      else if String.eqb scheme "http" || String.eqb scheme "https"
      then inl (DefaultTransport, address)
      else inr ("unsupported scheme: " ++ scheme)
  end.

Lemma HasPrefix_nil (s : string) : Browse.HasPrefix s EmptyString = true.
Proof. destruct s; reflexivity. Qed.

Lemma HasPrefix_TrimPrefix (prefix s : string) :
  Browse.HasPrefix s prefix = true -> s = prefix ++ TrimPrefix s prefix.
Proof.
  intros H. unfold TrimPrefix. rewrite H. revert s H.
  induction prefix as [|p prefix IH]; intros s H.
  - simpl. rewrite Nat.sub_0_r, Downloads.substring_all. reflexivity.
  - destruct s as [|a s]; [discriminate|]. simpl in H.
    apply andb_true_iff in H. destruct H as [Ha H].
    apply Ascii.eqb_eq in Ha. subst a. simpl. f_equal. exact (IH s H).
Qed.

Lemma parseClientURL_cases (rawURL scheme address : string) :
  parseClientURL rawURL = inl (scheme, address) ->
  (scheme = "unix" /\ rawURL = "unix://" ++ address /\ address <> EmptyString) \/
  (scheme = "http" /\ address = rawURL /\ Browse.HasPrefix rawURL "http://" = true) \/
  (scheme = "https" /\ address = rawURL /\ Browse.HasPrefix rawURL "https://" = true).
Proof.
  unfold parseClientURL.
  destruct (Browse.HasPrefix rawURL "unix://") eqn:Hunix.
  - cbv zeta. destruct (String.eqb (TrimPrefix rawURL "unix://") EmptyString) eqn:He;
      [discriminate|].
    intros [= <- <-]. left. split; [reflexivity|].
    split; [exact (HasPrefix_TrimPrefix _ _ Hunix)|]. apply String.eqb_neq. exact He.
  - destruct (Browse.HasPrefix rawURL "http://") eqn:Hhttp.
    + cbn [orb]. intros [= <- <-]. right. left.
      pose proof (HasPrefix_TrimPrefix _ _ Hhttp) as Heq.
      revert Heq. generalize (TrimPrefix rawURL "http://"). intros rest Heq.
      split; [rewrite Heq; cbn; rewrite HasPrefix_nil; reflexivity|auto].
    + destruct (Browse.HasPrefix rawURL "https://") eqn:Hhttps; [|discriminate].
      cbn [orb]. intros [= <- <-]. right. right.
      pose proof (HasPrefix_TrimPrefix _ _ Hhttps) as Heq.
      revert Heq. generalize (TrimPrefix rawURL "https://"). intros rest Heq.
      split; [rewrite Heq; cbn; rewrite HasPrefix_nil; reflexivity|auto].
Qed.

(** X24: An address that [parseClientURL] accepts is the scheme, "://" and a
    rest: the scheme is "unix", and the address of the socket is the
    rest, which is not empty, or the scheme is "http" or "https", and the
    address is the whole URL. *)
Theorem parseClientURL_splits_scheme (rawURL scheme address : string) :
  parseClientURL rawURL = inl (scheme, address) ->
  exists rest,
    rawURL = scheme ++ "://" ++ rest /\
    ((scheme = "unix" /\ address = rest /\ rest <> EmptyString) \/
     ((scheme = "http" \/ scheme = "https") /\ address = rawURL)).
Proof.
  intros H. destruct (parseClientURL_cases _ _ _ H)
    as [(-> & Hraw & Hne)|[(-> & -> & Hp)|(-> & -> & Hp)]].
  - exists address. auto.
  - exists (TrimPrefix rawURL "http://").
    split; [exact (HasPrefix_TrimPrefix _ _ Hp)|]. auto.
  - exists (TrimPrefix rawURL "https://").
    split; [exact (HasPrefix_TrimPrefix _ _ Hp)|]. auto.
Qed.

(** X25: [newHTTPClient] fails only with the errors of [parseClientURL]: a
    scheme that it does not support never comes out of the parser. For a
    socket it dials the path and talks to "http://localhost"; otherwise
    the base of the requests is the URL as given. *)
Theorem newHTTPClient_supports_parsed_schemes (serverURL : string) :
  match parseClientURL serverURL with
  | inr err => newHTTPClient serverURL = inr err
  | inl (scheme, address) =>
      newHTTPClient serverURL
      = inl (if String.eqb scheme "unix"
             then (DialUnix address, "http://localhost")
             else (DefaultTransport, serverURL))
  end.
Proof.
  unfold newHTTPClient.
  destruct (parseClientURL serverURL) as [[scheme address]|err] eqn:H; [|reflexivity].
  destruct (parseClientURL_cases _ _ _ H)
    as [(-> & _ & _)|[(-> & -> & _)|(-> & -> & _)]]; reflexivity.
Qed.

Lemma parseClientURL_splits_scheme_witness :
  exists rest,
    "unix:///tmp/shelley.sock" = "unix" ++ "://" ++ rest /\
    (("unix" = "unix" /\ "/tmp/shelley.sock" = rest /\ rest <> EmptyString) \/
     (("unix" = "http" \/ "unix" = "https") /\
      "/tmp/shelley.sock" = "unix:///tmp/shelley.sock")).
Proof.
  exact (parseClientURL_splits_scheme "unix:///tmp/shelley.sock" "unix"
           "/tmp/shelley.sock" eq_refl).
Defined.

Example test_parseClientURL :
  List.map parseClientURL
    ["unix:///tmp/shelley.sock"; "unix://"; "http://localhost:9000";
     "https://example.com/x?u=a://b"; "ftp://example.com"]
  = [inl ("unix", "/tmp/shelley.sock");
     inr "unix:// URL must include a socket path";
     inl ("http", "http://localhost:9000");
     inl ("https", "https://example.com/x?u=a://b");
     inr "unsupported URL scheme: ftp://example.com (use unix://, http://, or https://)"].
Proof. reflexivity. Qed.

End Client.

(* ===================================================================== *)
(** * Package server: the type under which a message is recorded          *)
(* ===================================================================== *)

Module Recording.

Local Open Scope string_scope.

(** Package [llm] is not among the sources: the roles and the content
    types are its enumerations, of which [getMessageType] names two and
    three; the last constructor stands for every other value. *)
Inductive MessageRole := MessageRoleUser | MessageRoleAssistant | MessageRoleOther.

Inductive ContentType :=
| ContentTypeText
| ContentTypeToolUse
| ContentTypeToolResult
| ContentTypeOther.

Record Content := mkContent {
  Type_ : ContentType;
  Text : string
}.

(** [llm.Message], the fields that [getMessageType] reads. *)
Record Message := mkMessage {
  Role : MessageRole;
  MessageContent : list Content
}.

Definition is_failure (content : Content) : bool :=
  match Type_ content with
  | ContentTypeText => Browse.HasPrefix (Text content) "LLM request failed:"
  | _ => false
  end.

Definition is_tool (content : Content) : bool :=
  match Type_ content with
  | ContentTypeToolUse | ContentTypeToolResult => true
  | _ => false
  end.

(** [getMessageType]: the type and the error, which is [None] for nil. *)
Definition getMessageType (message : Message) : string * option string :=
  match Role message with
  | MessageRoleUser => (Server.MessageTypeUser, None)
  | MessageRoleAssistant =>
      if existsb is_failure (MessageContent message)
      then (Server.MessageTypeError, None)
      else (Server.MessageTypeAgent, None)
  | MessageRoleOther =>
      if existsb is_tool (MessageContent message)
      then (Server.MessageTypeTool, None)
      else (Server.MessageTypeAgent, None)
  end.

(** The row that [recordMessage] has created for [message], as the
    stream hands it on: its type is the one of [getMessageType], and
    [llmData] is the stored payload. *)
Definition recorded (unmarshalEndOfTurn : string -> option bool) (message : Message)
    (sequenceID : Z) (llmData usageData : option string) : Server.APIMessage :=
  Stream.observed
    (Stream.toAPIMessage unmarshalEndOfTurn
       (Stream.mkMessage sequenceID (fst (getMessageType message)) llmData usageData)).

(** X26: [getMessageType] never fails, so that [recordMessage] never returns
    "failed to determine message type", and a message is recorded as a
    user, agent, tool or error message, never as gitinfo. *)
Theorem getMessageType_never_fails (message : Message) :
  snd (getMessageType message) = None /\
  In (fst (getMessageType message))
     [Server.MessageTypeUser; Server.MessageTypeAgent; Server.MessageTypeTool;
      Server.MessageTypeError] /\
  fst (getMessageType message) <> Server.MessageTypeGitInfo /\
  (fst (getMessageType message) = Server.MessageTypeError <->
   Role message = MessageRoleAssistant /\
   exists content, In content (MessageContent message) /\
     Type_ content = ContentTypeText /\
     Browse.HasPrefix (Text content) "LLM request failed:" = true).
Proof.
  assert (Hfail : existsb is_failure (MessageContent message) = true <->
            exists content, In content (MessageContent message) /\
              Type_ content = ContentTypeText /\
              Browse.HasPrefix (Text content) "LLM request failed:" = true).
  { rewrite existsb_exists. split; intros (content & Hin & H); exists content;
      (split; [exact Hin|]); unfold is_failure in *.
    - destruct (Type_ content); try discriminate. auto.
    - destruct H as [-> H]. exact H. }
  unfold getMessageType. destruct (Role message).
  - cbn. repeat split; auto; try discriminate. intros [H _]. discriminate.
  - destruct (existsb is_failure (MessageContent message)) eqn:He; cbn.
    + repeat split; auto 6; try discriminate. apply Hfail. reflexivity.
    + repeat split; auto; try discriminate. intros [_ H]. apply Hfail in H.
      discriminate.
  - destruct (existsb is_tool (MessageContent message)); cbn;
      repeat split; auto 6; try discriminate; intros [H _]; discriminate.
Qed.

(** X27: Once a message is recorded at the end of a conversation, the flag
    that the stream computes follows from the message alone: a user or
    tool message means the agent is working, a failed request means it is
    not, and any other assistant message means it is working unless its
    payload says that the turn has ended. *)
Theorem recorded_message_sets_working (unmarshalEndOfTurn : string -> option bool)
    (history : list Server.APIMessage) (message : Message) (sequenceID : Z)
    (llmData usageData : option string) :
  Server.agentWorking
    (history ++ [recorded unmarshalEndOfTurn message sequenceID llmData usageData])
  = match fst (getMessageType message) with
    | "error" => false
    | "agent" =>
        match llmData with
        | Some raw =>
            match unmarshalEndOfTurn raw with
            | Some endOfTurn => negb endOfTurn
            | None => true
            end
        | None => true
        end
    | _ => true
    end.
Proof.
  rewrite Server.agentWorking_tail, Server.tail_ignoring_gitinfo_snoc.
  unfold recorded, Stream.observed, Stream.toAPIMessage, Stream.extractEndOfTurn.
  unfold getMessageType.
  destruct (Role message);
    [|destruct (existsb is_failure (MessageContent message))
     |destruct (existsb is_tool (MessageContent message))];
    cbn; try reflexivity;
    destruct llmData as [raw|]; cbn; try reflexivity;
    destruct (unmarshalEndOfTurn raw) as [[|]|]; reflexivity.
Qed.

End Recording.
